(** * find_relevant_skills.py: a shallow embedding and its verified properties

    The script matches free text against a catalog of skills.  This file
    embeds its core (entity extraction, relevance scoring, noise filtering,
    ranking, bundle expansion and the report's listing logic) as Rocq
    functions and proves the properties the specification states about them;
    it embeds the loaders, the reading and cleaning of the input, the
    console summary and [main] as well, with properties of their own.

    Modelling choices, all visible below:
    - a Python [str] is a list of Unicode code points ([list N]);
    - a Python [float] that is finite is identified with the rational it
      denotes; [*] and [+] on floats are the exact operation followed by
      IEEE-754 binary64 rounding to nearest, ties to even ([Float64.round64]);
    - a [dict] is an association list in insertion order with unique keys;
    - a [set] is a [gset]; where the script iterates over a set, the
      iteration order is taken from a [SetOrder] (CPython fixes it per
      process from the hash seed);
    - [rapidfuzz], an external library, is the interface [Fuzz]; the module
      [RapidFuzz] transcribes the library's algorithms to run examples on
      ASCII strings;
    - a file the script reads is missing, unreadable (opening, reading or
      decoding it raises) or its decoded lines ([file_state]); what
      [argparse] makes of the command line, the file system behind the
      input source and whether the report can be written are inputs of
      [main] ([parse_result], [world]); standard output is taken to accept
      every line printed. *)

From Stdlib Require Import QArith Qround Qabs Qpower Lia Lqa ZArith String Ascii.
From Corelib Require SpecFloat.
From stdpp Require Import base tactics list gmap sets sorting pretty.

Local Open Scope Z_scope.
Local Open Scope list_scope.

(* ===================================================================== *)
(** ** Python strings *)
(* ===================================================================== *)

(** A string is the list of its code points. *)
Abbreviation str := (list N).

Module Str.

(** An ASCII literal as a [str]. *)
Definition of_ascii (s : string) : str :=
  map N_of_ascii (list_ascii_of_string s).

(** [s.startswith(p)] *)
Fixpoint starts_with (p s : str) : bool :=
  match p, s with
  | [], _ => true
  | a :: p', b :: s' => N.eqb a b && starts_with p' s'
  | _ :: _, [] => false
  end.

(** The scan of [str.replace] for a non-empty [old]: left to right, the
    occurrences replaced do not overlap.  [skip] counts the characters of
    the occurrence just replaced that are still to be passed over. *)
Fixpoint replace_from (old new : str) (skip : nat) (s : str) : str :=
  match s with
  | [] => []
  | c :: s' =>
      match skip with
      | S k => replace_from old new k s'
      | O =>
          if starts_with old s
          then new ++ replace_from old new (length old - 1) s'
          else c :: replace_from old new 0 s'
      end
  end.

(** [s.replace(old, new)].  With an empty [old] Python inserts [new] before
    every character and at the end. *)
Definition replace (old new s : str) : str :=
  match old with
  | [] => new ++ flat_map (fun c => c :: new) s
  | _ :: _ => replace_from old new 0 s
  end.

(** [s.split(sep)] for a one-character separator: never an empty list. *)
Fixpoint split (sep : N) (s : str) : list str :=
  match s with
  | [] => [[]]
  | c :: s' =>
      if N.eqb c sep then [] :: split sep s'
      else match split sep s' with
           | [] => [[c]]
           | w :: ws => (c :: w) :: ws
           end
  end.

(** [c.isspace()]: the code points CPython's [str.strip()] removes. *)
Definition isspace (c : N) : bool :=
  ((9 <=? c) && (c <=? 13) || (28 <=? c) && (c <=? 32)
   || (c =? 133) || (c =? 160) || (c =? 5760)
   || (8192 <=? c) && (c <=? 8202)
   || (c =? 8232) || (c =? 8233) || (c =? 8239) || (c =? 8287)
   || (c =? 12288))%N.

Fixpoint lstrip (s : str) : str :=
  match s with
  | [] => []
  | c :: s' => if isspace c then lstrip s' else s
  end.

Definition rstrip (s : str) : str := reverse (lstrip (reverse s)).

(** [s.strip()] *)
Definition strip (s : str) : str := rstrip (lstrip s).

(** [sep.join(parts)] *)
Fixpoint join (sep : str) (parts : list str) : str :=
  match parts with
  | [] => []
  | [p] => p
  | p :: ps => p ++ sep ++ join sep ps
  end.

(** Truthiness of a string: it is not empty. *)
Definition nonempty (s : str) : bool :=
  match s with [] => false | _ :: _ => true end.

(** Lexicographic order on code points, the order of [sorted] on strings. *)
Fixpoint leb (a b : str) : bool :=
  match a, b with
  | [], _ => true
  | _ :: _, [] => false
  | x :: a', y :: b' => (x <? y)%N || (N.eqb x y && leb a' b')
  end.

Definition le (a b : str) : Prop := leb a b = true.

#[global] Instance le_dec : RelDecision le :=
  fun a b => decide (leb a b = true).

(** [sub in s]: [sub] occurs in [s] as a substring. *)
Fixpoint contains (sub s : str) : bool :=
  starts_with sub s
  || match s with
     | [] => false
     | _ :: s' => contains sub s'
     end.

End Str.

(** Code points the script names. *)
Definition NEWLINE : N := 10.
Definition COMMA : N := 44.
Definition SEMICOLON : N := 59.
Definition HYPHEN : N := 45.
(** U+2022, the bullet glyph. *)
Definition BULLET : N := 8226.
(** The third delimiter literal of line 136 as the file holds it: the three
    code points U+00E2 U+20AC U+00A2 (bytes c3 a2, e2 82 ac, c2 a2), which is
    the UTF-8 encoding of U+2022 read as Windows-1252. *)
Definition BULLET_LITERAL : str := [226; 8364; 162]%N.

(* ===================================================================== *)
(** ** Iteration order of sets *)
(* ===================================================================== *)

(** [set_iter l] is the order in which a set built from the elements [l]
    is iterated, as in [list(set(l))]: some duplicate-free enumeration. *)
Class SetOrder := {
  set_iter : list str -> list str;
  set_iter_NoDup : forall l, NoDup (set_iter l);
  set_iter_elem : forall l x, x ∈ set_iter l <-> x ∈ l
}.

(* ===================================================================== *)
(** ** 2. Input processing *)
(* ===================================================================== *)

(** The delimiters of line 136, in order. *)
Definition DELIMITERS : list str :=
  [[COMMA]; [SEMICOLON]; BULLET_LITERAL; [HYPHEN]].

(** The loop of lines 136-137. *)
Definition normalize_delimiters (text : str) : str :=
  fold_left (fun text char => Str.replace char [NEWLINE] text) DELIMITERS text.

(** The list comprehension of line 139. *)
Definition entity_lines (text : str) : list str :=
  map Str.strip
      (filter (fun line => Str.nonempty (Str.strip line) = true)
              (Str.split NEWLINE text)).

Definition extract_search_entities `{SetOrder} (text : str) : list str :=
  let text := normalize_delimiters text in
  let entities := entity_lines text in
  set_iter entities.

(** The extraction as the specification words it (section 4.1): the text
    is cut at every comma, semicolon, bullet glyph, hyphen and line break,
    each segment is trimmed, the empty ones are dropped, and the result is
    the set of what remains. *)
Definition SPEC_DELIMITERS : list N :=
  [COMMA; SEMICOLON; BULLET; HYPHEN; NEWLINE].

Fixpoint split_where (P : N -> bool) (s : str) : list str :=
  match s with
  | [] => [[]]
  | c :: s' =>
      if P c then [] :: split_where P s'
      else match split_where P s' with
           | [] => [[c]]
           | w :: ws => (c :: w) :: ws
           end
  end.

Definition extract_search_entities_spec (text : str) : gset str :=
  list_to_set
    (filter (fun segment => Str.nonempty segment = true)
            (map Str.strip
                 (split_where (fun c => bool_decide (c ∈ SPEC_DELIMITERS))
                              text))).

(* ===================================================================== *)
(** ** Python floats *)
(* ===================================================================== *)

(** A finite float is the rational it denotes.  Every arithmetic operation
    is the exact rational operation followed by [round64], the binary64
    rounding to nearest with ties to even: 53 significant bits, smallest
    exponent -1074 (gradual underflow).  Overflow to infinity is not
    modelled; the scores of this program stay below 128. *)
Module Float64.

Local Open Scope Q_scope.

(** The integer [k] with [2^k <= x < 2^(k+1)], for positive [x]. *)
Definition ilog2 (x : Q) : Z :=
  let k := (Z.log2 (Qnum x) - Z.log2 (Zpos (Qden x)))%Z in
  if Qle_bool (2 ^ k) x then k else (k - 1)%Z.

(** The nearest integer, a tie going to the even one. *)
Definition rne (x : Q) : Z :=
  let f := Qfloor x in
  match Qcompare (x - inject_Z f) (1 # 2) with
  | Lt => f
  | Gt => (f + 1)%Z
  | Eq => if Z.even f then f else (f + 1)%Z
  end.

(** The exponent of the last place of the binary64 numbers around [x]. *)
Definition ulp_exp (x : Q) : Z := Z.max (ilog2 x - 52) (-1074).

Definition round_pos (x : Q) : Q :=
  let e := ulp_exp x in inject_Z (rne (x / 2 ^ e)) * 2 ^ e.

Definition round64 (x : Q) : Q :=
  match Qnum x with
  | Z0 => 0
  | Zpos _ => round_pos x
  | Zneg _ => - round_pos (- x)
  end.

(** A decimal literal of the source denotes the nearest binary64 number. *)
Definition lit (x : Q) : Q := round64 x.

Definition mul (x y : Q) : Q := round64 (x * y).
Definition add (x y : Q) : Q := round64 (x + y).
Definition sub (x y : Q) : Q := round64 (x - y).
Definition div (x y : Q) : Q := round64 (x / y).

(** [x < y], [x <= y] as Python evaluates them. *)
Definition ltb (x y : Q) : bool := negb (Qle_bool y x).
Definition leb (x y : Q) : bool := Qle_bool x y.

End Float64.

(** Float multiplication and addition. *)
Infix "⊗" := Float64.mul (at level 40, left associativity).
Infix "⊕" := Float64.add (at level 50, left associativity).

(* ===================================================================== *)
(** ** The rapidfuzz interface *)
(* ===================================================================== *)

(** The three functions the script imports from [rapidfuzz] (line 21):
    [utils.default_process], [fuzz.partial_ratio], [fuzz.token_set_ratio].
    The library is not part of the repository; the script's functions are
    defined over any implementation. *)
Class Fuzz := {
  default_process : str -> str;
  partial_ratio : str -> str -> Q;
  token_set_ratio : str -> str -> Q
}.

(* ===================================================================== *)
(** ** Types and constants (lines 28-53) *)
(* ===================================================================== *)

Module Skill.
Record t := mk {
  name : str;
  description : str;
  tags : str;
  triggers : str;
  full_text : str
}.
End Skill.

Module Bundle.
Record t := mk {
  name : str;
  description : str;
  skills : list str
}.
End Bundle.

Module SearchResult.
Record t := mk {
  skill : Skill.t;
  score : Q
}.
End SearchResult.

Definition NOISE_THRESHOLD : Q := 55.
Definition HIGH_CONFIDENCE : Q := 75.
(** The literal [65.0] of line 186. *)
Definition BUNDLE_TRIGGER : Q := 65.

(** A catalog row as [load_catalog_skills] builds it (lines 80-86); the
    f-string of line 85 puts single spaces between the four fields. *)
Definition catalog_skill (name description tags triggers : str) : Skill.t :=
  Skill.mk name description tags triggers
    (name ++ [32%N] ++ description ++ [32%N] ++ tags ++ [32%N] ++ triggers).

(* ===================================================================== *)
(** ** Dictionaries *)
(* ===================================================================== *)

(** A [dict] with string keys: the items in insertion order. *)
Module Dict.
Section Dict.
Context {V : Type}.

(** [d.get(k)] *)
Fixpoint get (k : str) (d : list (str * V)) : option V :=
  match d with
  | [] => None
  | (k', v) :: d' => if decide (k = k') then Some v else get k d'
  end.

(** [d[k] = v]: a key already present keeps its place. *)
Fixpoint setitem (k : str) (v : V) (d : list (str * V)) : list (str * V) :=
  match d with
  | [] => [(k, v)]
  | (k', v') :: d' =>
      if decide (k = k') then (k, v) :: d' else (k', v') :: setitem k v d'
  end.

(** [d.values()] *)
Definition values (d : list (str * V)) : list V := map snd d.

(** [d.keys()] *)
Definition keys (d : list (str * V)) : list str := map fst d.

(** Equality of dictionaries ([==]) ignores the insertion order. *)
Definition equiv (d1 d2 : list (str * V)) : Prop :=
  forall k, get k d1 = get k d2.

(** A mutation of the object stored under [k], seen through the
    dictionary: the value is replaced by [f] of it, in place. *)
Fixpoint modify (f : V -> V) (k : str) (d : list (str * V))
    : list (str * V) :=
  match d with
  | [] => []
  | (k', v) :: d' =>
      if decide (k = k') then (k', f v) :: d' else (k', v) :: modify f k d'
  end.

End Dict.
End Dict.

Abbreviation dict V := (list (str * V)).

(* ===================================================================== *)
(** ** 3. Core logic *)
(* ===================================================================== *)

Section Core.
Context `{Fuzz}.

(** Lines 144-152. *)
Definition calculate_relevance (query : str) (skill : Skill.t) : Q :=
  let q := default_process query in
  let name_score := partial_ratio q (Skill.name skill) in
  let trigger_score := token_set_ratio q (Skill.triggers skill) in
  let text_score := token_set_ratio q (Skill.full_text skill) in
  (name_score ⊗ Float64.lit 0.4) ⊕ (trigger_score ⊗ Float64.lit 0.4)
  ⊕ (text_score ⊗ Float64.lit 0.2).

(** The running maximum of [max(iterable)]: a later item replaces the
    current one only when it is strictly greater. *)
Fixpoint max_from (m : Q) (l : list Q) : Q :=
  match l with
  | [] => m
  | x :: l' => max_from (if Float64.ltb m x then x else m) l'
  end.

(** [max(iterable)]; [None] is the [ValueError] on an empty iterable. *)
Definition py_max (l : list Q) : option Q :=
  match l with
  | [] => None
  | x :: l' => Some (max_from x l')
  end.

(** Line 160: the conditional expression guards [max] by [if skills]. *)
Definition max_score_of (entity : str) (skills : list Skill.t) : option Q :=
  match skills with
  | _ :: _ => py_max (map (calculate_relevance entity) skills)
  | [] => Some 0%Q
  end.

(** The loop of lines 158-162, [valid] being the list built so far. *)
Fixpoint filter_valid_loop (entities : list str) (skills : list Skill.t)
    (valid : list str) : option (list str) :=
  match entities with
  | [] => Some valid
  | entity :: rest =>
      max_score ← max_score_of entity skills;
      if Float64.leb NOISE_THRESHOLD max_score
      then filter_valid_loop rest skills (valid ++ [entity])
      else filter_valid_loop rest skills valid
  end.

(** Lines 155-163; [None] would be an exception escaping the function. *)
Definition filter_valid_entities (entities : list str) (skills : list Skill.t)
    : option (list str) :=
  filter_valid_loop entities skills [].

(** Insertion into a list sorted by decreasing score, before the first
    element whose score is not greater. *)
Fixpoint insert_desc (x : SearchResult.t) (l : list SearchResult.t)
    : list SearchResult.t :=
  match l with
  | [] => [x]
  | y :: l' =>
      if Float64.ltb (SearchResult.score x) (SearchResult.score y)
      then y :: insert_desc x l'
      else x :: y :: l'
  end.

(** [matches.sort(key=lambda x: x.score, reverse=True)] (line 175).
    Python's sort is stable, also with [reverse=True]; a stable sort's
    result is determined by its input, and insertion from the right is one. *)
Definition sort_desc (matches : list SearchResult.t) : list SearchResult.t :=
  foldr insert_desc [] matches.

(** [l[:n]] for a Python [int] [n]: a negative [n] counts from the end. *)
Definition slice_to {A} (n : Z) (l : list A) : list A :=
  if (0 <=? n)%Z then take (Z.to_nat n) l
  else take (length l - Z.to_nat (- n)) l.

(** Lines 170-173. *)
Definition score_all (entity : str) (skills : list Skill.t)
    : list SearchResult.t :=
  map (fun skill => SearchResult.mk skill (calculate_relevance entity skill))
      skills.

(** Lines 166-177. *)
Definition search_skills (entities : list str) (skills : list Skill.t)
    (top_n : Z) : dict (list SearchResult.t) :=
  fold_left
    (fun results entity =>
       let matches := score_all entity skills in
       let matches := sort_desc matches in
       Dict.setitem entity (slice_to top_n matches) results)
    entities [].

End Core.

(** The scans of a Result Set in iteration order (lines 184-185, 210-211). *)
Definition all_scans (results : dict (list SearchResult.t))
    : list SearchResult.t :=
  concat (Dict.values results).

(** Lines 182-187. *)
Definition found_names (results : dict (list SearchResult.t)) : gset str :=
  list_to_set
    (map (fun scan => Skill.name (SearchResult.skill scan))
         (filter (fun scan =>
                    Float64.ltb BUNDLE_TRIGGER (SearchResult.score scan) = true)
                 (all_scans results))).

(** Lines 180-195. *)
Definition find_bundled_skills (results : dict (list SearchResult.t))
    (bundles : dict Bundle.t) : gset str :=
  let found_names := found_names results in
  fold_left
    (fun extras bundle =>
       let bundle_skills : gset str := list_to_set (Bundle.skills bundle) in
       if decide (found_names ∩ bundle_skills ≠ ∅)
       then extras ∪ (bundle_skills ∖ found_names)
       else extras)
    (Dict.values bundles) ∅.

(** Lines 285-299 of [main], without the printing: [None] is an exception,
    [NoValidTerms] the early return of line 292. *)
Inductive outcome :=
  | NoValidTerms
  | Found (results : dict (list SearchResult.t)) (extras : gset str).

Definition main_core `{Fuzz} `{SetOrder} (raw_text : str)
    (skills : list Skill.t) (bundles : dict Bundle.t) (top_n : Z)
    : option outcome :=
  let entities := extract_search_entities raw_text in
  valid_entities ← filter_valid_entities entities skills;
  match valid_entities with
  | [] => Some NoValidTerms
  | _ :: _ =>
      let results := search_skills valid_entities skills top_n in
      let extras := find_bundled_skills results bundles in
      Some (Found results extras)
  end.

(* ===================================================================== *)
(** ** 4. Presentation *)
(* ===================================================================== *)

Section Report.
Context `{SetOrder}.

#[local] Abbreviation u := Str.of_ascii.

(** Line 206: a later skill of the same name replaces the earlier one. *)
Definition skill_map_of (all_skills : list Skill.t) : dict Skill.t :=
  fold_left (fun m s => Dict.setitem (Skill.name s) s m) all_skills [].

(** Lines 209-213. *)
Definition core_skills (results : dict (list SearchResult.t)) : gset str :=
  list_to_set
    (map (fun scan => Skill.name (SearchResult.skill scan))
         (filter (fun scan =>
                    Float64.ltb HIGH_CONFIDENCE (SearchResult.score scan) = true)
                 (all_scans results))).

(** [sorted(list(s))] for a set of strings.  The elements are distinct and
    the order on strings is total, so every sorting algorithm returns the
    same list. *)
Definition sorted_names (s : gset str) : list str :=
  merge_sort Str.le (set_iter (elements s)).

(** The loops of lines 225-227 and 230-232: the names that
    [skill_map.get] finds, each with its skill, in the order given. *)
Definition listing (skill_map : dict Skill.t) (names : list str)
    : list (str * Skill.t) :=
  omap (fun name => s ← Dict.get name skill_map; Some (name, s)) names.

(** The f-string of lines 227 and 232. *)
Definition listing_line (entry : str * Skill.t) : str :=
  u "- **" ++ entry.1 ++ u "**: " ++ Skill.description entry.2.

(** The f-string of line 241. *)
Definition install_line (name : str) : str :=
  u "Copy-Item -Recurse -Force '.agent/skills/skills/" ++ name
  ++ u "' .agent/skills/skills/" ++ [NEWLINE].

(** Lines 239-241. *)
Definition install_command (recommended_skills : list str) : str :=
  fold_left (fun cmd name => cmd ++ install_line name) recommended_skills
            (u "# PowerShell" ++ [NEWLINE]).

(** The lines under "CORE MATCHES" (lines 225-227). *)
Definition core_section (results : dict (list SearchResult.t))
    (all_skills : list Skill.t) : list (str * Skill.t) :=
  listing (skill_map_of all_skills) (sorted_names (core_skills results)).

(** The lines under "RECOMMENDED" (lines 230-232). *)
Definition recommended_section (extras : gset str) (all_skills : list Skill.t)
    : list (str * Skill.t) :=
  listing (skill_map_of all_skills) (set_iter (elements extras)).

(** Line 215. *)
Definition recommended_skills (results : dict (list SearchResult.t))
    (extras : gset str) : list str :=
  sorted_names (core_skills results ∪ extras).

(** The list [md] of lines 218-243. *)
Definition report_md (results : dict (list SearchResult.t))
    (extras : gset str) (all_skills : list Skill.t) : list str :=
  [ u "# Skill Implementation Report" ++ [NEWLINE];
    u "**Based on analysis of your requirements.**" ++ [NEWLINE];
    u "## 1. Required Skills" ++ [NEWLINE];
    u "### CORE MATCHES (High Relevance)" ]
  ++ map listing_line (core_section results all_skills)
  ++ [ [NEWLINE] ++ u "### RECOMMENDED (Bundles & Ecosystem)" ]
  ++ map listing_line (recommended_section extras all_skills)
  ++ [ [NEWLINE] ++ u "## 2. Quick Install" ++ [NEWLINE];
       u "Run this command to install the skills:";
       u "```powershell";
       install_command (recommended_skills results extras);
       u "```" ++ [NEWLINE] ].

(** Lines 199-245. *)
Definition generate_report_content (results : dict (list SearchResult.t))
    (extras : gset str) (all_skills : list Skill.t) : str :=
  Str.join [NEWLINE] (report_md results extras all_skills).

End Report.

(* ===================================================================== *)
(** ** 1. Data loading *)
(* ===================================================================== *)

(** How a function ends: with a value, in [sys.exit(code)], or in an
    exception that it does not catch. *)
Inductive completion (A : Type) :=
  | Returned (a : A)
  | SysExit (code : Z)
  | Raised.
Arguments Returned {A} a.
Arguments SysExit {A} code.
Arguments Raised {A}.

(** What the script finds at the path of a file it reads as UTF-8 text:
    nothing ([path.exists()] is false); something it cannot read, so that
    [open], the read or the decoding raises ([OSError],
    [UnicodeDecodeError]: lines 64-65 and 97-98 stand in no [try] block);
    or the decoded lines. *)
Inductive file_state :=
  | Missing
  | Unreadable
  | Lines (lines : list str).

Definition PIPE : N := 124.
Definition BACKTICK : N := 96.
Definition SPACE : N := 32.

Section Loading.

#[local] Abbreviation u := Str.of_ascii.

(** The body of the loop of lines 67-86: the skill a line adds, if any.
    A list of fewer than five parts is skipped (line 73). *)
Definition parse_catalog_line (line : str) : option Skill.t :=
  if negb (Str.starts_with [PIPE] (Str.strip line)) then None
  else
    let parts := map Str.strip (Str.split PIPE line) in
    match parts with
    | _ :: p1 :: p2 :: p3 :: p4 :: _ =>
        let name := Str.strip (Str.replace [BACKTICK] [] p1) in
        if bool_decide (name = u "Skill") || Str.contains (u "---") name
        then None
        else Some (catalog_skill name p2 p3 p4)
    | _ => None
    end.

(** Lines 63-87 on the lines [f.readlines()] returned. *)
Definition parse_catalog (lines : list str) : list Skill.t :=
  omap parse_catalog_line lines.

(** Lines 57-87.  [file] is what is at [CATALOG_PATH]; the first
    component is what is printed.  The exception of an unreadable file
    escapes. *)
Definition load_catalog_skills (catalog_path : str) (file : file_state)
    : list str * completion (list Skill.t) :=
  match file with
  | Missing =>
      ([u "Error: Catalog not found at " ++ catalog_path], SysExit 1)
  | Unreadable => ([], Raised)
  | Lines lines => ([], Returned (parse_catalog lines))
  end.

(** The text between the first and the second backtick: [line.split("`")[1]]
    of line 105; [None] is the [IndexError] of a list with one element. *)
Definition second_part (line : str) : option str :=
  Str.split BACKTICK line !! 1%nat.

(** One iteration of the loop of lines 98-108.  The state is the
    dictionary and the key of [current_bundle]: the object bound to
    [current_bundle] is always the one stored under its own name (line 103
    stores it when line 102 creates it), so lines 106 and 108 mutate the
    entry of that key.  [None] is an exception. *)
Definition bundle_step (state : dict Bundle.t * option str) (raw_line : str)
    : option (dict Bundle.t * option str) :=
  let '(bundles, current_bundle) := state in
  let line := Str.strip raw_line in
  if Str.starts_with (u "## ") line then
    let name := Str.strip (Str.replace (u "## ") [] line) in
    Some (Dict.setitem name (Bundle.mk name [] []) bundles, Some name)
  else
    match current_bundle with
    | None => Some state
    | Some key =>
        if Str.starts_with (u "- `") line then
          skill_name ← second_part line;
          Some (Dict.modify
                  (fun b => Bundle.mk (Bundle.name b) (Bundle.description b)
                                      (Bundle.skills b ++ [skill_name]))
                  key bundles,
                current_bundle)
        else if Str.nonempty line
                && negb (Str.starts_with (u "-") line)
                && negb (Str.starts_with (u "#") line) then
          Some (Dict.modify
                  (fun b => Bundle.mk (Bundle.name b)
                                      (Bundle.description b ++ line ++ [SPACE])
                                      (Bundle.skills b))
                  key bundles,
                current_bundle)
        else Some state
    end.

(** The loop of lines 98-108 from a given state. *)
Fixpoint bundle_loop (lines : list str) (state : dict Bundle.t * option str)
    : option (dict Bundle.t * option str) :=
  match lines with
  | [] => Some state
  | line :: rest => state' ← bundle_step state line; bundle_loop rest state'
  end.

(** Lines 90-110.  [file] is what is at [BUNDLES_PATH]; [None] is an
    exception.  The file is decoded while the loop runs, so a file that
    cannot be decoded raises after the lines before the fault were
    processed; the map built so far is lost with the exception. *)
Definition load_skill_bundles (file : file_state) : option (dict Bundle.t) :=
  match file with
  | Missing => Some []
  | Unreadable => None
  | Lines lines => state ← bundle_loop lines ([], None); Some state.1
  end.

End Loading.

(* ===================================================================== *)
(** ** 2. Input processing: reading and cleaning *)
(* ===================================================================== *)

Definition LBRACKET : N := 91.
Definition RBRACKET : N := 93.
Definition LPAREN : N := 40.
Definition RPAREN : N := 41.

(** The characters of line 120: ? * < > | and the double quote. *)
Definition INVALID_PATH_CHARS : str := [63; 42; 60; 62; 124; 34]%N.

(** Lines 120-121: the number of distinct characters of the source that
    are not among the invalid ones is compared with its length. *)
Definition looks_like_path (source : str) : bool :=
  let valid_path_chars : gset N :=
    list_to_set source ∖ list_to_set INVALID_PATH_CHARS in
  bool_decide (size valid_path_chars = length source).

(** What lines 123-125 meet at a path: no regular file, an [OSError], the
    decoded content, or an exception that is no [OSError] (a
    [UnicodeDecodeError] of [f.read()]). *)
Inductive read_result :=
  | NotAFile
  | RaisesOSError
  | Content (text : str)
  | RaisesOther.

(** The longest prefix without [stop], and the rest. *)
Fixpoint span_until (stop : N) (s : str) : str * str :=
  match s with
  | [] => ([], [])
  | c :: s' =>
      if N.eqb c stop then ([], s)
      else let '(prefix, rest) := span_until stop s' in (c :: prefix, rest)
  end.

(** A match of the pattern of line 130 at the start of [s]: an opening
    bracket, one or more characters that are no closing bracket, a closing
    bracket, an opening parenthesis, one or more characters that are no
    closing parenthesis, a closing parenthesis.  Both classes are negated
    sets followed by the excluded character, so the greedy match is the
    only one.  The result is group 1 and the length of the match. *)
Definition link_at (s : str) : option (str * nat) :=
  match s with
  | c :: s1 =>
      if N.eqb c LBRACKET then
        let '(label, s2) := span_until RBRACKET s1 in
        match label, s2 with
        | _ :: _, _ :: c2 :: s3 =>
            if N.eqb c2 LPAREN then
              let '(target, s4) := span_until RPAREN s3 in
              match target, s4 with
              | _ :: _, _ :: _ =>
                  Some (label, (length label + length target + 4)%nat)
              | _, _ => None
              end
            else None
        | _, _ => None
        end
      else None
  | [] => None
  end.

(** The scan of [re.sub]: leftmost matches, not overlapping, each replaced
    by its group 1.  [skip] counts the characters of the match just
    replaced that are still to be passed over. *)
Fixpoint strip_links_from (skip : nat) (s : str) : str :=
  match s with
  | [] => []
  | c :: s' =>
      match skip with
      | S k => strip_links_from k s'
      | O =>
          match link_at s with
          | Some (label, n) => label ++ strip_links_from (n - 1) s'
          | None => c :: strip_links_from 0 s'
          end
      end
  end.

(** Line 130. *)
Definition strip_links (text : str) : str := strip_links_from 0 text.

(** Lines 114-130.  [fs] is the file system; [None] is an exception that
    the [except OSError] of line 126 does not catch. *)
Definition get_clean_input_text (fs : str -> read_result) (source : str)
    : option str :=
  text ← (if looks_like_path source
          then match fs source with
               | Content text => Some text
               | NotAFile | RaisesOSError => Some source
               | RaisesOther => None
               end
          else Some source);
  Some (strip_links text).

(* ===================================================================== *)
(** ** 4. Presentation: the console summary *)
(* ===================================================================== *)

Section Console.
Context `{SetOrder}.

#[local] Abbreviation u := Str.of_ascii.

(** [f"{x:.0f}"]: the nearest integer, a tie going to the even one, in
    decimal digits. *)
Definition format_0f (x : Q) : str :=
  match Qnum x with
  | Zneg _ => u "-" ++ u (pretty (Float64.rne (- x)))
  | _ => u (pretty (Float64.rne x))
  end.

(** Line 261, negated: the match is printed. *)
Definition displayed (top_score : Q) (m : SearchResult.t) : bool :=
  negb (Float64.ltb (SearchResult.score m) NOISE_THRESHOLD
        || Float64.ltb (SearchResult.score m) (Float64.sub top_score 20)).

(** The matches of one entity that lines 259-263 print. *)
Definition shown_matches (matches : list SearchResult.t)
    : list SearchResult.t :=
  match matches with
  | [] => []
  | top :: _ =>
      if Float64.ltb (SearchResult.score top) NOISE_THRESHOLD then []
      else filter (fun m => displayed (SearchResult.score top) m = true)
                  matches
  end.

(** The f-string of line 263. *)
Definition match_line (m : SearchResult.t) : str :=
  u "  [" ++ format_0f (SearchResult.score m) ++ u "%] "
  ++ Skill.name (SearchResult.skill m).

(** What lines 254-263 print for one item of the Result Set. *)
Definition entity_block (item : str * list SearchResult.t) : list str :=
  match item.2 with
  | [] => []
  | top :: _ =>
      if Float64.ltb (SearchResult.score top) NOISE_THRESHOLD then []
      else ([NEWLINE] ++ u "Query: '" ++ item.1 ++ u "'")
           :: map match_line (shown_matches item.2)
  end.

(** Lines 248-268: the strings printed, one per call of [print]. *)
Definition print_console_summary (results : dict (list SearchResult.t))
    (extras : gset str) : list str :=
  [ [NEWLINE] ++ u "Search Results:"; repeat 61%N 60 ]
  ++ flat_map entity_block results
  ++ (if decide (extras = ∅) then []
      else ([NEWLINE] ++ u "(+) Bundle Recommendations:")
           :: map (fun name => u "  - " ++ name) (sorted_names extras)).

End Console.

(* ===================================================================== *)
(** ** 5. Main *)
(* ===================================================================== *)

(** The parsed command line (lines 273-278). *)
Record args := {
  input_source : str;
  top : Z;
  report : bool
}.

(** What [parser.parse_args()] of line 278 makes of the command line:
    the arguments; or, for [-h], the help text on standard output and
    [sys.exit(0)]; or, for a command line the parser of lines 273-276
    refuses, a message on standard error and [sys.exit(2)].  [argparse] is
    not part of the repository: its outcome is an input of the model. *)
Inductive parse_result :=
  | Parsed (a : args)
  | HelpExit (help : list str)
  | UsageExit.

(** What the script meets outside itself: the catalog and the bundle
    file, the file system seen through the input source, whether
    [open(out_path, 'w')] of line 306 succeeds (the write that follows is
    taken to succeed), and the two paths it prints.  Standard output is
    taken to accept every line printed. *)
Record world := {
  catalog_path : str;
  catalog_file : file_state;
  bundles_file : file_state;
  fs : str -> read_result;
  report_writable : bool;
  report_abspath : str
}.

(** How the process ends. *)
Inductive status :=
  | Returns
  | Exits (code : Z)
  | Raises.

(** What a run leaves behind: the strings printed, the content written to
    [SKILLS_REQUIRED.md] if any, and how it ended. *)
Record run := {
  stdout : list str;
  written : option str;
  ending : status
}.

Section Main.
Context `{Fuzz} `{SetOrder}.

#[local] Abbreviation u := Str.of_ascii.

(** Lines 280-309, once the arguments are parsed. *)
Definition main_parsed (w : world) (a : args) : run :=
  match load_catalog_skills (catalog_path w) (catalog_file w) with
  | (out, SysExit code) => Build_run out None (Exits code)
  | (out, Raised) => Build_run out None Raises
  | (out, Returned skills) =>
      match load_skill_bundles (bundles_file w) with
      | None => Build_run out None Raises
      | Some bundles =>
          match get_clean_input_text (fs w) (input_source a) with
          | None => Build_run out None Raises
          | Some raw_text =>
              let entities := extract_search_entities raw_text in
              match filter_valid_entities entities skills with
              | None => Build_run out None Raises
              | Some [] =>
                  Build_run
                    (out ++ [u "No valid technical terms found in input."])
                    None Returns
              | Some valid_entities =>
                  let out :=
                    out ++ [u "Analyzing "
                            ++ u (pretty (length valid_entities))
                            ++ u " valid entities..."] in
                  let results :=
                    search_skills valid_entities skills (top a) in
                  let extras := find_bundled_skills results bundles in
                  let out := out ++ print_console_summary results extras in
                  if report a then
                    let report :=
                      generate_report_content results extras skills in
                    if report_writable w then
                      Build_run
                        (out ++ [[NEWLINE]
                                 ++ u "[SUCCESS] Report generated: "
                                 ++ report_abspath w])
                        (Some report) Returns
                    else Build_run out None Raises
                  else Build_run out None Returns
              end
          end
      end
  end.

(** Lines 272-309. *)
Definition main (w : world) (cmdline : parse_result) : run :=
  match cmdline with
  | HelpExit help => Build_run help None (Exits 0)
  | UsageExit => Build_run [] None (Exits 2)
  | Parsed a => main_parsed w a
  end.

End Main.

(* ===================================================================== *)
(** ** Notions used in the statements *)
(* ===================================================================== *)

(** The rational a finite [spec_float] of the Standard Library denotes. *)
Definition SF2Q (x : SpecFloat.spec_float) : Q :=
  match x with
  | SpecFloat.S754_finite s m e =>
      ((if s then -1 else 1) * inject_Z (Z.pos m) * 2 ^ e)%Q
  | _ => 0%Q
  end.

(** Binary64 numbers in the Standard Library's representation: 100, 0.4,
    0.2, the successor of 37.5, 92.857142857142861, the smallest positive
    number, three times it, and 0.1. *)
Definition binary64_samples : list SpecFloat.spec_float :=
  map (fun me => SpecFloat.S754_finite false me.1 me.2)
      [ (7036874417766400%positive, -46); (7205759403792794%positive, -54);
        (7205759403792794%positive, -55); (5277655813324801%positive, -47);
        (6534240530783086%positive, -46); (1%positive, -1074);
        (3%positive, -1074); (7205759403792794%positive, -56) ].

(** What the script's delimiters do to one character. *)
Definition to_newline (x : N) : N :=
  if bool_decide (x ∈ [COMMA; SEMICOLON; HYPHEN]) then NEWLINE else x.

(** The weighting of line 152 on three component scores. *)
Definition weighted (name_score trigger_score text_score : Q) : Q :=
  (name_score ⊗ Float64.lit 0.4) ⊕ (trigger_score ⊗ Float64.lit 0.4)
  ⊕ (text_score ⊗ Float64.lit 0.2).

(** The scorer as section 4.2 of the specification words it: the
    normalization of the query is applied to the catalog fields as well. *)
Definition calculate_relevance_spec `{Fuzz} (query : str) (skill : Skill.t)
    : Q :=
  let q := default_process query in
  let name_score := partial_ratio q (default_process (Skill.name skill)) in
  let trigger_score :=
    token_set_ratio q (default_process (Skill.triggers skill)) in
  let text_score :=
    token_set_ratio q (default_process (Skill.full_text skill)) in
  (name_score ⊗ Float64.lit 0.4) ⊕ (trigger_score ⊗ Float64.lit 0.4)
  ⊕ (text_score ⊗ Float64.lit 0.2).

(** Two similarity functions to tell comparisons apart: one gives 100 to
    the pairs whose second string is [target] and 0 to all others, the
    other gives 0 throughout. *)
Definition tells (target : str) (a b : str) : Q :=
  if decide (b = target) then 100 else 0.

Definition never (a b : str) : Q := 0.

(** An entity is above the noise threshold when some skill scores it at
    least [NOISE_THRESHOLD]. *)
Definition above_noise `{Fuzz} (skills : list Skill.t) (entity : str) : bool :=
  existsb (fun s => Float64.leb NOISE_THRESHOLD (calculate_relevance entity s))
          skills.

(** The best score of line 160: [0] on an empty catalog, otherwise the
    largest score of the entity over the catalog. *)
Definition is_best `{Fuzz} (entity : str) (skills : list Skill.t) (best : Q)
    : Prop :=
  match skills with
  | [] => best = 0%Q
  | _ :: _ =>
      (exists s, s ∈ skills /\ best = calculate_relevance entity s)
      /\ forall s, s ∈ skills -> (calculate_relevance entity s <= best)%Q
  end.

(** The results of score [v], in the order of the list. *)
Definition with_score (v : Q) (l : list SearchResult.t) : list SearchResult.t :=
  filter (fun r => Qeq_bool (SearchResult.score r) v = true) l.

(** [a] may stand before [b] in a ranking: its score is not smaller. *)
Definition ranks_before (a b : SearchResult.t) : Prop :=
  (SearchResult.score b <= SearchResult.score a)%Q.

Section Rendering.

#[local] Abbreviation u := Str.of_ascii.

(** A catalog row as line 72 expects it. *)
Definition catalog_row (name description tags triggers : str) : str :=
  u "| `" ++ name ++ u "` | " ++ description ++ u " | " ++ tags ++ u " | "
  ++ triggers ++ u " |" ++ [NEWLINE].

(** A field of a catalog row: trimmed, and without the column separator. *)
Definition row_field (f : str) : Prop := (PIPE ∉ f) /\ Str.strip f = f.

(** The lines of a bundle in [BUNDLES.md]: the header, the lines of its
    description, one line per skill. *)
Definition bundle_header (name : str) : str := u "## " ++ name.
Definition bundle_skill_line (skill : str) : str := u "- `" ++ skill ++ u "`".

Record block := {
  block_name : str;
  block_text : list str;
  block_skills : list str
}.

Definition block_lines (b : block) : list str :=
  bundle_header (block_name b) :: block_text b
  ++ map bundle_skill_line (block_skills b).

(** The bundle [load_skill_bundles] builds from a block: every line of the
    description is followed by a space (line 108). *)
Definition block_bundle (b : block) : Bundle.t :=
  Bundle.mk (block_name b)
            (concat (map (fun line => line ++ [SPACE]) (block_text b)))
            (block_skills b).

(** A name a header can carry: trimmed, not empty, without the header
    mark inside. *)
Definition header_name (name : str) : Prop :=
  Str.strip name = name /\ name <> [] /\ Str.contains (u "## ") name = false.

(** A line of description: trimmed, not empty, starting neither a list
    item nor a header. *)
Definition text_line (line : str) : Prop :=
  Str.strip line = line /\ line <> []
  /\ Str.starts_with (u "-") line = false
  /\ Str.starts_with (u "#") line = false.

Definition wellformed_block (b : block) : Prop :=
  header_name (block_name b)
  /\ Forall text_line (block_text b)
  /\ Forall (fun skill => BACKTICK ∉ skill) (block_skills b).

(** What the loop of lines 98-108 keeps true. *)
Definition bundles_inv (state : dict Bundle.t * option str) : Prop :=
  NoDup (Dict.keys state.1)
  /\ Forall (fun item => Bundle.name item.2 = item.1) state.1
  /\ forall key, state.2 = Some key -> key ∈ Dict.keys state.1.

(** A markdown link: the label in brackets, the target in parentheses. *)
Definition markdown_link (label target : str) : str :=
  [LBRACKET] ++ label ++ [RBRACKET; LPAREN] ++ target ++ [RPAREN].

End Rendering.

(* ===================================================================== *)
(** ** A transcription of rapidfuzz *)
(* ===================================================================== *)

(** The algorithms of the three library functions, as rapidfuzz 3 documents
    and implements them with [processor=None], to evaluate the script on
    concrete inputs.  The transcription stands for the library on ASCII
    strings only.  Outside ASCII it differs: [default_process] here lowers
    [A]-[Z] alone and keeps every code point from 128 on as an
    alphanumeric character, unchanged, and the tokens are cut at the
    white space of [str.strip], which holds U+0085 and U+00A0, where the
    library has tables of its own.  The theorems on the script hold for
    every [Fuzz]; only the examples and counterexamples run this one, and
    all of them on ASCII strings. *)
Module RapidFuzz.

Local Open Scope Q_scope.

Definition is_alnum (c : N) : bool :=
  ((48 <=? c) && (c <=? 57) || (65 <=? c) && (c <=? 90)
   || (97 <=? c) && (c <=? 122) || (128 <=? c))%N.

Definition lower (c : N) : N :=
  if ((65 <=? c) && (c <=? 90))%N then (c + 32)%N else c.

(** [utils.default_process] on ASCII: every non-alphanumeric character
    becomes a space, letters are lowered, and the ends are trimmed. *)
Definition default_process (s : str) : str :=
  Str.strip (map (fun c => if is_alnum c then lower c else 32%N) s).

(** One row of the longest-common-subsequence table: [prev] is the row of
    the characters before [x], [left] the entry just computed. *)
Fixpoint lcs_row (x : N) (b : str) (prev : list nat) (left : nat)
    : list nat :=
  match b, prev with
  | y :: b', diag :: ((up :: _) as prev') =>
      let v := if N.eqb x y then S diag else Nat.max up left in
      v :: lcs_row x b' prev' v
  | _, _ => []
  end.

Definition lcs (a b : str) : nat :=
  List.last
    (fold_left (fun row x => O :: lcs_row x b row O) a
               (repeat O (S (length b))))
    O.

(** The Indel distance: insertions and deletions only. *)
Definition indel_distance (a b : str) : nat :=
  (length a + length b - 2 * lcs a b)%nat.

Definition of_nat (n : nat) : Q := inject_Z (Z.of_nat n).

(** [fuzz.ratio]: the normalized Indel similarity, times 100. *)
Definition ratio (a b : str) : Q :=
  let lensum := (length a + length b)%nat in
  let norm_dist :=
    match lensum with
    | O => 0
    | S _ => Float64.div (of_nat (indel_distance a b)) (of_nat lensum)
    end in
  Float64.mul (Float64.sub 1 norm_dist) 100.

Definition char_in (c : N) (s : str) : bool := existsb (N.eqb c) s.

Definition best (m : Q) (scores : list Q) : Q :=
  fold_left (fun m x => if Float64.ltb m x then x else m) scores m.

(** The windows of the longer string [s2] that [partial_ratio] compares
    with the shorter string [s1]: its prefixes shorter than [s1], its
    substrings as long as [s1], and its suffixes no longer than [s1]; a
    window is skipped when its boundary character does not occur in [s1]. *)
Definition windows (s1 s2 : str) : list str :=
  let len1 := length s1 in
  let len2 := length s2 in
  omap (fun i => c ← s2 !! (i - 1)%nat;
                 if char_in c s1 then Some (take i s2) else None)
       (seq 1 (len1 - 1))
  ++ omap (fun i => c ← s2 !! (i + len1 - 1)%nat;
                    if char_in c s1 then Some (take len1 (drop i s2)) else None)
          (seq 0 (len2 - len1))
  ++ omap (fun i => c ← s2 !! i;
                    if char_in c s1 then Some (drop i s2) else None)
          (seq (len2 - len1) len1).

Definition partial_ratio_impl (s1 s2 : str) : Q :=
  best 0 (map (ratio s1) (windows s1 s2)).

(** [fuzz.partial_ratio] *)
Definition partial_ratio (s1 s2 : str) : Q :=
  match s1, s2 with
  | [], [] => 100
  | _, _ =>
      let len1 := length s1 in
      let len2 := length s2 in
      let res :=
        if (len1 <=? len2)%nat then partial_ratio_impl s1 s2
        else partial_ratio_impl s2 s1 in
      if Qeq_bool res 100 then res
      else if (len1 =? len2)%nat then best res [partial_ratio_impl s2 s1]
      else res
  end.

(** The tokens of a string, on ASCII: the maximal runs of non-space
    characters; [cur] holds the run being read, reversed. *)
Fixpoint tokens_from (cur : str) (s : str) : list str :=
  match s with
  | [] => if Str.nonempty cur then [reverse cur] else []
  | c :: s' =>
      if Str.isspace c
      then (if Str.nonempty cur then reverse cur :: tokens_from [] s'
            else tokens_from [] s')
      else tokens_from (c :: cur) s'
  end.

(** The distinct tokens of a string, sorted. *)
Definition token_set (s : str) : list str :=
  merge_sort Str.le (remove_dups (tokens_from [] s)).

Definition norm_distance (dist lensum : nat) : Q :=
  match lensum with
  | O => 100
  | S _ =>
      Float64.sub 100
        (Float64.div (Float64.mul 100 (of_nat dist)) (of_nat lensum))
  end.

Definition space : str := [32%N].

(** [fuzz.token_set_ratio] *)
Definition token_set_ratio (s1 s2 : str) : Q :=
  let tokens_a := token_set s1 in
  let tokens_b := token_set s2 in
  match tokens_a, tokens_b with
  | [], _ | _, [] => 0
  | _, _ =>
      let intersect := filter (fun t => t ∈ tokens_b) tokens_a in
      let diff_ab := filter (fun t => t ∉ tokens_b) tokens_a in
      let diff_ba := filter (fun t => t ∉ tokens_a) tokens_b in
      if bool_decide (intersect <> [])
         && (bool_decide (diff_ab = []) || bool_decide (diff_ba = []))
      then 100
      else
        let diff_ab_joined := Str.join space diff_ab in
        let diff_ba_joined := Str.join space diff_ba in
        let ab_len := length diff_ab_joined in
        let ba_len := length diff_ba_joined in
        let sect_len := length (Str.join space intersect) in
        let sep := match sect_len with O => O | S _ => 1%nat end in
        let sect_ab_len := (sect_len + sep + ab_len)%nat in
        let sect_ba_len := (sect_len + sep + ba_len)%nat in
        let result :=
          norm_distance (indel_distance diff_ab_joined diff_ba_joined)
                        (sect_ab_len + sect_ba_len) in
        match sect_len with
        | O => result
        | S _ =>
            let sect_ab_ratio :=
              norm_distance (sep + ab_len) (sect_len + sect_ab_len) in
            let sect_ba_ratio :=
              norm_distance (sep + ba_len) (sect_len + sect_ba_len) in
            best result [sect_ab_ratio; sect_ba_ratio]
        end
  end.

End RapidFuzz.

#[local] Instance rapidfuzz : Fuzz := {|
  default_process := RapidFuzz.default_process;
  partial_ratio := RapidFuzz.partial_ratio;
  token_set_ratio := RapidFuzz.token_set_ratio
|}.

(** Two iteration orders: first occurrence first, and its reverse. *)
#[local] Program Instance first_seen : SetOrder := {|
  set_iter := remove_dups
|}.
Next Obligation. apply NoDup_remove_dups. Qed.
Next Obligation. intros l x. apply elem_of_remove_dups. Qed.

#[local] Program Instance last_seen : SetOrder := {|
  set_iter := fun l => reverse (remove_dups l)
|}.
Next Obligation.
  intros l. rewrite reverse_Permutation. apply NoDup_remove_dups.
Qed.
Next Obligation.
  intros l x. rewrite elem_of_reverse. apply elem_of_remove_dups.
Qed.

(* ===================================================================== *)
(** ** Example data *)
(* ===================================================================== *)

(** Catalog rows in the shape of [CATALOG.md], and texts to extract from. *)
Definition docker_compose : Skill.t :=
  catalog_skill (Str.of_ascii "docker-compose")
                (Str.of_ascii "Define multi-container apps")
                (Str.of_ascii "devops")
                (Str.of_ascii "docker, containers, compose").

Definition redis : Skill.t :=
  catalog_skill (Str.of_ascii "redis") (Str.of_ascii "In-memory data store")
                (Str.of_ascii "database") (Str.of_ascii "cache").

Definition docker : Skill.t :=
  catalog_skill (Str.of_ascii "docker")
                (Str.of_ascii "build and run containers")
                (Str.of_ascii "devops") (Str.of_ascii "docker containers").

Definition containers_bundle : Bundle.t :=
  Bundle.mk (Str.of_ascii "Containers") []
            [Str.of_ascii "docker"; Str.of_ascii "kubernetes-basics"].

(** "docker", a bullet glyph, "redis". *)
Definition bullet_text : str :=
  Str.of_ascii "docker " ++ [BULLET] ++ Str.of_ascii " redis".

(** The same with the three code points of [BULLET_LITERAL] for the glyph. *)
Definition mojibake_text : str :=
  Str.of_ascii "docker " ++ BULLET_LITERAL ++ Str.of_ascii " redis".

(* ===================================================================== *)
(** * Properties *)
(* ===================================================================== *)

(** ** Strings and entity extraction *)

Section StrFacts.

Lemma elem_of_list_map {A B} (f : A -> B) l y :
  y ∈ map f l <-> exists x, y = f x /\ x ∈ l.
Proof. apply (list_elem_of_fmap f). Qed.

Lemma replace_from_elem old new k s x :
  x ∈ Str.replace_from old new k s -> x ∈ s \/ x ∈ new.
Proof.
  revert k. induction s as [|c s IH]; intros k Hx; simpl in Hx.
  - by left.
  - destruct k as [|k].
    + destruct (Str.starts_with old (c :: s)).
      * apply elem_of_app in Hx as [Hx|Hx]; [by right|].
        apply IH in Hx as [Hx|Hx]; [left; by constructor | by right].
      * apply elem_of_cons in Hx as [->|Hx]; [left; by constructor|].
        apply IH in Hx as [Hx|Hx]; [left; by constructor | by right].
    + apply IH in Hx as [Hx|Hx]; [left; by constructor | by right].
Qed.

Lemma replace_elem old new s x :
  old <> [] -> x ∈ Str.replace old new s -> x ∈ s \/ x ∈ new.
Proof.
  destruct old as [|c old]; [done|]. intros _. apply replace_from_elem.
Qed.

Lemma replace_char_map c new s :
  Str.replace [c] new s = flat_map (fun x => if N.eqb c x then new else [x]) s.
Proof.
  unfold Str.replace. induction s as [|x s IH]; [done|].
  cbn [Str.replace_from Str.starts_with length flat_map].
  rewrite andb_true_r. destruct (N.eqb c x); simpl; by rewrite IH.
Qed.

Lemma replace_char_gone c new s : c ∉ new -> c ∉ Str.replace [c] new s.
Proof.
  intros Hnew. rewrite replace_char_map. induction s as [|x s IH]; simpl.
  - apply not_elem_of_nil.
  - rewrite elem_of_app. intros [Hx|Hx]; [|done].
    destruct (N.eqb_spec c x) as [->|Hne]; [done|].
    apply list_elem_of_singleton in Hx. done.
Qed.

Lemma split_elem sep s w x : w ∈ Str.split sep s -> x ∈ w -> x ∈ s /\ x <> sep.
Proof.
  revert w. induction s as [|c s IH]; intros w Hw Hx; simpl in Hw.
  - apply list_elem_of_singleton in Hw as ->. by apply elem_of_nil in Hx.
  - destruct (N.eqb_spec c sep) as [->|Hne].
    + apply elem_of_cons in Hw as [->|Hw]; [by apply elem_of_nil in Hx|].
      destruct (IH _ Hw Hx). split; [by constructor | done].
    + destruct (Str.split sep s) as [|w0 ws] eqn:E.
      * apply list_elem_of_singleton in Hw as ->.
        apply list_elem_of_singleton in Hx as ->. split; [by constructor|done].
      * apply elem_of_cons in Hw as [->|Hw].
        -- apply elem_of_cons in Hx as [->|Hx]; [split; [by constructor|done]|].
           destruct (IH w0 ltac:(by constructor) Hx). split; [by constructor|done].
        -- destruct (IH w ltac:(by constructor) Hx). split; [by constructor|done].
Qed.

Lemma lstrip_elem s x : x ∈ Str.lstrip s -> x ∈ s.
Proof.
  induction s as [|c s IH]; simpl; [done|].
  destruct (Str.isspace c); [|done]. intros. constructor. auto.
Qed.

Lemma strip_elem s x : x ∈ Str.strip s -> x ∈ s.
Proof.
  unfold Str.strip, Str.rstrip. rewrite elem_of_reverse. intros Hx.
  apply lstrip_elem in Hx. rewrite elem_of_reverse in Hx. by apply lstrip_elem.
Qed.

End StrFacts.

Section ExtractFacts.
Context `{SetOrder}.

Lemma normalize_delimiters_unfold text :
  normalize_delimiters text =
  Str.replace [HYPHEN] [NEWLINE]
    (Str.replace BULLET_LITERAL [NEWLINE]
       (Str.replace [SEMICOLON] [NEWLINE]
          (Str.replace [COMMA] [NEWLINE] text))).
Proof. reflexivity. Qed.

(** After the four replacements none of the one-character delimiters is
    left. *)
Lemma normalize_delimiters_clean text c :
  c ∈ [COMMA; SEMICOLON; HYPHEN] -> c ∉ normalize_delimiters text.
Proof.
  intros Hc. rewrite normalize_delimiters_unfold.
  assert (Hnl : c ∉ [NEWLINE]).
  { intros Hn. apply list_elem_of_singleton in Hn. subst c.
    repeat (apply elem_of_cons in Hc as [Hc|Hc]; [discriminate Hc|]).
    by apply elem_of_nil in Hc. }
  assert (keep : forall old s, old <> [] -> c ∉ s ->
                               c ∉ Str.replace old [NEWLINE] s).
  { intros old s Hold Hs Hx. apply replace_elem in Hx as [?|?]; done. }
  apply elem_of_cons in Hc as [->|Hc].
  { do 3 (apply keep; [done|]). by apply replace_char_gone. }
  apply elem_of_cons in Hc as [->|Hc].
  { do 2 (apply keep; [done|]). by apply replace_char_gone. }
  apply list_elem_of_singleton in Hc as ->. by apply replace_char_gone.
Qed.

Lemma entity_lines_elem text e :
  e ∈ entity_lines text ->
  exists line, line ∈ Str.split NEWLINE text /\ e = Str.strip line /\ e <> [].
Proof.
  unfold entity_lines. rewrite elem_of_list_map. intros (line & -> & Hl).
  apply list_elem_of_filter in Hl as [Hne Hl]. exists line.
  repeat split; [done|]. by destruct (Str.strip line).
Qed.

Lemma extract_search_entities_elem text e :
  e ∈ extract_search_entities text <->
  e ∈ entity_lines (normalize_delimiters text).
Proof. unfold extract_search_entities. apply set_iter_elem. Qed.

Lemma entity_chars text e x :
  e ∈ extract_search_entities text -> x ∈ e ->
  x ∈ normalize_delimiters text /\ x <> NEWLINE.
Proof.
  rewrite extract_search_entities_elem. intros He Hx.
  apply entity_lines_elem in He as (line & Hline & -> & _).
  apply strip_elem in Hx. eauto using split_elem.
Qed.

Lemma entity_has_no_delimiter text e :
  e ∈ extract_search_entities text ->
  (COMMA ∉ e) /\ (SEMICOLON ∉ e) /\ (HYPHEN ∉ e) /\ (NEWLINE ∉ e).
Proof.
  intros He.
  assert (clean : forall c, c ∈ [COMMA; SEMICOLON; HYPHEN] -> c ∉ e).
  { intros c Hc Hx. destruct (entity_chars _ _ _ He Hx) as [Hn _].
    by apply (normalize_delimiters_clean text c). }
  split; [|split; [|split]]; try solve [apply clean; repeat constructor].
  intros Hx. by destruct (entity_chars _ _ _ He Hx).
Qed.

(** C9: whatever the text, no entity returned by [extract_search_entities]
    holds a comma, a semicolon or a hyphen (they were replaced by line
    breaks before the split, and no entity holds a line break either); so
    a name with a hyphen in it, such as "docker-compose", is never one of
    the extracted entities. *)
Theorem entities_have_no_delimiter (text : str) :
  Forall (fun e => (COMMA ∉ e) /\ (SEMICOLON ∉ e) /\ (HYPHEN ∉ e)
                   /\ (NEWLINE ∉ e))
         (extract_search_entities text)
  /\ (forall name, HYPHEN ∈ name -> name ∉ extract_search_entities text)
  /\ (Str.of_ascii "docker-compose" ∉ extract_search_entities text).
Proof.
  assert (Hhyphen : forall name, HYPHEN ∈ name ->
                                 name ∉ extract_search_entities text).
  { intros name Hin He. apply (entity_has_no_delimiter text) in He. tauto. }
  split; [|split].
  - apply Forall_forall. intros e He. by apply (entity_has_no_delimiter text).
  - exact Hhyphen.
  - apply Hhyphen. vm_compute. do 6 apply list_elem_of_further.
    apply list_elem_of_here.
Qed.

End ExtractFacts.

Section ExtractSpec.
Context `{SetOrder}.

(** A set of one element is iterated in one way only. *)
Lemma set_iter_singleton x : set_iter [x] = [x].
Proof.
  pose proof (set_iter_NoDup [x]) as Hnd.
  pose proof (set_iter_elem [x]) as Hel.
  destruct (set_iter [x]) as [|y l].
  - exfalso. apply (elem_of_nil x), Hel. by constructor.
  - assert (y = x) as ->.
    { apply list_elem_of_singleton, Hel. by constructor. }
    destruct l as [|z l]; [done|].
    assert (z = x) as ->.
    { apply list_elem_of_singleton, Hel. do 2 constructor. }
    apply NoDup_cons in Hnd as [Hnd _]. exfalso. apply Hnd. by constructor.
Qed.

Lemma replace_char_fmap c s :
  Str.replace [c] [NEWLINE] s = map (fun x => if N.eqb c x then NEWLINE else x) s.
Proof.
  rewrite replace_char_map. induction s as [|x s IH]; [done|].
  simpl. rewrite IH. by destruct (N.eqb c x).
Qed.

Lemma replace_absent old new s c :
  old !! 0%nat = Some c -> c ∉ s -> Str.replace old new s = s.
Proof.
  destruct old as [|c0 old]; [done|]. intros [= ->] Hs. unfold Str.replace.
  induction s as [|x s IH]; [done|].
  apply not_elem_of_cons in Hs as [Hx Hs].
  cbn [Str.replace_from Str.starts_with].
  destruct (N.eqb_spec c x) as [->|_]; [done|]. simpl. by rewrite IH.
Qed.

Lemma normalize_delimiters_map text :
  226%N ∉ text -> normalize_delimiters text = map to_newline text.
Proof.
  intros Habs. rewrite normalize_delimiters_unfold.
  rewrite (replace_char_fmap COMMA), (replace_char_fmap SEMICOLON).
  rewrite (replace_absent BULLET_LITERAL _ _ 226%N); [|done|].
  - rewrite (replace_char_fmap HYPHEN), !map_map. apply map_ext. intros x.
    unfold to_newline. case_bool_decide as Hx.
    + repeat (apply elem_of_cons in Hx as [->|Hx]; [done|]).
      by apply elem_of_nil in Hx.
    + destruct (N.eqb_spec COMMA x) as [<-|?];
        [exfalso; apply Hx; repeat constructor|].
      destruct (N.eqb_spec SEMICOLON x) as [<-|?];
        [exfalso; apply Hx; repeat constructor|].
      destruct (N.eqb_spec HYPHEN x) as [<-|?];
        [exfalso; apply Hx; repeat constructor|done].
  - intros (x & Hx & (y & -> & Hy)%elem_of_list_map)%elem_of_list_map.
    destruct (N.eqb SEMICOLON _); [done|].
    destruct (N.eqb COMMA y); [done|]. by subst y.
Qed.

Lemma split_where_ext P Q s :
  (forall c, c ∈ s -> P c = Q c) -> split_where P s = split_where Q s.
Proof.
  induction s as [|c s IH]; intros HPQ; [done|]. simpl.
  rewrite <- (HPQ c) by constructor.
  rewrite IH; [done|]. intros. apply HPQ. by constructor.
Qed.

Lemma split_where_clean P s w x : w ∈ split_where P s -> x ∈ w -> P x = false.
Proof.
  revert w. induction s as [|c s IH]; intros w Hw Hx; simpl in Hw.
  - apply list_elem_of_singleton in Hw as ->. by apply elem_of_nil in Hx.
  - destruct (P c) eqn:Pc.
    + apply elem_of_cons in Hw as [->|Hw]; [by apply elem_of_nil in Hx|eauto].
    + destruct (split_where P s) as [|w0 ws] eqn:E.
      * apply list_elem_of_singleton in Hw as ->.
        by apply list_elem_of_singleton in Hx as ->.
      * apply elem_of_cons in Hw as [->|Hw].
        -- apply elem_of_cons in Hx as [->|Hx]; [done|].
           apply (IH w0); [by constructor|done].
        -- apply (IH w); [by constructor|done].
Qed.

Lemma split_map sep g s :
  Str.split sep (map g s) =
  map (map g) (split_where (fun x => N.eqb (g x) sep) s).
Proof.
  induction s as [|c s IH]; [done|]. simpl. rewrite IH.
  destruct (N.eqb (g c) sep); [done|].
  by destruct (split_where _ s).
Qed.

Lemma split_normalized text :
  226%N ∉ text -> BULLET ∉ text ->
  Str.split NEWLINE (normalize_delimiters text) =
  split_where (fun c => bool_decide (c ∈ SPEC_DELIMITERS)) text.
Proof.
  intros Habs Hbul. rewrite normalize_delimiters_map, split_map by done.
  rewrite (split_where_ext _ (fun c => bool_decide (c ∈ SPEC_DELIMITERS))).
  - set (P := fun c => bool_decide (c ∈ SPEC_DELIMITERS)).
    rewrite <- (map_id (split_where P text)) at 2.
    apply map_ext_in. intros w Hw%list_elem_of_In.
    rewrite <- (map_id w) at 2. apply map_ext_in. intros x Hx%list_elem_of_In.
    pose proof (split_where_clean P _ _ _ Hw Hx) as Hc.
    unfold P in Hc. apply bool_decide_eq_false in Hc.
    unfold to_newline. case_bool_decide as Hd; [|done].
    exfalso. apply Hc. unfold SPEC_DELIMITERS.
    repeat (apply elem_of_cons in Hd as [->|Hd]; [repeat constructor|]).
    by apply elem_of_nil in Hd.
  - intros c Hc. unfold to_newline, SPEC_DELIMITERS.
    destruct (N.eqb_spec (if bool_decide (c ∈ [COMMA; SEMICOLON; HYPHEN])
                          then NEWLINE else c) NEWLINE) as [He|Hne];
      symmetry; [apply bool_decide_eq_true | apply bool_decide_eq_false].
    + case_bool_decide as Hd.
      * repeat (apply elem_of_cons in Hd as [->|Hd]; [repeat constructor|]).
        by apply elem_of_nil in Hd.
      * subst c. repeat constructor.
    + intros Hd. case_bool_decide as Hd'; [done|].
      apply elem_of_cons in Hd as [->|Hd]; [apply Hd'; repeat constructor|].
      apply elem_of_cons in Hd as [->|Hd]; [apply Hd'; repeat constructor|].
      apply elem_of_cons in Hd as [->|Hd]; [done|].
      apply elem_of_cons in Hd as [->|Hd]; [apply Hd'; repeat constructor|].
      apply list_elem_of_singleton in Hd. done.
Qed.

Theorem extract_agrees_with_spec text :
  226%N ∉ text -> BULLET ∉ text ->
  list_to_set (extract_search_entities text) = extract_search_entities_spec text.
Proof.
  intros Habs Hbul. apply set_eq. intros e.
  unfold extract_search_entities_spec.
  rewrite !elem_of_list_to_set, extract_search_entities_elem.
  unfold entity_lines. rewrite split_normalized by done.
  rewrite list_elem_of_filter, !elem_of_list_map. split.
  - intros (line & -> & [Hne Hl]%list_elem_of_filter). eauto.
  - intros [Hne (line & -> & Hl)]. exists line. split; [done|].
    by apply list_elem_of_filter.
Qed.

End ExtractSpec.

(** ** Binary64 rounding *)

Section Float64Facts.
Import Float64.
Local Open Scope Q_scope.

Lemma pow2_pos k : 0 < 2 ^ k.
Proof. by apply Qpower_0_lt. Qed.

Lemma pow2_add a b : 2 ^ (a + b) == 2 ^ a * 2 ^ b.
Proof. by apply Qpower_plus. Qed.

Lemma pow2_le a b : (a <= b)%Z -> 2 ^ a <= 2 ^ b.
Proof. intros. by apply Qpower_le_compat_l. Qed.

Lemma pow2_Z n : (0 <= n)%Z -> 2 ^ n == inject_Z (2 ^ n).
Proof. intros. by rewrite Zpower_Qpower. Qed.

Lemma ilog2_spec x : 0 < x -> 2 ^ ilog2 x <= x /\ x < 2 ^ (ilog2 x + 1).
Proof.
  intros Hx. destruct x as [n d]. unfold ilog2. cbn [Qnum Qden].
  assert (Hn : (0 < n)%Z).
  { unfold Qlt in Hx. simpl in Hx. lia. }
  set (a := Z.log2 n). set (b := Z.log2 (Z.pos d)).
  destruct (Z.log2_spec n Hn) as [Ha1 Ha2]. fold a in Ha1, Ha2.
  destruct (Z.log2_spec (Z.pos d) ltac:(done)) as [Hb1 Hb2]. fold b in Hb1, Hb2.
  assert (Ha0 : (0 <= a)%Z) by apply Z.log2_nonneg.
  assert (Hb0 : (0 <= b)%Z) by apply Z.log2_nonneg.
  assert (Hd : n # d == inject_Z n / inject_Z (Z.pos d)) by apply Qmake_Qdiv.
  assert (Hdpos : 0 < inject_Z (Z.pos d)) by done.
  (* 2^(a-b-1) < n/d < 2^(a-b+1) *)
  assert (Hup : n # d < 2 ^ (a - b + 1)).
  { rewrite Hd. apply Qlt_shift_div_r; [done|].
    apply Qlt_le_trans with (2 ^ (a + 1)).
    - rewrite pow2_Z by lia. rewrite <- Zlt_Qlt. lia.
    - replace (a + 1)%Z with ((a - b + 1) + b)%Z by lia. rewrite pow2_add.
      apply Qmult_le_l; [apply pow2_pos|].
      rewrite pow2_Z by lia. rewrite <- Zle_Qle. lia. }
  assert (Hlo : 2 ^ (a - b - 1) <= n # d).
  { rewrite Hd. apply Qle_shift_div_l; [done|].
    apply Qle_trans with (2 ^ a).
    - replace a with ((a - b - 1) + (b + 1))%Z at 2 by lia. rewrite pow2_add.
      apply Qmult_le_l; [apply pow2_pos|].
      rewrite pow2_Z by lia. rewrite <- Zle_Qle. lia.
    - rewrite pow2_Z by lia. rewrite <- Zle_Qle. lia. }
  destruct (Qle_bool (2 ^ (a - b)) (n # d)) eqn:E.
  - apply Qle_bool_iff in E. done.
  - split; [done|]. replace (a - b - 1 + 1)%Z with (a - b)%Z by lia.
    apply Qnot_le_lt. intros Hle. apply Qle_bool_iff in Hle. congruence.
Qed.

Lemma ilog2_mono x y : 0 < x -> x <= y -> (ilog2 x <= ilog2 y)%Z.
Proof.
  intros Hx Hxy.
  destruct (ilog2_spec x Hx) as [Hx1 _].
  destruct (ilog2_spec y) as [_ Hy2]; [by eapply Qlt_le_trans|].
  destruct (Z_le_gt_dec (ilog2 x) (ilog2 y)) as [|Hgt]; [done|]. exfalso.
  assert (2 ^ (ilog2 y + 1) <= 2 ^ ilog2 x) by (apply pow2_le; lia).
  apply (Qlt_irrefl y). eapply Qlt_le_trans; [apply Hy2|].
  eapply Qle_trans; [eassumption|]. by eapply Qle_trans.
Qed.

Lemma rne_cases x : rne x = Qfloor x \/ rne x = (Qfloor x + 1)%Z.
Proof.
  unfold rne. destruct (Qcompare _ _); auto. destruct (Z.even _); auto.
Qed.

Lemma rne_lower x z : inject_Z z <= x -> (z <= rne x)%Z.
Proof.
  intros Hz. apply Qfloor_resp_le in Hz. rewrite Qfloor_Z in Hz.
  destruct (rne_cases x) as [-> | ->]; lia.
Qed.

Lemma rne_upper x z : x <= inject_Z z -> (rne x <= z)%Z.
Proof.
  intros Hz. pose proof (Qfloor_le x) as Hf.
  assert (Hfz : (Qfloor x <= z)%Z).
  { rewrite Zle_Qle. by eapply Qle_trans. }
  unfold rne.
  destruct (Z.eq_dec (Qfloor x) z) as [Heq|Hne].
  - assert (Hx : x - inject_Z (Qfloor x) <= 0).
    { rewrite Heq. lra. }
    destruct (Qcompare_spec (x - inject_Z (Qfloor x)) (1 # 2)) as [E|E|E].
    + rewrite E in Hx. by apply Qle_bool_iff in Hx.
    + lia.
    + exfalso. apply (Qlt_irrefl (1 # 2)). eapply Qlt_le_trans; [apply E|].
      eapply Qle_trans; [apply Hx|done].
  - destruct (Qcompare _ _); [destruct (Z.even _)| |]; lia.
Qed.

Lemma rne_mono x y : x <= y -> (rne x <= rne y)%Z.
Proof.
  intros Hxy. pose proof (Qfloor_resp_le _ _ Hxy) as Hf.
  destruct (Z.eq_dec (Qfloor x) (Qfloor y)) as [Heq|Hne].
  - unfold rne. rewrite <- Heq.
    assert (Hfrac : x - inject_Z (Qfloor x) <= y - inject_Z (Qfloor x)) by lra.
    set (fx := x - inject_Z (Qfloor x)) in *.
    set (fy := y - inject_Z (Qfloor x)) in *.
    destruct (Qcompare_spec fx (1 # 2)) as [Ex|Ex|Ex];
      destruct (Qcompare_spec fy (1 # 2)) as [Ey|Ey|Ey];
      try (destruct (Z.even (Qfloor x))); try lia; exfalso; lra.
  - destruct (rne_cases x) as [-> | ->].
    + apply Z.le_trans with (Qfloor y); [done|]. apply rne_lower, Qfloor_le.
    + apply Z.le_trans with (Qfloor y); [lia|]. apply rne_lower, Qfloor_le.
Qed.

Lemma ulp_exp_mono x y : 0 < x -> x <= y -> (ulp_exp x <= ulp_exp y)%Z.
Proof.
  intros Hx Hxy. unfold ulp_exp. pose proof (ilog2_mono x y Hx Hxy). lia.
Qed.

Lemma scale_le x y e : x <= y -> x / 2 ^ e <= y / 2 ^ e.
Proof.
  intros. apply Qmult_le_compat_r; [done|].
  apply Qlt_le_weak, Qinv_lt_0_compat, pow2_pos.
Qed.

Lemma pow2_quot a b : 2 ^ a / 2 ^ b == 2 ^ (a - b).
Proof.
  replace a with ((a - b) + b)%Z at 1 by lia. rewrite pow2_add.
  field. apply Qnot_eq_sym, Qlt_not_eq, pow2_pos.
Qed.

Lemma round_pos_nonneg x : 0 <= x -> 0 <= round_pos x.
Proof.
  intros Hx. unfold round_pos. apply Qmult_le_0_compat.
  - change 0 with (inject_Z 0). rewrite <- Zle_Qle. apply rne_lower.
    apply Qle_shift_div_l; [apply pow2_pos|].
    change (inject_Z 0) with 0. by rewrite Qmult_0_l.
  - apply Qlt_le_weak, pow2_pos.
Qed.

Lemma round_pos_mono x y : 0 < x -> x <= y -> round_pos x <= round_pos y.
Proof.
  intros Hx Hxy. assert (Hy : 0 < y) by (by eapply Qlt_le_trans).
  pose proof (ulp_exp_mono x y Hx Hxy) as He. unfold round_pos.
  destruct (Z.eq_dec (ulp_exp x) (ulp_exp y)) as [Heq|Hne].
  - rewrite Heq. apply Qmult_le_compat_r; [|apply Qlt_le_weak, pow2_pos].
    rewrite <- Zle_Qle. by apply rne_mono, scale_le.
  - set (ex := ulp_exp x) in *. set (ey := ulp_exp y) in *.
    set (k := (ey + 52)%Z).
    assert (Hk : ilog2 y = k /\ (ilog2 x < k)%Z).
    { unfold k, ex, ey, ulp_exp in *. lia. }
    destruct Hk as [Hky Hkx].
    destruct (ilog2_spec x Hx) as [_ Hx2].
    destruct (ilog2_spec y Hy) as [Hy1 _]. rewrite Hky in Hy1.
    apply Qle_trans with (2 ^ k).
    + (* the rounding of x stops at the power of two above it *)
      assert (Hxk : x <= 2 ^ k).
      { apply Qlt_le_weak. eapply Qlt_le_trans; [apply Hx2|].
        apply pow2_le. lia. }
      assert (Hr : (rne (x / 2 ^ ex) <= 2 ^ (k - ex))%Z).
      { apply rne_upper. rewrite <- pow2_Z by (unfold k; lia).
        rewrite <- pow2_quot. by apply scale_le. }
      apply Qle_trans with (inject_Z (2 ^ (k - ex)) * 2 ^ ex).
      * apply Qmult_le_compat_r; [|apply Qlt_le_weak, pow2_pos].
        by rewrite <- Zle_Qle.
      * rewrite <- pow2_Z by (unfold k; lia). rewrite <- pow2_add.
        apply pow2_le. lia.
    + (* the rounding of y stays above the power of two below it *)
      assert (Hr : (2 ^ 52 <= rne (y / 2 ^ ey))%Z).
      { apply rne_lower. rewrite <- pow2_Z by lia.
        replace 52%Z with (k - ey)%Z by (unfold k; lia).
        rewrite <- pow2_quot. by apply scale_le. }
      apply Qle_trans with (inject_Z (2 ^ 52) * 2 ^ ey).
      * rewrite <- pow2_Z by lia. rewrite <- pow2_add.
        apply pow2_le. unfold k. lia.
      * apply Qmult_le_compat_r; [|apply Qlt_le_weak, pow2_pos].
        by rewrite <- Zle_Qle.
Qed.

Lemma round64_pos x : 0 < x -> round64 x = round_pos x.
Proof.
  destruct x as [[|n|n] d]; intros Hx; try done.
Qed.

Lemma round64_zero x : x == 0 -> round64 x = 0.
Proof.
  destruct x as [[|n|n] d]; intros Hx; try done.
Qed.

(** Rounding keeps the sign of a non-negative number. *)
Lemma round64_nonneg x : 0 <= x -> 0 <= round64 x.
Proof.
  intros Hx. destruct (Qlt_le_dec 0 x) as [Hpos|Hle].
  - rewrite round64_pos by done. by apply round_pos_nonneg.
  - rewrite round64_zero; [done|]. lra.
Qed.

(** Rounding to nearest is monotone. *)
Lemma round64_mono x y : 0 <= x -> x <= y -> round64 x <= round64 y.
Proof.
  intros Hx Hxy. destruct (Qlt_le_dec 0 x) as [Hpos|Hle].
  - rewrite !round64_pos; [by apply round_pos_mono| |done].
    by eapply Qlt_le_trans.
  - rewrite (round64_zero x) by lra. apply round64_nonneg. lra.
Qed.

Lemma mul_mono x y c : 0 <= x -> x <= y -> 0 <= c -> x ⊗ c <= y ⊗ c.
Proof.
  intros. apply round64_mono.
  - by apply Qmult_le_0_compat.
  - by apply Qmult_le_compat_r.
Qed.

Lemma add_mono x x' y y' :
  0 <= x -> 0 <= y -> x <= x' -> y <= y' -> x ⊕ y <= x' ⊕ y'.
Proof. intros. apply round64_mono; lra. Qed.

Lemma mul_nonneg x c : 0 <= x -> 0 <= c -> 0 <= x ⊗ c.
Proof. intros. by apply round64_nonneg, Qmult_le_0_compat. Qed.

Lemma add_nonneg x y : 0 <= x -> 0 <= y -> 0 <= x ⊕ y.
Proof. intros. apply round64_nonneg. lra. Qed.

(** The nearest integer is within one half. *)
Lemma rne_error z : - (1 # 2) <= inject_Z (rne z) - z <= 1 # 2.
Proof.
  pose proof (Qfloor_le z) as Hlo. pose proof (Qlt_floor z) as Hhi.
  rewrite inject_Z_plus in Hhi. change (inject_Z 1) with 1 in Hhi.
  assert (Hup : inject_Z (Qfloor z + 1) == inject_Z (Qfloor z) + 1).
  { by rewrite inject_Z_plus. }
  unfold rne.
  destruct (Qcompare_spec (z - inject_Z (Qfloor z)) (1 # 2)) as [E|E|E].
  - destruct (Z.even _); [|rewrite Hup]; lra.
  - lra.
  - rewrite Hup. lra.
Qed.

(** Below 128 a rounding moves a number by at most [2^-47]. *)
Lemma round64_error v :
  0 <= v -> v < 128 ->
  - (1 # 140737488355328) <= round64 v - v <= 1 # 140737488355328.
Proof.
  intros Hv Hlt. destruct (Qlt_le_dec 0 v) as [Hpos|Hle].
  2:{ rewrite round64_zero by lra. lra. }
  rewrite round64_pos by done. unfold round_pos.
  set (e := ulp_exp v).
  assert (He : (e <= -46)%Z).
  { destruct (ilog2_spec v Hpos) as [Hlo _].
    destruct (Z_le_gt_dec (ilog2 v) 6) as [?|Hgt]; [unfold e, ulp_exp; lia|].
    exfalso. assert (2 ^ 7 <= 2 ^ ilog2 v) by (apply pow2_le; lia).
    change (2 ^ 7) with 128 in *. lra. }
  pose proof (pow2_pos e) as Hp.
  assert (Hle : 2 ^ e <= 1 # 70368744177664).
  { change (1 # 70368744177664) with (2 ^ (-46)). by apply pow2_le. }
  pose proof (rne_error (v / 2 ^ e)) as [H1 H2].
  assert (Hv' : v == v / 2 ^ e * 2 ^ e) by (field; lra).
  set (r := inject_Z (rne (v / 2 ^ e))) in *. set (w := v / 2 ^ e) in *.
  set (p := 2 ^ e) in *.
  assert (Hd : r * p - v == (r - w) * p) by (rewrite Hv' at 1; ring).
  rewrite Hd. split.
  - apply Qle_trans with (- (1 # 2) * p); [nra|]. apply Qmult_le_compat_r; lra.
  - apply Qle_trans with ((1 # 2) * p); [|nra]. apply Qmult_le_compat_r; lra.
Qed.

(** On the samples, [round64] after the exact operation is the operation
    of the Standard Library's IEEE-754 specification ([SpecFloat], with 53
    bits of precision and largest exponent 1024), subnormal results
    included. *)
Example round64_agrees_with_SpecFloat :
  Forall (fun x =>
    Forall (fun y =>
      (SF2Q (SpecFloat.SFmul 53 1024 x y) == Float64.mul (SF2Q x) (SF2Q y))%Q
      /\ (SF2Q (SpecFloat.SFadd 53 1024 x y)
          == Float64.add (SF2Q x) (SF2Q y))%Q
      /\ (SF2Q (SpecFloat.SFdiv 53 1024 y x)
          == Float64.div (SF2Q y) (SF2Q x))%Q)
      binary64_samples)
    (take 5 binary64_samples).
Proof.
  repeat (constructor; [repeat (constructor; [by vm_compute|])|]);
    constructor.
Qed.

End Float64Facts.

(** ** The relevance score *)

Section Relevance.
Import Float64.
Local Open Scope Q_scope.

Lemma lit_0_4 : lit 0.4 = 7205759403792794 # 18014398509481984.
Proof. vm_compute. reflexivity. Qed.

Lemma lit_0_2 : lit 0.2 = 7205759403792794 # 36028797018963968.
Proof. vm_compute. reflexivity. Qed.

Lemma weighted_mono n t x n' t' x' :
  0 <= n <= n' -> 0 <= t <= t' -> 0 <= x <= x' ->
  weighted n t x <= weighted n' t' x'.
Proof.
  intros [Hn Hn'] [Ht Ht'] [Hx Hx']. unfold weighted.
  assert (H4 : 0 <= lit 0.4) by (rewrite lit_0_4; done).
  assert (H2 : 0 <= lit 0.2) by (rewrite lit_0_2; done).
  apply add_mono.
  - apply add_nonneg; by apply mul_nonneg.
  - by apply mul_nonneg.
  - apply add_mono; try (by apply mul_nonneg); by apply mul_mono.
  - by apply mul_mono.
Qed.

Lemma weighted_nonneg n t x : 0 <= n -> 0 <= t -> 0 <= x -> 0 <= weighted n t x.
Proof.
  intros. unfold weighted.
  assert (H4 : 0 <= lit 0.4) by (rewrite lit_0_4; done).
  assert (H2 : 0 <= lit 0.2) by (rewrite lit_0_2; done).
  apply add_nonneg; [apply add_nonneg|]; by apply mul_nonneg.
Qed.

Lemma weighted_100 : weighted 100 100 100 == 100.
Proof. vm_compute. reflexivity. Qed.

Lemma weighted_range n t x :
  0 <= n <= 100 -> 0 <= t <= 100 -> 0 <= x <= 100 ->
  0 <= weighted n t x <= 100.
Proof.
  intros Hn Ht Hx. split.
  - apply weighted_nonneg; tauto.
  - rewrite <- weighted_100. by apply weighted_mono.
Qed.

(** The float result is within [10^-13] of the exact weighted sum. *)
Lemma weighted_error n t x :
  0 <= n <= 100 -> 0 <= t <= 100 -> 0 <= x <= 100 ->
  Qabs (weighted n t x - (0.4 * n + 0.4 * t + 0.2 * x)) <= 1 # 10000000000000.
Proof.
  intros [Hn Hn'] [Ht Ht'] [Hx Hx']. unfold weighted, mul, add.
  rewrite lit_0_4, lit_0_2.
  pose proof (round64_error (n * (7205759403792794 # 18014398509481984))) as Ea.
  pose proof (round64_nonneg (n * (7205759403792794 # 18014398509481984))) as Pa.
  pose proof (round64_error (t * (7205759403792794 # 18014398509481984))) as Eb.
  pose proof (round64_nonneg (t * (7205759403792794 # 18014398509481984))) as Pb.
  pose proof (round64_error (x * (7205759403792794 # 36028797018963968))) as Ec.
  pose proof (round64_nonneg (x * (7205759403792794 # 36028797018963968))) as Pc.
  generalize dependent (round64 (n * (7205759403792794 # 18014398509481984))).
  intros a Ea Pa.
  generalize dependent (round64 (t * (7205759403792794 # 18014398509481984))).
  intros b Eb Pb.
  generalize dependent (round64 (x * (7205759403792794 # 36028797018963968))).
  intros c Ec Pc.
  destruct Ea as [Ea1 Ea2]; [lra..|]. specialize (Pa ltac:(lra)).
  destruct Eb as [Eb1 Eb2]; [lra..|]. specialize (Pb ltac:(lra)).
  destruct Ec as [Ec1 Ec2]; [lra..|]. specialize (Pc ltac:(lra)).
  destruct (round64_error (a + b)) as [Es1 Es2]; [lra..|].
  pose proof (round64_nonneg (a + b) ltac:(lra)) as Ps1.
  generalize dependent (round64 (a + b)). intros s1 Es1 Es2 Ps1.
  destruct (round64_error (s1 + c)) as [Es3 Es4]; [lra..|].
  generalize dependent (round64 (s1 + c)). intros s Es3 Es4.
  change 0.4 with (4 # 10). change 0.2 with (2 # 10).
  apply Qabs_Qle_condition. split; lra.
Qed.

Context `{Fuzz}.

Lemma calculate_relevance_weighted query skill :
  calculate_relevance query skill =
  weighted (partial_ratio (default_process query) (Skill.name skill))
           (token_set_ratio (default_process query) (Skill.triggers skill))
           (token_set_ratio (default_process query) (Skill.full_text skill)).
Proof. reflexivity. Qed.

(** C1: for every query and skill whose three component similarities lie
    in [0, 100], the score is the float expression of line 152, that is
    [0.4] times the name similarity plus [0.4] times the trigger similarity
    plus [0.2] times the full-text similarity in binary64 arithmetic; it is
    within [10^-13] of that weighted sum taken exactly, and it lies in
    [0, 100]. *)
Theorem calculate_relevance_weighted_range (query : str) (skill : Skill.t) :
  let q := default_process query in
  let name_score := partial_ratio q (Skill.name skill) in
  let trigger_score := token_set_ratio q (Skill.triggers skill) in
  let text_score := token_set_ratio q (Skill.full_text skill) in
  0 <= name_score <= 100 ->
  0 <= trigger_score <= 100 ->
  0 <= text_score <= 100 ->
  calculate_relevance query skill =
    (name_score ⊗ lit 0.4) ⊕ (trigger_score ⊗ lit 0.4) ⊕ (text_score ⊗ lit 0.2)
  /\ Qabs (calculate_relevance query skill
           - (0.4 * name_score + 0.4 * trigger_score + 0.2 * text_score))
     <= 1 # 10000000000000
  /\ 0 <= calculate_relevance query skill <= 100.
Proof.
  intros q name_score trigger_score text_score Hn Ht Hx.
  rewrite calculate_relevance_weighted. fold q name_score trigger_score text_score.
  split; [reflexivity|]. split.
  - by apply weighted_error.
  - by apply weighted_range.
Qed.

End Relevance.

(** ** Noise filtering *)

Section Noise.
Context `{Fuzz}.
Local Open Scope Q_scope.

Lemma ltb_lt x y : Float64.ltb x y = true <-> x < y.
Proof.
  unfold Float64.ltb. rewrite negb_true_iff.
  destruct (Qle_bool y x) eqn:E.
  - apply Qle_bool_iff in E. split; [done|]. intros. lra.
  - split; [|done]. intros _. apply Qnot_le_lt. intros Hle.
    apply Qle_bool_iff in Hle. congruence.
Qed.

Lemma leb_le x y : Float64.leb x y = true <-> x <= y.
Proof. apply Qle_bool_iff. Qed.

(** The running maximum bounds every item and is one of them. *)
Lemma max_from_spec m l :
  let r := max_from m l in
  m <= r /\ (forall x, x ∈ l -> x <= r) /\ (r = m \/ r ∈ l).
Proof.
  revert m. induction l as [|x l IH]; intros m; simpl.
  - split; [lra|]. split; [|by left]. intros x Hx. by apply elem_of_nil in Hx.
  - destruct (IH (if Float64.ltb m x then x else m)) as (H1 & H2 & H3).
    destruct (Float64.ltb m x) eqn:E.
    + apply ltb_lt in E. split; [lra|]. split.
      * intros y [->|Hy]%elem_of_cons; [done|auto].
      * right. destruct H3 as [->|H3]; [by constructor|by constructor].
    + assert (x <= m).
      { apply Qnot_lt_le. intros Hlt. apply ltb_lt in Hlt. congruence. }
      split; [done|]. split.
      * intros y [->|Hy]%elem_of_cons; [lra|auto].
      * destruct H3 as [->|H3]; [by left|right; by constructor].
Qed.

Lemma max_score_of_best entity skills :
  exists best, max_score_of entity skills = Some best
               /\ is_best entity skills best.
Proof.
  destruct skills as [|s0 skills]; [by exists 0|].
  cbn [max_score_of py_max map].
  eexists. split; [reflexivity|].
  destruct (max_from_spec (calculate_relevance entity s0)
              (map (calculate_relevance entity) skills)) as (H1 & H2 & H3).
  split.
  - destruct H3 as [->|H3].
    + exists s0. split; [by constructor|done].
    + apply elem_of_list_map in H3 as (s & E & Hs). exists s.
      split; [by constructor|done].
  - intros s [->|Hs]%elem_of_cons; [done|].
    apply H2, elem_of_list_map. eauto.
Qed.

Lemma above_noise_best entity skills best :
  is_best entity skills best ->
  above_noise skills entity = true <-> NOISE_THRESHOLD <= best.
Proof.
  unfold above_noise, is_best. rewrite existsb_exists.
  destruct skills as [|s0 skills].
  - intros ->. split; [by intros (s & [] & _)|]. intros Hle.
    by apply leb_le in Hle.
  - intros [(s & Hs & ->) Hmax]. split.
    + intros (s' & Hs' & Hle). apply leb_le in Hle.
      apply list_elem_of_In, Hmax in Hs'. lra.
    + intros Hle. exists s. split; [by apply list_elem_of_In|by apply leb_le].
Qed.

Lemma filter_valid_loop_filter entities skills valid :
  filter_valid_loop entities skills valid =
  Some (valid ++ filter (fun e => above_noise skills e = true) entities).
Proof.
  revert valid. induction entities as [|e entities IH]; intros valid.
  - simpl. by rewrite app_nil_r.
  - cbn [filter_valid_loop].
    destruct (max_score_of_best e skills) as (best & -> & Hbest).
    cbn [mbind option_bind]. rewrite filter_cons.
    pose proof (above_noise_best e skills best Hbest) as Hiff.
    destruct (Float64.leb NOISE_THRESHOLD best) eqn:E.
    + rewrite decide_True by (apply Hiff; by apply leb_le).
      rewrite IH. by rewrite <- app_assoc.
    + rewrite decide_False; [by rewrite IH|].
      intros Habove. apply Hiff, leb_le in Habove. congruence.
Qed.

(** C4: [filter_valid_entities] returns (it raises nothing, the catalog
    being empty or not) the entities, in their order, whose best score over
    the catalog is at least [NOISE_THRESHOLD]: an entity is kept exactly
    when its best score is at least 55 and dropped exactly when it is below
    55; on an empty catalog the best score is 0 and nothing is kept. *)
Theorem filter_valid_entities_threshold (entities : list str)
    (skills : list Skill.t) :
  exists valid,
    filter_valid_entities entities skills = Some valid
    /\ valid = filter (fun e => above_noise skills e = true) entities
    /\ (forall entity, entity ∈ entities ->
          exists best,
            max_score_of entity skills = Some best
            /\ is_best entity skills best
            /\ (entity ∈ valid <-> NOISE_THRESHOLD <= best)
            /\ (entity ∉ valid <-> best < NOISE_THRESHOLD))
    /\ (skills = [] -> valid = []).
Proof.
  eexists. split; [apply filter_valid_loop_filter|]. simpl.
  split; [reflexivity|]. split.
  - intros entity Hin.
    destruct (max_score_of_best entity skills) as (best & Hmax & Hbest).
    exists best. split; [done|]. split; [done|].
    pose proof (above_noise_best entity skills best Hbest) as Hiff.
    rewrite list_elem_of_filter. split; [tauto|].
    split.
    + intros Hnot. apply Qnot_le_lt. tauto.
    + intros Hlt [Habove _]. apply Hiff in Habove. lra.
  - intros ->. induction entities as [|e entities IH]; [done|].
    rewrite filter_cons. by rewrite decide_False.
Qed.

End Noise.

(** ** Ranking *)

Section DictFacts.
Context {V : Type}.
Implicit Types d : dict V.

Lemma get_setitem k v d k' :
  Dict.get k' (Dict.setitem k v d) =
  if decide (k' = k) then Some v else Dict.get k' d.
Proof.
  induction d as [|[k0 v0] d IH]; simpl.
  - by destruct (decide (k' = k)).
  - destruct (decide (k = k0)) as [->|Hne]; simpl.
    + by destruct (decide (k' = k0)).
    + destruct (decide (k' = k0)) as [->|Hne'].
      * rewrite decide_False; [done|congruence].
      * done.
Qed.

Lemma get_fold_setitem (f : str -> V) (keys : list str) d k :
  Dict.get k (fold_left (fun d x => Dict.setitem x (f x) d) keys d) =
  if decide (k ∈ keys) then Some (f k) else Dict.get k d.
Proof.
  revert d. induction keys as [|x keys IH]; intros d.
  - cbn [fold_left]. case_decide as Hk; [by apply elem_of_nil in Hk|done].
  - cbn [fold_left]. rewrite IH, get_setitem.
    destruct (decide (k ∈ keys)) as [Hin|Hnin].
    + rewrite decide_True; [done|by constructor].
    + destruct (decide (k = x)) as [->|Hne].
      * rewrite decide_True; [done|by constructor].
      * rewrite decide_False; [done|]. by intros [?|?]%elem_of_cons.
Qed.

Lemma setitem_fresh k v d : k ∉ Dict.keys d -> Dict.setitem k v d = d ++ [(k, v)].
Proof.
  induction d as [|[k0 v0] d IH]; [done|]. simpl.
  intros [Hne Hnin]%not_elem_of_cons. rewrite decide_False by done.
  by rewrite IH.
Qed.

(** A loop that stores one value per distinct key appends its items. *)
Lemma fold_setitem_NoDup (f : str -> V) (keys : list str) d :
  NoDup keys -> (forall k, k ∈ keys -> k ∉ Dict.keys d) ->
  fold_left (fun d x => Dict.setitem x (f x) d) keys d =
  d ++ map (fun x => (x, f x)) keys.
Proof.
  revert d. induction keys as [|x keys IH]; intros d Hnd Hfresh; simpl.
  - by rewrite app_nil_r.
  - apply NoDup_cons in Hnd as [Hx Hnd].
    rewrite setitem_fresh by (apply Hfresh; by constructor).
    rewrite IH; [by rewrite <- app_assoc|done|].
    intros k Hk. unfold Dict.keys. rewrite map_app. simpl.
    rewrite not_elem_of_app. split; [apply Hfresh; by constructor|].
    intros ->%list_elem_of_singleton. done.
Qed.

End DictFacts.

Section Ranking.
Context `{Fuzz}.
Local Open Scope Q_scope.

Lemma insert_desc_Permutation x l : insert_desc x l ≡ₚ x :: l.
Proof.
  induction l as [|y l IH]; [done|]. simpl.
  destruct (Float64.ltb _ _); [|done]. rewrite IH. apply perm_swap.
Qed.

Lemma sort_desc_Permutation l : sort_desc l ≡ₚ l.
Proof.
  induction l as [|x l IH]; [done|]. simpl.
  rewrite insert_desc_Permutation. by constructor.
Qed.

#[local] Instance ranks_before_trans : Transitive ranks_before.
Proof. unfold ranks_before. intros a b c ? ?. lra. Qed.

Lemma insert_desc_sorted x l :
  StronglySorted ranks_before l -> StronglySorted ranks_before (insert_desc x l).
Proof.
  induction 1 as [|y l Hl IH Hy]; simpl.
  - repeat constructor.
  - destruct (Float64.ltb _ _) eqn:E.
    + apply ltb_lt in E. constructor; [done|].
      rewrite insert_desc_Permutation. constructor; [|done].
      unfold ranks_before. lra.
    + assert (Hxy : ranks_before x y).
      { unfold ranks_before. apply Qnot_lt_le. intros Hlt.
        apply ltb_lt in Hlt. congruence. }
      constructor; [by constructor|]. constructor; [done|].
      eapply Forall_impl; [apply Hy|]. intros z Hz. by etrans.
Qed.

Lemma sort_desc_sorted l : StronglySorted ranks_before (sort_desc l).
Proof.
  induction l as [|x l IH]; [constructor|]. by apply insert_desc_sorted.
Qed.

(** Insertion passes only over strictly greater scores, so among the
    results of one score the inserted one comes first. *)
Lemma with_score_insert_desc v x l :
  with_score v (insert_desc x l) = with_score v (x :: l).
Proof.
  unfold with_score. induction l as [|y l IH]; [done|]. simpl.
  destruct (Float64.ltb _ _) eqn:E; [|done].
  apply ltb_lt in E. rewrite (filter_cons _ y), IH, !filter_cons.
  destruct (decide (Qeq_bool (SearchResult.score x) v = true)) as [Hx|Hx];
    [|done].
  case_decide as Hy; [|done].
  apply Qeq_bool_iff in Hx, Hy. lra.
Qed.

(** The sort is stable. *)
Lemma sort_desc_stable v l : with_score v (sort_desc l) = with_score v l.
Proof.
  induction l as [|x l IH]; [done|]. simpl.
  rewrite with_score_insert_desc. unfold with_score in *.
  by rewrite !filter_cons, IH.
Qed.

Lemma with_score_cons v x l :
  with_score v (x :: l) =
  if Qeq_bool (SearchResult.score x) v then x :: with_score v l
  else with_score v l.
Proof.
  unfold with_score. rewrite filter_cons.
  destruct (Qeq_bool (SearchResult.score x) v); by case_decide.
Qed.

Lemma with_score_elem v x l :
  x ∈ with_score v l <-> SearchResult.score x == v /\ x ∈ l.
Proof.
  unfold with_score. rewrite list_elem_of_filter, Qeq_bool_iff. done.
Qed.

(** A ranking is determined by being sorted and stable: two sorted lists
    with the same results of every score, in the same order, are equal. *)
Lemma sorted_stable_unique l1 l2 :
  StronglySorted ranks_before l1 -> StronglySorted ranks_before l2 ->
  (forall v, with_score v l1 = with_score v l2) -> l1 = l2.
Proof.
  intros H1. revert l2. induction H1 as [|a l1 H1 IH Ha]; intros l2 H2 Heq.
  - destruct l2 as [|b l2]; [done|]. specialize (Heq (SearchResult.score b)).
    rewrite with_score_cons in Heq.
    by rewrite (proj2 (Qeq_bool_iff _ _) (Qeq_refl _)) in Heq.
  - pose proof (Heq (SearchResult.score a)) as Hv.
    rewrite with_score_cons in Hv.
    rewrite (proj2 (Qeq_bool_iff _ _) (Qeq_refl _)) in Hv.
    destruct l2 as [|b l2]; [done|]. inversion H2 as [|? ? H2' Hb]; subst.
    rewrite with_score_cons in Hv.
    destruct (Qeq_bool (SearchResult.score b) (SearchResult.score a)) eqn:Eb.
    + injection Hv as <- Hv. f_equal. apply IH; [done|]. intros v.
      specialize (Heq v). rewrite !with_score_cons in Heq.
      destruct (Qeq_bool (SearchResult.score a) v); [by injection Heq|done].
    + exfalso.
      assert (Ha2 : a ∈ l2).
      { apply (with_score_elem (SearchResult.score a)). rewrite <- Hv.
        constructor. }
      assert (Hba : ranks_before b a).
      { eapply Forall_forall in Hb; [apply Hb|done]. }
      pose proof (Heq (SearchResult.score b)) as Hw.
      rewrite !with_score_cons in Hw.
      rewrite (proj2 (Qeq_bool_iff _ _) (Qeq_refl _)) in Hw.
      assert (Eab : Qeq_bool (SearchResult.score a) (SearchResult.score b)
                    = false).
      { destruct (Qeq_bool (SearchResult.score a) (SearchResult.score b))
          eqn:E; [|done].
        apply Qeq_bool_iff in E. symmetry in E. apply Qeq_bool_iff in E.
        congruence. }
      rewrite Eab in Hw.
      assert (Hb1 : b ∈ l1).
      { apply (with_score_elem (SearchResult.score b)). rewrite Hw.
        constructor. }
      assert (Hab : ranks_before a b).
      { eapply Forall_forall in Ha; [apply Ha|done]. }
      unfold ranks_before in *.
      assert (E : SearchResult.score a == SearchResult.score b) by lra.
      apply Qeq_bool_iff in E. congruence.
Qed.

(** Python's sort is specified as sorted and stable; so is [sort_desc],
    and nothing else is. *)
Lemma sort_desc_determined l other :
  StronglySorted ranks_before other ->
  (forall v, with_score v other = with_score v l) ->
  other = sort_desc l.
Proof.
  intros Hsorted Hstable. apply sorted_stable_unique; [done|..].
  - apply sort_desc_sorted.
  - intros v. by rewrite sort_desc_stable.
Qed.

(** A negative bound counts from the end of the list. *)
Example slice_to_negative : slice_to (-1) [1; 2; 3]%Z = [1; 2]%Z.
Proof. reflexivity. Qed.

Lemma slice_to_take {A} (n : Z) (l : list A) :
  (0 <= n)%Z -> slice_to n l = take (Z.to_nat n) l.
Proof. intros Hn. unfold slice_to. by rewrite (proj2 (Z.leb_le 0 n)). Qed.

Lemma StronglySorted_take {A} (R : relation A) n l :
  StronglySorted R l -> StronglySorted R (take n l).
Proof.
  intros Hl. revert n. induction Hl as [|x l Hl IH Hx]; intros [|n]; simpl;
    try constructor; [done|].
  eapply Forall_forall. intros y Hy. eapply Forall_forall; [apply Hx|].
  apply elem_of_take in Hy as (i & Hi & _). by eapply list_elem_of_lookup_2.
Qed.

Lemma search_skills_get entities skills top_n entity :
  Dict.get entity (search_skills entities skills top_n) =
  if decide (entity ∈ entities)
  then Some (slice_to top_n (sort_desc (score_all entity skills)))
  else None.
Proof.
  unfold search_skills.
  by rewrite (get_fold_setitem
                (fun e => slice_to top_n (sort_desc (score_all e skills)))).
Qed.

(** C5: for an entity given to [search_skills] and a non-negative
    [top_n], the entry of the entity is the first [top_n] elements of a
    list [ranked] that holds, for every catalog skill, the skill with the
    score [calculate_relevance] gives the entity against it, and nothing
    else (a permutation of the catalog so scored); [ranked] is sorted by
    non-increasing score and keeps the skills of equal score in catalog
    order ([ranked] is the only list that is so sorted and stable); so the
    entry is sorted too, has at most [top_n] elements, and each of its
    elements is a catalog skill with its own score.  The specification
    gives [top_n] as a positive integer; a negative one makes the slice of
    line 176 count from the end. *)
Theorem search_skills_ranking (entities : list str) (skills : list Skill.t)
    (top_n : Z) (entity : str) :
  let scored :=
    map (fun skill => SearchResult.mk skill (calculate_relevance entity skill))
        skills in
  entity ∈ entities -> (0 <= top_n)%Z ->
  exists ranked kept,
    Dict.get entity (search_skills entities skills top_n) = Some kept
    /\ ranked ≡ₚ scored
    /\ length ranked = length skills
    /\ (forall skill,
          skill ∈ skills ->
          SearchResult.mk skill (calculate_relevance entity skill) ∈ ranked)
    /\ StronglySorted ranks_before ranked
    /\ (forall v, with_score v ranked = with_score v scored)
    /\ (forall other,
          StronglySorted ranks_before other ->
          (forall v, with_score v other = with_score v scored) ->
          other = ranked)
    /\ kept = take (Z.to_nat top_n) ranked
    /\ StronglySorted ranks_before kept
    /\ (Z.of_nat (length kept) <= top_n)%Z
    /\ (forall m,
          m ∈ kept ->
          SearchResult.skill m ∈ skills
          /\ SearchResult.score m
             = calculate_relevance entity (SearchResult.skill m)).
Proof.
  intros scored Hin Hn.
  assert (score_all entity skills = scored) as Hscored by reflexivity.
  assert (sort_desc (score_all entity skills) ≡ₚ scored) as Hperm
    by apply sort_desc_Permutation.
  exists (sort_desc (score_all entity skills)). eexists.
  split.
  { rewrite search_skills_get, decide_True by done.
    by rewrite slice_to_take. }
  split; [done|].
  split.
  { rewrite (Permutation_length Hperm). unfold scored. apply length_map. }
  split.
  { intros skill Hskill. rewrite Hperm. unfold scored.
    apply elem_of_list_map. eauto. }
  split; [apply sort_desc_sorted|].
  split; [intros v; rewrite <- Hscored; apply sort_desc_stable|].
  split; [rewrite <- Hscored; apply sort_desc_determined|].
  split; [reflexivity|].
  split; [apply StronglySorted_take, sort_desc_sorted|].
  split; [rewrite length_take; lia|].
  intros m Hm. apply elem_of_take in Hm as (i & Hm & _).
  apply list_elem_of_lookup_2 in Hm. rewrite Hperm in Hm.
  unfold scored in Hm. apply elem_of_list_map in Hm as (skill & -> & Hskill).
  done.
Qed.

End Ranking.

(** ** Bundle expansion *)

Section Bundles.

(** The loop of lines 190-193 from any starting set. *)
Lemma bundle_loop_elem (found : gset str) (bundles : list Bundle.t)
    (extras : gset str) (x : str) :
  x ∈ fold_left
        (fun extras bundle =>
           let bundle_skills : gset str := list_to_set (Bundle.skills bundle) in
           if decide (found ∩ bundle_skills ≠ ∅)
           then extras ∪ (bundle_skills ∖ found)
           else extras)
        bundles extras
  <-> x ∈ extras
      \/ exists bundle, bundle ∈ bundles
           /\ x ∈ Bundle.skills bundle /\ (x ∉ found)
           /\ exists y, y ∈ Bundle.skills bundle /\ y ∈ found.
Proof.
  revert extras. induction bundles as [|b bundles IH]; intros extras.
  - simpl. split; [by left|]. intros [?|(b & Hb & _)]; [done|].
    by apply elem_of_nil in Hb.
  - cbn [fold_left]. rewrite IH. clear IH. cbn zeta.
    destruct (decide (found ∩ list_to_set (Bundle.skills b) ≠ ∅))
      as [Hmeet|Hmeet].
    + apply set_choose_L in Hmeet as (y & Hy).
      apply elem_of_intersection in Hy as [Hy1 Hy2].
      apply elem_of_list_to_set in Hy2. split.
      * intros [[Hx|[Hx1 Hx2]%elem_of_difference]%elem_of_union
               |(b' & Hb' & Hrest)].
        -- by left.
        -- right. exists b. split; [by constructor|].
           apply elem_of_list_to_set in Hx1. eauto.
        -- right. exists b'. split; [by constructor|done].
      * intros [Hx|(b' & [->|Hb']%elem_of_cons & Hx1 & Hx2 & Hrest)].
        -- left. set_solver.
        -- left. apply elem_of_union. right. apply elem_of_difference.
           split; [by apply elem_of_list_to_set|done].
        -- right. eauto.
    + apply dec_stable in Hmeet. split.
      * intros [Hx|(b' & Hb' & Hrest)]; [by left|].
        right. exists b'. split; [by constructor|done].
      * intros [Hx|(b' & [->|Hb']%elem_of_cons & Hx1 & Hx2 & y & Hy1 & Hy2)].
        -- by left.
        -- exfalso. apply (not_elem_of_empty (C:=gset str) y).
           rewrite <- Hmeet. apply elem_of_intersection.
           split; [done|by apply elem_of_list_to_set].
        -- right. eauto 10.
Qed.

(** What bundle expansion returns: the skills, not found themselves, of
    the bundles that hold a found skill. *)
Lemma find_bundled_skills_elem results (bundles : dict Bundle.t) x :
  x ∈ find_bundled_skills results bundles
  <-> exists bundle, bundle ∈ Dict.values bundles
        /\ x ∈ Bundle.skills bundle /\ (x ∉ found_names results)
        /\ exists y, y ∈ Bundle.skills bundle /\ y ∈ found_names results.
Proof.
  unfold find_bundled_skills. cbn zeta. rewrite bundle_loop_elem.
  split; [intros [Hx|Hx]; [by apply not_elem_of_empty in Hx|done]|by right].
Qed.

Lemma core_skills_found results : core_skills results ⊆ found_names results.
Proof.
  intros x. unfold core_skills, found_names.
  rewrite !elem_of_list_to_set, !elem_of_list_map.
  intros (scan & -> & [Hs Hin]%list_elem_of_filter). exists scan.
  split; [done|]. apply list_elem_of_filter. split; [|done].
  apply ltb_lt in Hs. apply ltb_lt. unfold HIGH_CONFIDENCE, BUNDLE_TRIGGER in *.
  lra.
Qed.

(** C6: the extras returned by [find_bundled_skills] are disjoint from
    the found set (the names with a kept score above 65), hence also from
    the core match set (score above [HIGH_CONFIDENCE]), which is a part of
    it: bundle expansion only adds names that were not found. *)
Theorem extras_disjoint_from_found (results : dict (list SearchResult.t))
    (bundles : dict Bundle.t) :
  find_bundled_skills results bundles ## found_names results
  /\ find_bundled_skills results bundles ## core_skills results
  /\ (forall name, name ∈ find_bundled_skills results bundles ->
        (name ∉ found_names results) /\ (name ∉ core_skills results)).
Proof.
  assert (Hd : forall name, name ∈ find_bundled_skills results bundles ->
                            name ∉ found_names results).
  { intros name (b & _ & _ & Hnot & _)%find_bundled_skills_elem. done. }
  pose proof (core_skills_found results) as Hsub.
  split; [|split].
  - intros name Hx Hf. by apply (Hd name).
  - intros name Hx Hc. apply (Hd name); [done|]. by apply Hsub.
  - intros name Hx. split; [by apply Hd|]. intros Hc.
    apply (Hd name); [done|]. by apply Hsub.
Qed.

End Bundles.

(** ** The report *)

Section ReportFacts.
Context `{SetOrder}.

Lemma skill_map_loop_get (all_skills : list Skill.t) (m : dict Skill.t) name s :
  Dict.get name (fold_left (fun m s => Dict.setitem (Skill.name s) s m)
                           all_skills m) = Some s ->
  (s ∈ all_skills /\ Skill.name s = name) \/ Dict.get name m = Some s.
Proof.
  revert m. induction all_skills as [|s0 l IH]; intros m; simpl; [by right|].
  intros [[Hin Hn]|Hget]%IH.
  - left. split; [by constructor|done].
  - rewrite get_setitem in Hget. case_decide as Hk; [|by right].
    injection Hget as <-. left. split; [by constructor|done].
Qed.

Lemma skill_map_of_get all_skills name s :
  Dict.get name (skill_map_of all_skills) = Some s ->
  s ∈ all_skills /\ Skill.name s = name.
Proof. intros [?|?]%skill_map_loop_get; done. Qed.

Lemma skill_map_of_unknown all_skills name :
  name ∉ map Skill.name all_skills ->
  Dict.get name (skill_map_of all_skills) = None.
Proof.
  intros Hnot. destruct (Dict.get _ _) as [s|] eqn:E; [|done].
  apply skill_map_of_get in E as [Hin <-]. exfalso. apply Hnot.
  apply elem_of_list_map. eauto.
Qed.

Lemma listing_elem skill_map names name s :
  (name, s) ∈ listing skill_map names <->
  name ∈ names /\ Dict.get name skill_map = Some s.
Proof.
  unfold listing. rewrite list_elem_of_omap. split.
  - intros (n & Hn & Hs). destruct (Dict.get n skill_map) eqn:E; [|done].
    simpl in Hs. by injection Hs as -> ->.
  - intros [Hn Hs]. exists name. rewrite Hs. done.
Qed.

Lemma sorted_names_elem (s : gset str) x : x ∈ sorted_names s <-> x ∈ s.
Proof.
  unfold sorted_names. rewrite merge_sort_Permutation, set_iter_elem.
  apply elem_of_elements.
Qed.

Lemma install_command_concat names init :
  fold_left (fun cmd name => cmd ++ install_line name) names init =
  init ++ concat (map install_line names).
Proof.
  revert init. induction names as [|n names IH]; intros init; simpl.
  - by rewrite app_nil_r.
  - by rewrite IH, <- app_assoc.
Qed.

(** Every recommended name has its line in the install command. *)
Lemma install_command_line names name :
  name ∈ names ->
  exists before after,
    install_command names = before ++ install_line name ++ after.
Proof.
  intros (l1 & l2 & ->)%list_elem_of_split. unfold install_command.
  rewrite install_command_concat, map_app, concat_app. cbn [map concat].
  exists ((Str.of_ascii "# PowerShell" ++ [NEWLINE])
          ++ concat (map install_line l1)), (concat (map install_line l2)).
  by rewrite <- !app_assoc.
Qed.

Lemma join_elem sep parts p :
  p ∈ parts -> exists before after, Str.join sep parts = before ++ p ++ after.
Proof.
  induction parts as [|p0 parts IH]; [by intros ?%elem_of_nil|].
  intros [->|Hin]%elem_of_cons.
  - destruct parts as [|p1 parts].
    + exists [], []. cbn [Str.join app]. by rewrite app_nil_r.
    + exists [], (sep ++ Str.join sep (p1 :: parts)). reflexivity.
  - destruct (IH Hin) as (before & after & E).
    destruct parts as [|p1 parts]; [by apply elem_of_nil in Hin|].
    exists (p0 ++ sep ++ before), after.
    change (Str.join sep (p0 :: p1 :: parts))
      with (p0 ++ sep ++ Str.join sep (p1 :: parts)).
    rewrite E. by rewrite <- !app_assoc.
Qed.

(** C10: [generate_report_content] is total, and a name that no catalog
    skill bears is listed neither under the core matches nor under the
    recommendations (every listed name comes with the catalog skill of
    that name); if the name is a core match or an extra it still has its
    line in the install command, which the report contains: the report is
    the text of lines 218-243 around the listed skills and the
    [Copy-Item] lines of the recommended names, and the [Copy-Item] line
    of the unknown name, with the name in it, is part of the report. *)
Theorem report_omits_unknown_names (results : dict (list SearchResult.t))
    (extras : gset str) (all_skills : list Skill.t) (name : str) :
  name ∉ map Skill.name all_skills ->
  (forall s, (name, s) ∉ core_section results all_skills)
  /\ (forall s, (name, s) ∉ recommended_section extras all_skills)
  /\ (forall n s, (n, s) ∈ core_section results all_skills ->
        n ∈ core_skills results /\ s ∈ all_skills /\ Skill.name s = n)
  /\ (forall n s, (n, s) ∈ recommended_section extras all_skills ->
        n ∈ extras /\ s ∈ all_skills /\ Skill.name s = n)
  /\ (name ∈ core_skills results ∪ extras ->
        name ∈ recommended_skills results extras
        /\ exists before after,
             install_command (recommended_skills results extras) =
             before ++ install_line name ++ after)
  /\ (exists md_before md_after,
        generate_report_content results extras all_skills =
        Str.join [NEWLINE]
          (md_before
           ++ map listing_line (core_section results all_skills)
           ++ [[NEWLINE] ++ Str.of_ascii "### RECOMMENDED (Bundles & Ecosystem)"]
           ++ map listing_line (recommended_section extras all_skills)
           ++ md_after)
        /\ install_command (recommended_skills results extras) ∈ md_after)
  /\ generate_report_content results extras all_skills =
     Str.join [NEWLINE]
       ([ Str.of_ascii "# Skill Implementation Report" ++ [NEWLINE];
          Str.of_ascii "**Based on analysis of your requirements.**"
          ++ [NEWLINE];
          Str.of_ascii "## 1. Required Skills" ++ [NEWLINE];
          Str.of_ascii "### CORE MATCHES (High Relevance)" ]
        ++ map (fun entry =>
                  Str.of_ascii "- **" ++ entry.1 ++ Str.of_ascii "**: "
                  ++ Skill.description entry.2)
               (core_section results all_skills)
        ++ [ [NEWLINE]
             ++ Str.of_ascii "### RECOMMENDED (Bundles & Ecosystem)" ]
        ++ map (fun entry =>
                  Str.of_ascii "- **" ++ entry.1 ++ Str.of_ascii "**: "
                  ++ Skill.description entry.2)
               (recommended_section extras all_skills)
        ++ [ [NEWLINE] ++ Str.of_ascii "## 2. Quick Install" ++ [NEWLINE];
             Str.of_ascii "Run this command to install the skills:";
             Str.of_ascii "```powershell";
             (Str.of_ascii "# PowerShell" ++ [NEWLINE])
             ++ concat
                  (map (fun n =>
                          Str.of_ascii
                            "Copy-Item -Recurse -Force '.agent/skills/skills/"
                          ++ n ++ Str.of_ascii "' .agent/skills/skills/"
                          ++ [NEWLINE])
                       (recommended_skills results extras));
             Str.of_ascii "```" ++ [NEWLINE] ])
  /\ (name ∈ core_skills results ∪ extras ->
        exists before after,
          generate_report_content results extras all_skills =
          before
          ++ (Str.of_ascii "Copy-Item -Recurse -Force '.agent/skills/skills/"
              ++ name ++ Str.of_ascii "' .agent/skills/skills/" ++ [NEWLINE])
          ++ after).
Proof.
  intros Hunknown. apply skill_map_of_unknown in Hunknown.
  assert (Hrec : name ∈ core_skills results ∪ extras ->
                 name ∈ recommended_skills results extras).
  { intros Hin. by apply sorted_names_elem. }
  split; [|split; [|split; [|split; [|split; [|split; [|split]]]]]].
  - intros s [_ Hs]%listing_elem. congruence.
  - intros s [_ Hs]%listing_elem. congruence.
  - intros n s [Hn Hs]%listing_elem. apply sorted_names_elem in Hn.
    apply skill_map_of_get in Hs. tauto.
  - intros n s [Hn Hs]%listing_elem. apply set_iter_elem, elem_of_elements in Hn.
    apply skill_map_of_get in Hs. tauto.
  - intros Hin. split; [by apply Hrec|]. by apply install_command_line, Hrec.
  - unfold generate_report_content, report_md.
    exists [ Str.of_ascii "# Skill Implementation Report" ++ [NEWLINE];
             Str.of_ascii "**Based on analysis of your requirements.**"
             ++ [NEWLINE];
             Str.of_ascii "## 1. Required Skills" ++ [NEWLINE];
             Str.of_ascii "### CORE MATCHES (High Relevance)" ].
    exists [ [NEWLINE] ++ Str.of_ascii "## 2. Quick Install" ++ [NEWLINE];
             Str.of_ascii "Run this command to install the skills:";
             Str.of_ascii "```powershell";
             install_command (recommended_skills results extras);
             Str.of_ascii "```" ++ [NEWLINE] ].
    split; [reflexivity|]. do 3 apply list_elem_of_further.
    apply list_elem_of_here.
  - unfold generate_report_content, report_md, install_command.
    rewrite install_command_concat. reflexivity.
  - intros Hin. apply Hrec, install_command_line in Hin
      as (before & after & Hcmd).
    destruct (join_elem [NEWLINE] (report_md results extras all_skills)
                (install_command (recommended_skills results extras)))
      as (md_before & md_after & Hjoin).
    { unfold report_md. rewrite !elem_of_app. do 4 right.
      do 3 apply list_elem_of_further. apply list_elem_of_here. }
    exists (md_before ++ before), (after ++ md_after).
    unfold generate_report_content. rewrite Hjoin, Hcmd.
    unfold install_line. by rewrite <- !app_assoc.
Qed.

End ReportFacts.

(** ** Determinism *)

Section DictOrder.
Context {V : Type}.
Implicit Types d : dict V.

Lemma keys_setitem k v d :
  Dict.keys (Dict.setitem k v d) =
  if decide (k ∈ Dict.keys d) then Dict.keys d else Dict.keys d ++ [k].
Proof.
  induction d as [|[k0 v0] d IH]; [done|]. simpl.
  destruct (decide (k = k0)) as [->|Hne]; simpl.
  - rewrite decide_True; [done|by constructor].
  - rewrite IH. destruct (decide (k ∈ Dict.keys d)) as [Hin|Hnin].
    + rewrite decide_True; [done|by constructor].
    + rewrite decide_False; [done|]. by intros [?|?]%elem_of_cons.
Qed.

Lemma setitem_NoDup k v d :
  NoDup (Dict.keys d) -> NoDup (Dict.keys (Dict.setitem k v d)).
Proof.
  intros Hd. rewrite keys_setitem. case_decide as Hk; [done|].
  apply NoDup_app. split; [done|]. split; [|apply NoDup_singleton].
  intros x Hx ->%list_elem_of_singleton. done.
Qed.

Lemma get_Some_elem k v d : Dict.get k d = Some v -> (k, v) ∈ d.
Proof.
  induction d as [|[k0 v0] d IH]; [done|]. simpl.
  case_decide as Hk; [intros [= ->]; subst; by constructor|].
  intros. constructor. auto.
Qed.

Lemma elem_get k v d : NoDup (Dict.keys d) -> (k, v) ∈ d -> Dict.get k d = Some v.
Proof.
  induction d as [|[k0 v0] d IH]; intros Hnd Hin; [by apply elem_of_nil in Hin|].
  simpl in Hnd. apply NoDup_cons in Hnd as [Hk0 Hnd]. simpl.
  apply elem_of_cons in Hin as [[= -> ->]|Hin].
  - by rewrite decide_True.
  - rewrite decide_False; [auto|]. intros ->. apply Hk0.
    unfold Dict.keys. apply (list_elem_of_fmap_2' fst _ (k0, v)); done.
Qed.

(** With distinct keys the values are what [get] can return. *)
Lemma values_get d v :
  NoDup (Dict.keys d) -> v ∈ Dict.values d <-> exists k, Dict.get k d = Some v.
Proof.
  intros Hnd. unfold Dict.values. split.
  - intros ([k v'] & -> & Hin)%(list_elem_of_fmap snd). exists k.
    by apply elem_get.
  - intros (k & Hk%get_Some_elem).
    by apply (list_elem_of_fmap_2' snd _ (k, v)).
Qed.

Lemma values_equiv d1 d2 v :
  NoDup (Dict.keys d1) -> NoDup (Dict.keys d2) -> Dict.equiv d1 d2 ->
  v ∈ Dict.values d1 <-> v ∈ Dict.values d2.
Proof.
  intros H1 H2 Heq. rewrite !values_get by done.
  split; intros (k & Hk); exists k; [by rewrite <- (Heq k)|by rewrite (Heq k)].
Qed.

End DictOrder.

Section Determinism.
Context `{Fuzz}.

Lemma elem_of_concat_list {A} (ls : list (list A)) x :
  x ∈ concat ls <-> exists l, l ∈ ls /\ x ∈ l.
Proof.
  induction ls as [|l ls IH]; simpl.
  - split; [by intros ?%elem_of_nil|by intros (l & ?%elem_of_nil & _)].
  - rewrite elem_of_app, IH. split.
    + intros [Hx|(l' & Hl' & Hx)]; [exists l|exists l'];
        (split; [by constructor|done]) || (split; [by constructor|done]).
    + intros (l' & [->|Hl']%elem_of_cons & Hx); [by left|right; eauto].
Qed.

Lemma all_scans_equiv (r1 r2 : dict (list SearchResult.t)) scan :
  NoDup (Dict.keys r1) -> NoDup (Dict.keys r2) -> Dict.equiv r1 r2 ->
  scan ∈ all_scans r1 <-> scan ∈ all_scans r2.
Proof.
  intros H1 H2 Heq. unfold all_scans. rewrite !elem_of_concat_list.
  split; intros (l & Hl & Hs); exists l; (split; [|done]);
    by apply (values_equiv r1 r2).
Qed.

(** The found set depends on the mapping only, not on insertion order. *)
Lemma found_names_equiv (r1 r2 : dict (list SearchResult.t)) :
  NoDup (Dict.keys r1) -> NoDup (Dict.keys r2) -> Dict.equiv r1 r2 ->
  found_names r1 = found_names r2.
Proof.
  intros H1 H2 Heq. apply set_eq. intros name. unfold found_names.
  rewrite !elem_of_list_to_set, !elem_of_list_map.
  split; intros (scan & -> & [Hs Hin]%list_elem_of_filter); exists scan;
    (split; [done|]); apply list_elem_of_filter; (split; [done|]);
    by apply (all_scans_equiv r1 r2).
Qed.

Lemma find_bundled_skills_equiv (r1 r2 : dict (list SearchResult.t))
    (b1 b2 : dict Bundle.t) :
  NoDup (Dict.keys r1) -> NoDup (Dict.keys r2) -> Dict.equiv r1 r2 ->
  NoDup (Dict.keys b1) -> NoDup (Dict.keys b2) -> Dict.equiv b1 b2 ->
  find_bundled_skills r1 b1 = find_bundled_skills r2 b2.
Proof.
  intros Hr1 Hr2 Hr Hb1 Hb2 Hb. apply set_eq. intros x.
  rewrite !find_bundled_skills_elem, (found_names_equiv r1 r2) by done.
  split; intros (b & Hin & Hrest); exists b; (split; [|done]);
    by apply (values_equiv b1 b2).
Qed.

Lemma search_skills_NoDup entities skills top_n :
  NoDup (Dict.keys (search_skills entities skills top_n)).
Proof.
  unfold search_skills.
  assert (Hgen : forall d : dict (list SearchResult.t),
             NoDup (Dict.keys d) ->
             NoDup (Dict.keys
               (fold_left
                  (fun results entity =>
                     let matches := score_all entity skills in
                     let matches := sort_desc matches in
                     Dict.setitem entity (slice_to top_n matches) results)
                  entities d))).
  { induction entities as [|e es IH]; intros d Hd; [done|]. simpl.
    by apply IH, setitem_NoDup. }
  apply Hgen. constructor.
Qed.

Lemma search_skills_equiv es1 es2 skills top_n :
  (forall e, e ∈ es1 <-> e ∈ es2) ->
  Dict.equiv (search_skills es1 skills top_n) (search_skills es2 skills top_n).
Proof.
  intros Hel k. rewrite !search_skills_get.
  destruct (decide (k ∈ es1)) as [H1|H1], (decide (k ∈ es2)) as [H2|H2];
    try done; exfalso; by apply Hel in H1 || apply Hel in H2.
Qed.

(** Searching and bundle expansion depend on which entities are given,
    not on their order or repetition. *)
Lemma search_and_bundle_equiv es1 es2 skills (bundles : dict Bundle.t) top_n :
  (forall e, e ∈ es1 <-> e ∈ es2) ->
  Dict.equiv (search_skills es1 skills top_n) (search_skills es2 skills top_n)
  /\ find_bundled_skills (search_skills es1 skills top_n) bundles
     = find_bundled_skills (search_skills es2 skills top_n) bundles.
Proof.
  intros Hel. pose proof (search_skills_equiv es1 es2 skills top_n Hel) as Hres.
  split; [done|]. unfold find_bundled_skills.
  rewrite (found_names_equiv (search_skills es1 skills top_n)
                             (search_skills es2 skills top_n));
    auto using search_skills_NoDup.
Qed.

(** C8: two runs of the pipeline on the same text, catalog, bundle map
    and [top_n] end in the same way, and when they find something they
    produce the same Result Set (equal as dictionaries) and the same
    extras, whatever order each run iterates its sets in.  Searching and
    bundle expansion on entity lists with the same entities (identical
    lists in particular) give the same Result Set and the same extras;
    bundle expansion does not depend on the insertion order of the bundle
    map; and the score is a function of the query and of the name,
    triggers and full text of the skill alone.  ([calculate_relevance],
    [search_skills] and [find_bundled_skills] take no iteration order at
    all: they are functions of their arguments.) *)
Theorem pipeline_deterministic (run1 run2 : SetOrder) (raw_text : str)
    (skills : list Skill.t) (bundles : dict Bundle.t) (top_n : Z) :
  match @main_core _ run1 raw_text skills bundles top_n,
        @main_core _ run2 raw_text skills bundles top_n with
  | Some NoValidTerms, Some NoValidTerms => True
  | Some (Found results1 extras1), Some (Found results2 extras2) =>
      Dict.equiv results1 results2 /\ extras1 = extras2
  | _, _ => False
  end
  /\ (forall entities1 entities2 : list str,
        (forall e, e ∈ entities1 <-> e ∈ entities2) ->
        Dict.equiv (search_skills entities1 skills top_n)
                   (search_skills entities2 skills top_n)
        /\ find_bundled_skills (search_skills entities1 skills top_n) bundles
           = find_bundled_skills (search_skills entities2 skills top_n) bundles)
  /\ (forall (results : dict (list SearchResult.t)) (bundles' : dict Bundle.t),
        NoDup (Dict.keys bundles) -> NoDup (Dict.keys bundles') ->
        Dict.equiv bundles bundles' ->
        find_bundled_skills results bundles
        = find_bundled_skills results bundles')
  /\ (forall (query : str) (skill skill' : Skill.t),
        Skill.name skill = Skill.name skill' ->
        Skill.triggers skill = Skill.triggers skill' ->
        Skill.full_text skill = Skill.full_text skill' ->
        calculate_relevance query skill = calculate_relevance query skill').
Proof.
  split; [|split; [|split]].
  2:{ intros es1 es2 Hel. by apply search_and_bundle_equiv. }
  2:{ intros results bundles' Hb Hb' Heq. apply set_eq. intros x.
      rewrite !find_bundled_skills_elem.
      split; intros (b & Hin & Hrest); exists b; (split; [|done]);
        by apply (values_equiv bundles bundles'). }
  2:{ intros query skill skill' Hname Htriggers Htext.
      unfold calculate_relevance. by rewrite Hname, Htriggers, Htext. }
  unfold main_core, filter_valid_entities. rewrite !filter_valid_loop_filter.
  cbn [mbind option_bind app].
  set (P := fun e => above_noise skills e = true).
  set (es1 := @extract_search_entities run1 raw_text).
  set (es2 := @extract_search_entities run2 raw_text).
  assert (Hel : forall e, e ∈ filter P es1 <-> e ∈ filter P es2).
  { intros e. rewrite !list_elem_of_filter. unfold es1, es2.
    rewrite !(extract_search_entities_elem raw_text e). done. }
  destruct (search_and_bundle_equiv (filter P es1) (filter P es2) skills
              bundles top_n Hel) as [Hres Hext].
  destruct (filter P es1) as [|e1 v1], (filter P es2) as [|e2 v2].
  - done.
  - exfalso. apply (elem_of_nil e2), Hel. by constructor.
  - exfalso. apply (elem_of_nil e1), Hel. by constructor.
  - done.
Qed.

End Determinism.

(** ** Normalization and the reflexive match *)

Section QueryOnly.
Import Float64.
Local Open Scope Q_scope.

Ltac tell_apart H :=
  unfold calculate_relevance, calculate_relevance_spec, weighted, tells, never
    in H;
  cbn [default_process partial_ratio token_set_ratio] in H;
  repeat match type of H with
         | context [decide (?a = ?b)] =>
             destruct (decide (a = b)) as [?|?];
             try contradiction;
             try match goal with Hc : ?x <> ?x |- _ => destruct (Hc eq_refl) end
         end;
  vm_compute in H; discriminate H.

(** C2 (amended): [calculate_relevance] normalizes the query only: for
    every normalization and every pair of similarity functions its score is
    the weighted sum of the similarities of the normalized query with the
    name, the triggers and the full text of the skill as stored.  For each
    of the three fields, the score is for all similarity functions the one
    computed with that field normalized too exactly when the stored field
    is in normal form (left unchanged by the normalization); and it is for
    all similarity functions the score the specification asks for, with
    the three fields normalized, exactly when the three stored fields are
    in normal form. *)
Theorem normalization_query_only (dp : str -> str) (query : str)
    (skill : Skill.t) :
  let q := dp query in
  let name := Skill.name skill in
  let triggers := Skill.triggers skill in
  let full_text := Skill.full_text skill in
  let score pr tsr := @calculate_relevance (Build_Fuzz dp pr tsr) query skill in
  (forall pr tsr,
     score pr tsr = weighted (pr q name) (tsr q triggers) (tsr q full_text))
  /\ ((forall pr tsr,
         score pr tsr
         = weighted (pr q (dp name)) (tsr q triggers) (tsr q full_text))
      <-> dp name = name)
  /\ ((forall pr tsr,
         score pr tsr
         = weighted (pr q name) (tsr q (dp triggers)) (tsr q full_text))
      <-> dp triggers = triggers)
  /\ ((forall pr tsr,
         score pr tsr
         = weighted (pr q name) (tsr q triggers) (tsr q (dp full_text)))
      <-> dp full_text = full_text)
  /\ ((forall pr tsr,
         score pr tsr
         = @calculate_relevance_spec (Build_Fuzz dp pr tsr) query skill)
      <-> dp name = name /\ dp triggers = triggers
          /\ dp full_text = full_text).
Proof.
  intros q name triggers full_text score.
  split; [reflexivity|]. split; [|split; [|split]].
  - split.
    + intros Hall. specialize (Hall (tells name) never).
      destruct (decide (dp name = name)) as [|Hne]; [assumption|]. exfalso.
      subst score q name triggers full_text. cbv beta in Hall.
      tell_apart Hall.
    + intros Hfix pr tsr. rewrite Hfix. reflexivity.
  - split.
    + intros Hall. specialize (Hall never (tells triggers)).
      destruct (decide (dp triggers = triggers)) as [|Hne]; [assumption|].
      exfalso. subst score q name triggers full_text. cbv beta in Hall.
      tell_apart Hall.
    + intros Hfix pr tsr. rewrite Hfix. reflexivity.
  - split.
    + intros Hall. specialize (Hall never (tells full_text)).
      destruct (decide (dp full_text = full_text)) as [|Hne]; [assumption|].
      exfalso. subst score q name triggers full_text. cbv beta in Hall.
      tell_apart Hall.
    + intros Hfix pr tsr. rewrite Hfix. reflexivity.
  - split.
    + intros Hall. split; [|split].
      * specialize (Hall (tells name) never).
        destruct (decide (dp name = name)) as [|Hne]; [assumption|]. exfalso.
        subst score q name triggers full_text. cbv beta in Hall.
        tell_apart Hall.
      * specialize (Hall never (tells triggers)).
        destruct (decide (dp triggers = triggers)) as [|Hne]; [assumption|].
        exfalso. subst score q name triggers full_text. cbv beta in Hall.
        tell_apart Hall.
      * specialize (Hall never (tells full_text)).
        destruct (decide (dp full_text = full_text)) as [|Hne]; [assumption|].
        exfalso. subst score q name triggers full_text. cbv beta in Hall.
        tell_apart Hall.
    + intros (Hn & Ht & Hx) pr tsr. subst score. cbv beta.
      unfold calculate_relevance_spec.
      cbn [default_process partial_ratio token_set_ratio].
      fold name triggers full_text. rewrite Hn, Ht, Hx. reflexivity.
Qed.

End QueryOnly.

Section Reflexive.
Context `{Fuzz}.
Import Float64.
Local Open Scope Q_scope.

Lemma weighted_near n t x :
  0 <= n <= 100 -> 0 <= t <= 100 -> 0 <= x <= 100 ->
  0.4 * n + 0.4 * t + 0.2 * x - (1 # 10000000000000) <= weighted n t x
  /\ weighted n t x <= 0.4 * n + 0.4 * t + 0.2 * x + (1 # 10000000000000).
Proof.
  intros Hn Ht Hx. pose proof (weighted_error n t x Hn Ht Hx) as E.
  apply Qabs_Qle_condition in E as [E1 E2]. split; lra.
Qed.

(** C3 (amended): the score of a skill against its own name is given no
    guarantee of its own.  With the three similarities of the normalized
    name in [0, 100], the score is within 1e-13 of their weighted sum
    (weights 0.4, 0.4, 0.2): it exceeds [HIGH_CONFIDENCE] when that sum is
    at least 75 + 1e-12 and stays below when the sum is at most
    75 - 1e-12; it is at most 60 when the trigger similarity is 0.  When
    the name is in normal form and the similarity functions give 100 to
    the name against itself and against the full text, the score is at
    least 60, at most [HIGH_CONFIDENCE] when the trigger similarity is at
    most 37.5, and above [HIGH_CONFIDENCE] when the trigger similarity is
    at least 37.5 + 1e-11. *)
Theorem reflexive_match_needs_triggers (skill : Skill.t) :
  let name := Skill.name skill in
  let q := default_process name in
  let name_score := partial_ratio q name in
  let trigger_score := token_set_ratio q (Skill.triggers skill) in
  let text_score := token_set_ratio q (Skill.full_text skill) in
  let exact := 0.4 * name_score + 0.4 * trigger_score + 0.2 * text_score in
  let score := calculate_relevance name skill in
  0 <= name_score <= 100 ->
  0 <= trigger_score <= 100 ->
  0 <= text_score <= 100 ->
  exact - (1 # 10000000000000) <= score <= exact + (1 # 10000000000000)
  /\ (75 + (1 # 1000000000000) <= exact -> HIGH_CONFIDENCE < score)
  /\ (exact <= 75 - (1 # 1000000000000) -> score < HIGH_CONFIDENCE)
  /\ (trigger_score == 0 -> score <= 60)
  /\ (default_process name = name ->
      partial_ratio name name == 100 ->
      token_set_ratio name (Skill.full_text skill) == 100 ->
      60 <= score
      /\ (trigger_score <= 75 # 2 -> score <= HIGH_CONFIDENCE)
      /\ ((75 # 2) + (1 # 100000000000) <= trigger_score ->
          HIGH_CONFIDENCE < score)).
Proof.
  intros name q name_score trigger_score text_score exact score Hn Ht Hx.
  assert (score = weighted name_score trigger_score text_score) as Hscore
    by reflexivity.
  destruct (weighted_near _ _ _ Hn Ht Hx) as [Hlow Hhigh].
  fold exact in Hlow, Hhigh. rewrite <- Hscore in Hlow, Hhigh.
  unfold HIGH_CONFIDENCE.
  split; [done|].
  split; [intros Hge; lra|]. split; [intros Hle; lra|]. split.
  { intros Et. rewrite Hscore.
    apply Qle_trans with (weighted 100 0 100); [|by vm_compute].
    apply weighted_mono; lra. }
  intros Hfix En Ex.
  assert (name_score == 100 /\ text_score == 100) as [En' Ex'].
  { unfold name_score, text_score, q. rewrite Hfix. done. }
  split; [|split].
  - rewrite Hscore.
    apply Qle_trans with (weighted 100 0 100); [by vm_compute|].
    apply weighted_mono; lra.
  - intros Hlow_t. rewrite Hscore.
    apply Qle_trans with (weighted 100 (75 # 2) 100); [|by vm_compute].
    apply weighted_mono; lra.
  - intros Hhigh_t. unfold exact in Hlow. lra.
Qed.

End Reflexive.

(** ** Trimming and splitting *)

Section TrimFacts.

Lemma lstrip_length s : (length (Str.lstrip s) <= length s)%nat.
Proof. induction s as [|c s IH]; simpl; [lia|]. destruct (Str.isspace c); simpl; lia. Qed.

(** A string [lstrip] leaves alone is empty or starts with no space. *)
Lemma lstrip_fixed s :
  Str.lstrip s = s <-> match s with [] => True | c :: _ => Str.isspace c = false end.
Proof.
  destruct s as [|c s]; [done|]. simpl. destruct (Str.isspace c) eqn:E.
  - split; [|done]. intros Heq. pose proof (lstrip_length s) as Hl.
    rewrite Heq in Hl. simpl in Hl. lia.
  - done.
Qed.

Lemma lstrip_idemp s : Str.lstrip (Str.lstrip s) = Str.lstrip s.
Proof.
  induction s as [|c s IH]; [done|]. simpl. destruct (Str.isspace c) eqn:E; [done|].
  simpl. by rewrite E.
Qed.

Lemma lstrip_snoc s c :
  Str.isspace c = false -> Str.lstrip (s ++ [c]) = Str.lstrip s ++ [c].
Proof.
  intros Hc. induction s as [|d s IH]; simpl; [by rewrite Hc|].
  by destruct (Str.isspace d).
Qed.

Lemma lstrip_spaces sp s :
  Forall (fun c => Str.isspace c = true) sp -> Str.lstrip (sp ++ s) = Str.lstrip s.
Proof. induction 1 as [|c sp Hc _ IH]; simpl; [done|]. by rewrite Hc. Qed.

Lemma rstrip_cons c s :
  Str.isspace c = false -> Str.rstrip (c :: s) = c :: Str.rstrip s.
Proof.
  intros Hc. unfold Str.rstrip. rewrite reverse_cons, lstrip_snoc by done.
  by rewrite reverse_app.
Qed.

Lemma rstrip_idemp s : Str.rstrip (Str.rstrip s) = Str.rstrip s.
Proof. unfold Str.rstrip. by rewrite reverse_involutive, lstrip_idemp. Qed.

Lemma rstrip_spaces s sp :
  Forall (fun c => Str.isspace c = true) sp -> Str.rstrip (s ++ sp) = Str.rstrip s.
Proof.
  intros Hsp. unfold Str.rstrip. rewrite reverse_app, lstrip_spaces; [done|].
  by apply Forall_reverse.
Qed.

Lemma lstrip_rstrip s : Str.lstrip s = s -> Str.lstrip (Str.rstrip s) = Str.rstrip s.
Proof.
  intros Hs. apply lstrip_fixed in Hs. destruct s as [|c s]; [done|].
  rewrite rstrip_cons by done. simpl. by rewrite Hs.
Qed.

Lemma strip_idemp s : Str.strip (Str.strip s) = Str.strip s.
Proof.
  unfold Str.strip. rewrite lstrip_rstrip by apply lstrip_idemp.
  apply rstrip_idemp.
Qed.

(** A trimmed string: [strip] leaves it alone. *)
Lemma strip_fixed s : Str.strip s = s <-> Str.lstrip s = s /\ Str.rstrip s = s.
Proof.
  split.
  - intros Hs. assert (Str.lstrip s = s) as Hl.
    { rewrite <- Hs at 1. unfold Str.strip.
      rewrite lstrip_rstrip by apply lstrip_idemp. done. }
    split; [done|]. unfold Str.strip in Hs. by rewrite Hl in Hs.
  - intros [Hl Hr]. unfold Str.strip. by rewrite Hl.
Qed.

Lemma strip_padded sp1 s sp2 :
  Forall (fun c => Str.isspace c = true) sp1 ->
  Forall (fun c => Str.isspace c = true) sp2 ->
  Str.strip s = s -> Str.strip (sp1 ++ s ++ sp2) = s.
Proof.
  intros H1 H2 [Hl Hr]%strip_fixed. unfold Str.strip.
  rewrite lstrip_spaces by done.
  destruct s as [|c s].
  - simpl. rewrite <- (app_nil_r sp2), lstrip_spaces by done. done.
  - apply lstrip_fixed in Hl. simpl. rewrite Hl.
    change (c :: s ++ sp2) with ((c :: s) ++ sp2). by rewrite rstrip_spaces.
Qed.

Lemma strip_head c s :
  Str.isspace c = false -> exists s', Str.strip (c :: s) = c :: s'.
Proof.
  intros Hc. unfold Str.strip. simpl. rewrite Hc, rstrip_cons by done. eauto.
Qed.

End TrimFacts.

Section SplitFacts.

Lemma split_nonempty sep s : Str.split sep s <> [].
Proof.
  destruct s as [|c s]; simpl; [done|].
  destruct (N.eqb c sep); [done|]. by destruct (Str.split sep s).
Qed.

Lemma split_clean sep s : sep ∉ s -> Str.split sep s = [s].
Proof.
  induction s as [|c s IH]; [done|]. intros Hs.
  apply not_elem_of_cons in Hs as [Hc Hs]. simpl.
  destruct (N.eqb_spec c sep) as [->|_]; [done|]. by rewrite IH.
Qed.

Lemma split_app sep a b :
  sep ∉ a -> Str.split sep (a ++ sep :: b) = a :: Str.split sep b.
Proof.
  induction a as [|c a IH]; intros Ha; simpl.
  - by rewrite N.eqb_refl.
  - apply not_elem_of_cons in Ha as [Hc Ha].
    destruct (N.eqb_spec c sep) as [->|_]; [done|]. by rewrite IH.
Qed.

Lemma split_length sep s :
  length (Str.split sep s) = S (length (filter (fun c => c = sep) s)).
Proof.
  induction s as [|c s IH]; [done|]. simpl. rewrite filter_cons.
  destruct (N.eqb_spec c sep) as [->|Hne].
  - rewrite decide_True by done. simpl. by rewrite IH.
  - rewrite decide_False by done.
    destruct (Str.split sep s) eqn:E; [by apply split_nonempty in E|].
    simpl in *. done.
Qed.

Lemma split_piece_clean sep s w : w ∈ Str.split sep s -> sep ∉ w.
Proof. intros Hw Hin. by destruct (split_elem sep s w sep Hw Hin). Qed.

End SplitFacts.

(** ** Loading the catalog *)

Section CatalogFacts.

#[local] Abbreviation u := Str.of_ascii.

Lemma strip_clean c s : c ∉ s -> c ∉ Str.strip s.
Proof. intros Hc Hin. by apply Hc, strip_elem. Qed.

Lemma parse_catalog_line_Some line s :
  parse_catalog_line line = Some s ->
  exists p0 p1 p2 p3 p4 rest,
    map Str.strip (Str.split PIPE line) = p0 :: p1 :: p2 :: p3 :: p4 :: rest
    /\ Skill.name s = Str.strip (Str.replace [BACKTICK] [] p1)
    /\ Skill.name s <> u "Skill"
    /\ Str.contains (u "---") (Skill.name s) = false
    /\ s = catalog_skill (Skill.name s) p2 p3 p4.
Proof.
  unfold parse_catalog_line.
  destruct (negb _); [done|]. cbv zeta.
  destruct (map Str.strip (Str.split PIPE line))
    as [|p0 [|p1 [|p2 [|p3 [|p4 rest]]]]]; try done.
  destruct (bool_decide _ || _) eqn:E; [done|]. intros [= <-].
  apply orb_false_iff in E as [E1 E2]. apply bool_decide_eq_false in E1.
  exists p0, p1, p2, p3, p4, rest. done.
Qed.

Lemma split_part_field line parts p :
  map Str.strip (Str.split PIPE line) = parts -> p ∈ parts -> row_field p.
Proof.
  intros <- (w & -> & Hw)%elem_of_list_map. split.
  - apply strip_clean. by eapply split_piece_clean.
  - apply strip_idemp.
Qed.

(** Every skill [load_catalog_skills] returns comes from a line of the
    file; its four fields are trimmed and hold no column separator, its
    name holds no backtick, is not the header's [Skill] and contains no
    [---] (the separator row), and its [full_text] is the four fields
    joined by single spaces. *)
Theorem loaded_skills_wellformed (lines : list str) (s : Skill.t) :
  s ∈ parse_catalog lines ->
  (exists line, line ∈ lines /\ parse_catalog_line line = Some s)
  /\ Forall row_field
       [Skill.name s; Skill.description s; Skill.tags s; Skill.triggers s]
  /\ (BACKTICK ∉ Skill.name s)
  /\ Skill.name s <> u "Skill"
  /\ Str.contains (u "---") (Skill.name s) = false
  /\ Skill.full_text s
     = Skill.name s ++ [SPACE] ++ Skill.description s ++ [SPACE]
       ++ Skill.tags s ++ [SPACE] ++ Skill.triggers s.
Proof.
  unfold parse_catalog. intros (line & Hline & Hs)%list_elem_of_omap.
  split; [eauto|].
  destruct (parse_catalog_line_Some _ _ Hs)
    as (p0 & p1 & p2 & p3 & p4 & rest & Hparts & Hname & Hskill & Hsep & ->).
  cbn [catalog_skill Skill.name Skill.description Skill.tags Skill.triggers
       Skill.full_text] in *.
  assert (row_field p1) as [Hp1 _].
  { eapply split_part_field; [exact Hparts|]. by repeat constructor. }
  split.
  { assert (forall p, p ∈ [p2; p3; p4] -> row_field p) as Hf.
    { intros p Hp. eapply split_part_field; [exact Hparts|].
      apply list_elem_of_In in Hp. apply list_elem_of_In. simpl in *.
      intuition. }
    repeat apply Forall_cons_2; try apply Forall_nil_2;
      try (apply Hf; by repeat constructor).
    split.
    - rewrite Hname. apply strip_clean. intros Hin.
      apply replace_elem in Hin as [Hin|Hin];
        [done|by apply elem_of_nil in Hin|done].
    - rewrite Hname. apply strip_idemp. }
  split.
  { rewrite Hname. apply strip_clean, replace_char_gone, not_elem_of_nil. }
  done.
Qed.

(** A line with fewer than four column separators gives no skill. *)
Theorem short_row_skipped (line : str) :
  (length (filter (fun c => c = PIPE) line) < 4)%nat ->
  parse_catalog_line line = None.
Proof.
  intros Hshort. destruct (parse_catalog_line line) as [s|] eqn:E; [|done].
  destruct (parse_catalog_line_Some _ _ E)
    as (p0 & p1 & p2 & p3 & p4 & rest & Hparts & _).
  apply (f_equal length) in Hparts.
  rewrite length_map, split_length in Hparts. simpl in Hparts. lia.
Qed.

Lemma rstrip_snoc s c : Str.isspace c = false -> Str.rstrip (s ++ [c]) = s ++ [c].
Proof.
  intros Hc. unfold Str.rstrip. rewrite reverse_app. simpl.
  rewrite Hc. by rewrite reverse_cons, reverse_involutive.
Qed.

Lemma replace_char_absent c s : c ∉ s -> Str.replace [c] [] s = s.
Proof. intros Hc. by apply (replace_absent [c] [] s c). Qed.

Lemma strip_quoted name :
  Str.strip (u " `" ++ name ++ u "` ") = [BACKTICK] ++ name ++ [BACKTICK].
Proof.
  change (u " `" ++ name ++ u "` ")
    with ([SPACE] ++ (BACKTICK :: name ++ [BACKTICK] ++ [SPACE])).
  unfold Str.strip. rewrite lstrip_spaces by (by repeat constructor).
  cbn [Str.lstrip]. change (Str.isspace BACKTICK) with false. cbv iota.
  change (BACKTICK :: name ++ [BACKTICK] ++ [SPACE])
    with ((BACKTICK :: name) ++ [BACKTICK] ++ [SPACE]).
  rewrite app_assoc, rstrip_spaces by (by repeat constructor).
  by rewrite rstrip_snoc.
Qed.

Lemma quoted_name name :
  (BACKTICK ∉ name) ->
  Str.replace [BACKTICK] [] ([BACKTICK] ++ name ++ [BACKTICK]) = name.
Proof.
  intros Hbt.
  assert (flat_map (fun x => if N.eqb BACKTICK x then [] else [x]) name = name)
    as Hid.
  { rewrite <- replace_char_map. by apply replace_char_absent. }
  rewrite replace_char_map, !flat_map_app, Hid.
  cbn [flat_map]. rewrite N.eqb_refl. simpl. by rewrite app_nil_r.
Qed.

Lemma strip_field f :
  Str.strip f = f -> Str.strip ([SPACE] ++ f ++ [SPACE]) = f.
Proof. intros Hf. by apply strip_padded; [repeat constructor..|]. Qed.

(** The row that renders four fields is read back as the skill of these
    fields: parsing is a left inverse of rendering, for every name that is
    not the header's and holds neither a backtick nor [---]. *)
Theorem catalog_row_round_trip (name description tags triggers : str) :
  Forall row_field [name; description; tags; triggers] ->
  (BACKTICK ∉ name) -> name <> u "Skill" ->
  Str.contains (u "---") name = false ->
  parse_catalog_line (catalog_row name description tags triggers)
  = Some (catalog_skill name description tags triggers).
Proof.
  intros Hf Hbt Hskill Hsep.
  apply Forall_cons in Hf as [[Hn1 Hn2] Hf].
  apply Forall_cons in Hf as [[Hd1 Hd2] Hf].
  apply Forall_cons in Hf as [[Ht1 Ht2] Hf].
  apply Forall_cons in Hf as [[Hg1 Hg2] _].
  unfold parse_catalog_line.
  assert (Str.starts_with [PIPE]
            (Str.strip (catalog_row name description tags triggers)) = true)
    as ->.
  { unfold catalog_row. change (u "| `") with (PIPE :: u " `").
    rewrite <- app_comm_cons.
    destruct (strip_head PIPE (u " `" ++ name ++ u "` | " ++ description
                ++ u " | " ++ tags ++ u " | " ++ triggers ++ u " |"
                ++ [NEWLINE])) as [s' ->]; [done|].
    done. }
  cbn [negb].
  assert (catalog_row name description tags triggers
          = [] ++ PIPE :: (u " `" ++ name ++ u "` ")
               ++ PIPE :: ([SPACE] ++ description ++ [SPACE])
               ++ PIPE :: ([SPACE] ++ tags ++ [SPACE])
               ++ PIPE :: ([SPACE] ++ triggers ++ [SPACE])
               ++ PIPE :: [NEWLINE]) as ->.
  { unfold catalog_row. by rewrite <- !app_assoc. }
  assert (forall f, (PIPE ∉ f) -> PIPE ∉ [SPACE] ++ f ++ [SPACE]) as Hpad.
  { intros f Hf. rewrite !elem_of_app, !list_elem_of_singleton.
    intros [Hin|[Hin|Hin]]; done. }
  rewrite split_app by apply not_elem_of_nil.
  rewrite split_app.
  2:{ rewrite !elem_of_app. intros [Hin|[Hin|Hin]]; [|done|];
        apply list_elem_of_In in Hin; simpl in Hin; intuition discriminate. }
  rewrite !split_app by auto.
  rewrite split_clean.
  2:{ rewrite list_elem_of_singleton. done. }
  cbn [map]. rewrite strip_quoted, quoted_name, Hn2 by done.
  rewrite !strip_field by done.
  rewrite bool_decide_eq_false_2 by done. rewrite Hsep. done.
Qed.

End CatalogFacts.

(** ** Loading the bundles *)

Section BundleFacts.

#[local] Abbreviation u := Str.of_ascii.

Lemma second_part_guarded line :
  Str.starts_with (u "- `") line = true -> is_Some (second_part line).
Proof.
  change (u "- `") with [HYPHEN; SPACE; BACKTICK].
  destruct line as [|c0 [|c1 [|c2 rest]]]; cbn [Str.starts_with];
    rewrite ?andb_false_r; try done.
  rewrite andb_true_r.
  intros [H0 [H1 H2]%andb_prop]%andb_prop.
  apply N.eqb_eq in H0 as <-. apply N.eqb_eq in H1 as <-.
  apply N.eqb_eq in H2 as <-. unfold second_part.
  change (Str.split BACKTICK (HYPHEN :: SPACE :: BACKTICK :: rest))
    with ([HYPHEN; SPACE] :: Str.split BACKTICK rest).
  destruct (Str.split BACKTICK rest) eqn:E; [by apply split_nonempty in E|].
  by eexists.
Qed.

Lemma bundle_step_total state line : is_Some (bundle_step state line).
Proof.
  destruct state as [bundles [key|]]; unfold bundle_step;
    destruct (Str.starts_with (u "## ") (Str.strip line)); try by eexists.
  destruct (Str.starts_with (u "- `") (Str.strip line)) eqn:E.
  - destruct (second_part_guarded _ E) as [x ->]. by eexists.
  - destruct (_ && _); by eexists.
Qed.

Lemma bundle_loop_total lines state : is_Some (bundle_loop lines state).
Proof.
  revert state. induction lines as [|line lines IH]; intros state; simpl.
  - by eexists.
  - destruct (bundle_step_total state line) as [state' ->]. apply IH.
Qed.

(** [load_skill_bundles] returns the empty map when the file is missing,
    and a map for every file it can read, whatever the lines hold: the
    index 1 of line 105 is taken only on a line that holds a backtick.
    It raises exactly when the file cannot be read. *)
Theorem load_skill_bundles_raises_iff_unreadable :
  load_skill_bundles Missing = Some []
  /\ (forall lines,
        exists bundles, load_skill_bundles (Lines lines) = Some bundles)
  /\ (forall file, load_skill_bundles file = None <-> file = Unreadable).
Proof.
  assert (forall lines,
            exists bundles, load_skill_bundles (Lines lines) = Some bundles)
    as Hlines.
  { intros lines. cbn [load_skill_bundles].
    destruct (bundle_loop_total lines ([], None)) as [state ->].
    by eexists. }
  split; [done|]. split; [done|]. intros file. split.
  - destruct file as [| |lines]; [done|done|].
    destruct (Hlines lines) as [bundles ->]. done.
  - by intros ->.
Qed.

Lemma keys_modify {V} (f : V -> V) k (d : dict V) :
  Dict.keys (Dict.modify f k d) = Dict.keys d.
Proof.
  unfold Dict.keys. induction d as [|[k' v] d IH]; [done|]. simpl.
  case_decide; simpl; [done|]. by rewrite IH.
Qed.

Lemma Forall_setitem {V} (P : str * V -> Prop) k v (d : dict V) :
  P (k, v) -> Forall P d -> Forall P (Dict.setitem k v d).
Proof.
  intros Hkv. induction 1 as [|[k' v'] d Hx Hd IH]; simpl.
  - by repeat constructor.
  - case_decide; constructor; done.
Qed.

Lemma Forall_modify {V} (P : str * V -> Prop) (f : V -> V) k (d : dict V) :
  (forall k' v, P (k', v) -> P (k', f v)) ->
  Forall P d -> Forall P (Dict.modify f k d).
Proof.
  intros Hf. induction 1 as [|[k' v'] d Hx Hd IH]; simpl; [done|].
  case_decide; constructor; auto.
Qed.

Lemma bundle_step_inv state line state' :
  bundles_inv state -> bundle_step state line = Some state' ->
  bundles_inv state'.
Proof.
  destruct state as [bundles cur]. unfold bundles_inv. cbn [fst snd].
  intros (Hnd & Hname & Hcur). unfold bundle_step.
  destruct (Str.starts_with (u "## ") (Str.strip line)).
  { intros [= <-]. cbn [fst snd]. split; [by apply setitem_NoDup|].
    split; [by apply Forall_setitem|]. intros key [= <-].
    rewrite keys_setitem. case_decide; [done|].
    apply elem_of_app. right. by constructor. }
  destruct cur as [key|]; [|intros [= <-]; done].
  destruct (Str.starts_with (u "- `") (Str.strip line)).
  { destruct (second_part (Str.strip line)) as [skill|]; [|done].
    intros [= <-]. cbn [fst snd]. rewrite keys_modify.
    split; [done|]. split; [by apply Forall_modify|done]. }
  destruct (_ && _); intros [= <-]; [|done].
  cbn [fst snd]. rewrite keys_modify.
  split; [done|]. split; [by apply Forall_modify|done].
Qed.

Lemma bundle_loop_inv lines state state' :
  bundles_inv state -> bundle_loop lines state = Some state' ->
  bundles_inv state'.
Proof.
  revert state. induction lines as [|line lines IH]; intros state Hinv; simpl.
  - by intros [= <-].
  - destruct (bundle_step state line) as [state1|] eqn:E; [|done]. simpl.
    apply IH. by eapply bundle_step_inv.
Qed.

(** The map [load_skill_bundles] returns holds no name twice, and every
    bundle under its own name. *)
Theorem loaded_bundles_keyed (file : file_state)
    (bundles : dict Bundle.t) :
  load_skill_bundles file = Some bundles ->
  NoDup (Dict.keys bundles)
  /\ forall key bundle,
       Dict.get key bundles = Some bundle -> Bundle.name bundle = key.
Proof.
  intros Hload.
  assert (bundles_inv (bundles, None)) as (Hnd & Hname & _).
  { destruct file as [| |lines]; simpl in Hload.
    - injection Hload as <-. split; [constructor|]. split; [constructor|done].
    - done.
    - destruct (bundle_loop lines ([], None)) as [[b cur]|] eqn:E; [|done].
      injection Hload as <-.
      destruct (bundle_loop_inv lines ([], None) (b, cur)) as (H1 & H2 & _);
        [|done|done].
      split; [constructor|]. split; [constructor|done]. }
  split; [done|]. intros key bundle Hget%get_Some_elem.
  by apply (proj1 (Forall_forall _ _) Hname (key, bundle)).
Qed.

Lemma bundle_loop_app l1 l2 state :
  bundle_loop (l1 ++ l2) state
  = (state' ← bundle_loop l1 state; bundle_loop l2 state').
Proof.
  revert state. induction l1 as [|line l1 IH]; intros state; simpl; [done|].
  destruct (bundle_step state line); simpl; [apply IH|done].
Qed.

(** Before the first header nothing is recorded: the lines that precede
    it can be dropped. *)
Theorem lines_before_first_header_ignored (before rest : list str) :
  Forall (fun line => Str.starts_with (u "## ") (Str.strip line) = false)
         before ->
  load_skill_bundles (Lines (before ++ rest))
  = load_skill_bundles (Lines rest).
Proof.
  intros Hbefore. unfold load_skill_bundles. rewrite bundle_loop_app.
  assert (bundle_loop before ([], None) = Some ([], None)) as ->; [|done].
  induction Hbefore as [|line before Hline _ IH]; [done|].
  cbn [bundle_loop]. unfold bundle_step at 1. rewrite Hline. apply IH.
Qed.

Lemma lstrip_app s t : Str.lstrip s <> [] -> Str.lstrip (s ++ t) = Str.lstrip s ++ t.
Proof.
  induction s as [|c s IH]; [done|]. simpl. destruct (Str.isspace c); auto.
Qed.

Lemma rstrip_app s t : Str.rstrip t <> [] -> Str.rstrip (s ++ t) = s ++ Str.rstrip t.
Proof.
  unfold Str.rstrip. intros Ht. rewrite reverse_app, lstrip_app.
  - by rewrite reverse_app, reverse_involutive.
  - intros E. apply Ht. by rewrite E.
Qed.

Lemma strip_prefixed c p s :
  Str.isspace c = false -> Str.strip s = s -> s <> [] ->
  Str.strip (c :: p ++ s) = c :: p ++ s.
Proof.
  intros Hc [_ Hr]%strip_fixed Hne. unfold Str.strip. simpl. rewrite Hc.
  change (c :: p ++ s) with ((c :: p) ++ s).
  rewrite rstrip_app; by rewrite Hr.
Qed.

Lemma replace_from_absent old new s :
  Str.contains old s = false -> Str.replace_from old new 0 s = s.
Proof.
  induction s as [|c s IH]; [done|]. cbn [Str.contains Str.replace_from].
  intros [Hs Hc]%orb_false_iff. rewrite Hs. by rewrite IH.
Qed.

Lemma header_line name :
  header_name name ->
  let line := Str.strip (bundle_header name) in
  Str.starts_with (u "## ") line = true
  /\ Str.strip (Str.replace (u "## ") [] line) = name.
Proof.
  intros (Htrim & Hne & Hmark). cbv zeta. unfold bundle_header.
  change (u "## ") with [35; 35; 32]%N.
  change ([35; 35; 32]%N ++ name) with (35%N :: [35; 32]%N ++ name).
  rewrite strip_prefixed by done. split; [done|].
  change (Str.replace [35; 35; 32]%N [] (35%N :: [35; 32]%N ++ name))
    with (Str.replace_from [35; 35; 32]%N [] 0 name).
  by rewrite replace_from_absent.
Qed.

Lemma text_line_step line :
  text_line line ->
  Str.strip line = line
  /\ Str.starts_with (u "## ") line = false
  /\ Str.starts_with (u "- `") line = false
  /\ Str.nonempty line && negb (Str.starts_with (u "-") line)
     && negb (Str.starts_with (u "#") line) = true.
Proof.
  intros (Htrim & Hne & Hitem & Hhead). split; [done|].
  destruct line as [|c line]; [done|]. rewrite Hitem, Hhead.
  change (u "## ") with [35; 35; 32]%N. change (u "- `") with [45; 32; 96]%N.
  change (u "-") with [45%N] in Hitem. change (u "#") with [35%N] in Hhead.
  cbn [Str.starts_with] in *. rewrite andb_true_r in Hitem, Hhead.
  by rewrite Hitem, Hhead.
Qed.

Lemma skill_line_step skill :
  (BACKTICK ∉ skill) ->
  let line := Str.strip (bundle_skill_line skill) in
  Str.starts_with (u "## ") line = false
  /\ Str.starts_with (u "- `") line = true
  /\ second_part line = Some skill.
Proof.
  intros Hbt. cbv zeta. unfold bundle_skill_line.
  change (u "- `" ++ skill ++ u "`")
    with (45%N :: [32; 96]%N ++ skill ++ [96%N]).
  assert (Str.strip (45%N :: [32; 96]%N ++ skill ++ [96%N])
          = 45%N :: [32; 96]%N ++ skill ++ [96%N]) as ->.
  { unfold Str.strip. simpl.
    change (45 :: 32 :: 96 :: skill ++ [96])%N
      with ((45 :: 32 :: 96 :: skill) ++ [96])%N.
    by rewrite rstrip_snoc. }
  split; [done|]. split; [done|]. unfold second_part.
  change (Str.split BACKTICK (45%N :: [32; 96]%N ++ skill ++ [96%N]))
    with ([45; 32]%N :: Str.split BACKTICK (skill ++ BACKTICK :: [])).
  by rewrite split_app.
Qed.

Lemma modify_last {V} (f : V -> V) k v (d : dict V) :
  k ∉ Dict.keys d -> Dict.modify f k (d ++ [(k, v)]) = d ++ [(k, f v)].
Proof.
  induction d as [|[k' v'] d IH]; simpl.
  - intros _. by rewrite decide_True.
  - intros [Hk Hd]%not_elem_of_cons. rewrite decide_False by done.
    by rewrite IH.
Qed.

Lemma text_lines_loop texts bundles key description skills :
  Forall text_line texts -> key ∉ Dict.keys bundles ->
  bundle_loop texts
    (bundles ++ [(key, Bundle.mk key description skills)], Some key)
  = Some (bundles ++ [(key, Bundle.mk key
                              (description
                               ++ concat (map (fun l => l ++ [SPACE]) texts))
                              skills)],
          Some key).
Proof.
  intros Htexts Hkey. revert description.
  induction Htexts as [|line texts Hline _ IH]; intros description.
  - simpl. by rewrite app_nil_r.
  - apply text_line_step in Hline as (Htrim & Hhead & Hitem & Htext).
    cbn [bundle_loop]. unfold bundle_step at 1.
    rewrite Htrim, Hhead, Hitem, Htext. cbn [mbind option_bind].
    rewrite modify_last by done. cbn [Bundle.name Bundle.description Bundle.skills].
    rewrite IH. cbn [map concat]. by rewrite <- !app_assoc.
Qed.

Lemma skill_lines_loop names bundles key description skills :
  Forall (fun skill => BACKTICK ∉ skill) names -> key ∉ Dict.keys bundles ->
  bundle_loop (map bundle_skill_line names)
    (bundles ++ [(key, Bundle.mk key description skills)], Some key)
  = Some (bundles ++ [(key, Bundle.mk key description (skills ++ names))],
          Some key).
Proof.
  intros Hnames Hkey. revert skills.
  induction Hnames as [|name names Hname _ IH]; intros skills.
  - simpl. by rewrite app_nil_r.
  - apply skill_line_step in Hname as (Hhead & Hitem & Hpart).
    cbn [map bundle_loop]. unfold bundle_step at 1.
    rewrite Hhead, Hitem, Hpart. cbn [mbind option_bind].
    rewrite modify_last by done. cbn [Bundle.name Bundle.description Bundle.skills].
    rewrite IH. by rewrite <- !app_assoc.
Qed.

Lemma block_loop b bundles cur :
  wellformed_block b -> block_name b ∉ Dict.keys bundles ->
  bundle_loop (block_lines b) (bundles, cur)
  = Some (bundles ++ [(block_name b, block_bundle b)], Some (block_name b)).
Proof.
  intros (Hname & Htexts & Hskills) Hkey. unfold block_lines.
  apply header_line in Hname as [Hhead Hn]. cbn [bundle_loop].
  unfold bundle_step at 1. rewrite Hhead, Hn. cbn [mbind option_bind].
  rewrite setitem_fresh by done. rewrite bundle_loop_app.
  rewrite text_lines_loop by done. cbn [mbind option_bind].
  by rewrite skill_lines_loop.
Qed.

Lemma blocks_loop blocks bundles cur :
  Forall wellformed_block blocks ->
  NoDup (Dict.keys bundles ++ map block_name blocks) ->
  exists cur',
    bundle_loop (flat_map block_lines blocks) (bundles, cur)
    = Some (bundles ++ map (fun b => (block_name b, block_bundle b)) blocks,
            cur').
Proof.
  intros Hwf. revert bundles cur.
  induction Hwf as [|b blocks Hb _ IH]; intros bundles cur Hnd.
  - exists cur. simpl. by rewrite app_nil_r.
  - cbn [flat_map map]. rewrite bundle_loop_app.
    assert (block_name b ∉ Dict.keys bundles) as Hkey.
    { apply NoDup_app in Hnd as (_ & Hdisj & _). intros Hin.
      apply (Hdisj _ Hin). by constructor. }
    rewrite block_loop by done. cbn [mbind option_bind].
    destruct (IH (bundles ++ [(block_name b, block_bundle b)])
                 (Some (block_name b))) as [cur' ->].
    { unfold Dict.keys. rewrite map_app. cbn [map fst].
      rewrite <- app_assoc. done. }
    exists cur'. by rewrite <- app_assoc.
Qed.

(** A bundle file made of well-formed blocks with distinct names is read
    back as these blocks, in their order: the skills of a block in their
    order, its description the lines joined, each followed by a space. *)
Theorem bundle_blocks_round_trip (blocks : list block) :
  Forall wellformed_block blocks -> NoDup (map block_name blocks) ->
  load_skill_bundles (Lines (flat_map block_lines blocks))
  = Some (map (fun b => (block_name b, block_bundle b)) blocks).
Proof.
  intros Hwf Hnd. unfold load_skill_bundles.
  destruct (blocks_loop blocks [] None Hwf Hnd) as [cur' ->]. done.
Qed.

End BundleFacts.

(** ** Reading and cleaning the input *)

Section PathFacts.

Lemma size_list_to_set_le (l : list N) :
  (size (list_to_set l : gset N) <= length l)%nat.
Proof.
  induction l as [|x l IH]; [by rewrite list_to_set_nil, size_empty|].
  rewrite list_to_set_cons. cbn [length].
  destruct (decide (x ∈ (list_to_set l : gset N))) as [Hin|Hout].
  - rewrite (subseteq_union_1_L {[x]} (list_to_set l : gset N))
      by (by apply singleton_subseteq_l). lia.
  - rewrite size_union by (by apply disjoint_singleton_l).
    rewrite size_singleton. lia.
Qed.

Lemma size_list_to_set_NoDup (l : list N) :
  size (list_to_set l : gset N) = length l -> NoDup l.
Proof.
  induction l as [|x l IH]; [constructor|].
  rewrite list_to_set_cons. cbn [length].
  pose proof (size_list_to_set_le l) as Hle.
  destruct (decide (x ∈ (list_to_set l : gset N))) as [Hin|Hout].
  - rewrite (subseteq_union_1_L {[x]} (list_to_set l : gset N))
      by (by apply singleton_subseteq_l). lia.
  - rewrite size_union by (by apply disjoint_singleton_l).
    rewrite size_singleton.
    intros Hsize. constructor; [by rewrite elem_of_list_to_set in Hout|].
    apply IH. lia.
Qed.

Lemma looks_like_path_iff source :
  looks_like_path source = true
  <-> NoDup source /\ forall c, c ∈ source -> c ∉ INVALID_PATH_CHARS.
Proof.
  unfold looks_like_path. cbv zeta. rewrite bool_decide_eq_true.
  set (S := list_to_set source : gset N).
  set (I := list_to_set INVALID_PATH_CHARS : gset N).
  pose proof (size_list_to_set_le source) as Hle. fold S in Hle.
  assert (size (S ∖ I) <= size S)%nat as Hsub
    by (by apply subseteq_size, subseteq_difference_l).
  split.
  - intros Hsize. split.
    + apply size_list_to_set_NoDup. fold S. lia.
    + intros c Hc Hbad.
      assert (S ∖ I ≡ S) as Heq.
      { apply set_subseteq_size_equiv; [by apply subseteq_difference_l|lia]. }
      assert (c ∈ S ∖ I) as Hin.
      { apply Heq. unfold S. by apply elem_of_list_to_set. }
      apply elem_of_difference in Hin as [_ Hin]. apply Hin.
      unfold I. by apply elem_of_list_to_set.
  - intros [Hnd Hclean].
    replace (S ∖ I) with S.
    + unfold S. by apply size_list_to_set.
    + apply set_eq. intros c. rewrite elem_of_difference. unfold S, I.
      rewrite !elem_of_list_to_set.
      split; [intros Hc; split; [done|by apply Hclean]|by intros [Hc _]].
Qed.

(** A source in which a character occurs twice, or one of the characters
    of line 120 occurs, is never looked up in the file system: it is taken
    as the text itself, with its links cleaned. *)
Theorem repeated_character_never_read (fs : str -> read_result)
    (source : str) :
  ~ NoDup source \/ (exists c, c ∈ source /\ c ∈ INVALID_PATH_CHARS) ->
  get_clean_input_text fs source = Some (strip_links source).
Proof.
  intros Hnot. unfold get_clean_input_text.
  destruct (looks_like_path source) eqn:E; [|done].
  apply looks_like_path_iff in E as [Hnd Hclean].
  destruct Hnot as [Hdup|(c & Hc & Hbad)]; [done|]. by apply Hclean in Hc.
Qed.

(** A source without a repeated character and without a character of
    line 120 is looked up in the file system: the content of a regular
    file replaces it, a missing file or an [OSError] leaves it as the
    text, and any other exception escapes; then the links are cleaned. *)
Theorem path_like_source_read (fs : str -> read_result) (source : str) :
  NoDup source -> (forall c, c ∈ source -> c ∉ INVALID_PATH_CHARS) ->
  get_clean_input_text fs source
  = match fs source with
    | Content text => Some (strip_links text)
    | NotAFile | RaisesOSError => Some (strip_links source)
    | RaisesOther => None
    end.
Proof.
  intros Hnd Hclean. unfold get_clean_input_text.
  rewrite (proj2 (looks_like_path_iff source)) by done.
  by destruct (fs source).
Qed.

End PathFacts.

Section LinkFacts.

Lemma span_until_spec stop s :
  s = (span_until stop s).1 ++ (span_until stop s).2
  /\ (stop ∉ (span_until stop s).1)
  /\ ((span_until stop s).2 = []
      \/ exists r, (span_until stop s).2 = stop :: r).
Proof.
  induction s as [|c s (IH1 & IH2 & IH3)]; simpl.
  - split; [done|]. split; [apply not_elem_of_nil|by left].
  - destruct (N.eqb_spec c stop) as [->|Hne]; simpl.
    + split; [done|]. split; [apply not_elem_of_nil|right; eauto].
    + destruct (span_until stop s) as [p r]. simpl in *.
      split; [by rewrite IH1 at 1|]. split; [|done].
      apply not_elem_of_cons. split; [congruence|done].
Qed.

Lemma span_until_app stop p r :
  stop ∉ p -> span_until stop (p ++ stop :: r) = (p, stop :: r).
Proof.
  induction p as [|c p IH]; simpl.
  - intros _. by rewrite N.eqb_refl.
  - intros [Hc Hp]%not_elem_of_cons.
    destruct (N.eqb_spec c stop) as [->|_]; [done|]. by rewrite IH.
Qed.

(** [link_at] finds exactly the links that start the string. *)
Lemma link_at_Some s label n :
  link_at s = Some (label, n)
  <-> exists target rest,
        s = markdown_link label target ++ rest
        /\ label <> [] /\ (RBRACKET ∉ label)
        /\ target <> [] /\ (RPAREN ∉ target)
        /\ n = (length label + length target + 4)%nat.
Proof.
  split.
  - destruct s as [|c s1]; [done|]. cbn [link_at].
    destruct (N.eqb_spec c LBRACKET) as [->|_]; [|done].
    destruct (span_until_spec RBRACKET s1) as (E1 & Hl & Hr).
    destruct (span_until RBRACKET s1) as [lab s2]. simpl in E1, Hl, Hr.
    destruct lab as [|l0 lab]; [done|].
    destruct Hr as [->|[r ->]]; [done|].
    destruct r as [|c2 s3]; [done|].
    destruct (N.eqb_spec c2 LPAREN) as [->|_]; [|done].
    destruct (span_until_spec RPAREN s3) as (E2 & Ht & Hr).
    destruct (span_until RPAREN s3) as [tgt s4]. simpl in E2, Ht, Hr.
    destruct tgt as [|t0 tgt]; [done|].
    destruct Hr as [->|[r ->]]; [done|].
    intros [= <- <-]. exists (t0 :: tgt), r. subst s1 s3.
    unfold markdown_link. split; [by rewrite <- !app_assoc|]. done.
  - intros (target & rest & -> & Hl & Hlc & Ht & Htc & ->).
    unfold markdown_link. cbn [app link_at]. rewrite N.eqb_refl.
    rewrite <- !app_assoc. cbn [app]. rewrite span_until_app by done.
    destruct label as [|l0 label]; [done|]. rewrite N.eqb_refl.
    rewrite <- app_assoc. cbn [app].
    rewrite span_until_app by done. by destruct target.
Qed.

Lemma strip_links_from_skip a b :
  strip_links_from (length a) (a ++ b) = strip_links_from 0 b.
Proof. induction a as [|c a IH]; [done|]. simpl. apply IH. Qed.

Lemma strip_links_link label target rest :
  label <> [] -> (RBRACKET ∉ label) -> target <> [] -> (RPAREN ∉ target) ->
  strip_links (markdown_link label target ++ rest) = label ++ strip_links rest.
Proof.
  intros Hl Hlc Ht Htc. unfold strip_links.
  assert (link_at (markdown_link label target ++ rest)
          = Some (label, (length label + length target + 4)%nat)) as Hat.
  { apply link_at_Some. exists target, rest. done. }
  unfold markdown_link in *.
  change (([LBRACKET] ++ label ++ [RBRACKET; LPAREN] ++ target ++ [RPAREN])
          ++ rest)
    with (LBRACKET :: (label ++ [RBRACKET; LPAREN] ++ target ++ [RPAREN])
                      ++ rest) in *.
  cbn [strip_links_from]. rewrite Hat. f_equal.
  replace (length label + length target + 4 - 1)%nat
    with (length (label ++ [RBRACKET; LPAREN] ++ target ++ [RPAREN]))
    by (rewrite !length_app; simpl; lia).
  apply strip_links_from_skip.
Qed.

Lemma link_at_bracket c s : c <> LBRACKET -> link_at (c :: s) = None.
Proof. intros Hc. cbn [link_at]. by destruct (N.eqb_spec c LBRACKET). Qed.

Lemma strip_links_plain before rest :
  (LBRACKET ∉ before) ->
  strip_links (before ++ rest) = before ++ strip_links rest.
Proof.
  unfold strip_links. induction before as [|c before IH]; [done|].
  intros [Hc Hb]%not_elem_of_cons. cbn [app strip_links_from].
  rewrite link_at_bracket by done. by rewrite IH.
Qed.

(** A markdown link is replaced by its label: the text before the link,
    which holds no opening bracket, and the label are kept, the target and
    the four marks are dropped, and the cleaning goes on after the link. *)
Theorem link_replaced_by_label (before label target rest : str) :
  (LBRACKET ∉ before) ->
  label <> [] -> (RBRACKET ∉ label) -> target <> [] -> (RPAREN ∉ target) ->
  strip_links (before ++ markdown_link label target ++ rest)
  = before ++ label ++ strip_links rest.
Proof.
  intros Hb Hl Hlc Ht Htc. rewrite strip_links_plain by done.
  by rewrite strip_links_link.
Qed.

Lemma link_at_marks s label n :
  link_at s = Some (label, n) ->
  LBRACKET ∈ s /\ RBRACKET ∈ s /\ LPAREN ∈ s /\ RPAREN ∈ s.
Proof.
  intros (target & rest & -> & _)%link_at_Some. unfold markdown_link.
  repeat split; apply list_elem_of_In; rewrite !in_app_iff; simpl;
    intuition auto.
Qed.

(** A text that lacks one of the four marks of a link is left as it is. *)
Theorem text_without_link_unchanged (text : str) :
  (LBRACKET ∉ text) \/ (RBRACKET ∉ text) \/ (LPAREN ∉ text)
  \/ (RPAREN ∉ text) ->
  strip_links text = text.
Proof.
  unfold strip_links. induction text as [|c text IH]; [done|].
  intros Hmiss. cbn [strip_links_from].
  destruct (link_at (c :: text)) as [[label n]|] eqn:E.
  - apply link_at_marks in E as (H1 & H2 & H3 & H4).
    by destruct Hmiss as [Hm|[Hm|[Hm|Hm]]].
  - rewrite IH; [done|].
    destruct Hmiss as [Hm|[Hm|[Hm|Hm]]];
      apply not_elem_of_cons in Hm as [_ Hm]; auto.
Qed.

Lemma strip_links_sublist_length n :
  forall s, (length s <= n)%nat -> strip_links s `sublist_of` s.
Proof.
  unfold strip_links.
  induction n as [|n IH]; intros s Hlen.
  - destruct s; [done|simpl in Hlen; lia].
  - destruct s as [|c s']; [done|]. cbn [strip_links_from].
    destruct (link_at (c :: s')) as [[label k]|] eqn:E.
    + apply link_at_Some in E as (target & rest & Hs & _ & _ & _ & _ & ->).
      unfold markdown_link in Hs.
      change (([LBRACKET] ++ label ++ [RBRACKET; LPAREN] ++ target ++ [RPAREN])
              ++ rest)
        with (LBRACKET :: (label ++ [RBRACKET; LPAREN] ++ target ++ [RPAREN])
                          ++ rest) in Hs.
      injection Hs as -> ->.
      replace (length label + length target + 4 - 1)%nat
        with (length (label ++ [RBRACKET; LPAREN] ++ target ++ [RPAREN]))
        by (rewrite !length_app; simpl; lia).
      rewrite strip_links_from_skip. rewrite <- !app_assoc.
      apply sublist_cons. apply sublist_app; [done|].
      repeat first [apply sublist_inserts_l | apply sublist_cons].
      apply IH. simpl in Hlen. rewrite !length_app in Hlen. lia.
    + apply sublist_skip. apply IH. simpl in Hlen. lia.
Qed.

(** Cleaning only deletes characters: what is left is the text with some
    characters taken out, in the same order; so it is never longer. *)
Theorem strip_links_only_deletes (text : str) :
  strip_links text `sublist_of` text
  /\ (length (strip_links text) <= length text)%nat.
Proof.
  assert (strip_links text `sublist_of` text) as Hsub
    by (by apply (strip_links_sublist_length (length text))).
  split; [done|]. by apply sublist_length.
Qed.

End LinkFacts.

(** ** Entities, noise filter and search, further *)

Section EntityFacts.
Context `{SetOrder}.

(** Every entity [extract_search_entities] returns is non-empty and
    trimmed, and the list holds no entity twice. *)
Theorem entities_trimmed_and_unique (text : str) :
  NoDup (extract_search_entities text)
  /\ forall e, e ∈ extract_search_entities text ->
       e <> [] /\ Str.strip e = e.
Proof.
  split; [apply set_iter_NoDup|]. intros e He.
  apply extract_search_entities_elem, entity_lines_elem in He
    as (line & _ & -> & Hne).
  split; [done|apply strip_idemp].
Qed.

End EntityFacts.

Section FilterFacts.
Context `{Fuzz}.
Local Open Scope Q_scope.

Lemma filter_sublist_impl {A} (P Q : A -> Prop) `{forall x, Decision (P x)}
    `{forall x, Decision (Q x)} (l : list A) :
  (forall x, P x -> Q x) -> filter P l `sublist_of` filter Q l.
Proof.
  intros HPQ. induction l as [|x l IH]; [done|]. rewrite !filter_cons.
  destruct (decide (P x)) as [HP|HP].
  - rewrite decide_True by auto. by apply sublist_skip.
  - case_decide; [by apply sublist_cons|done].
Qed.

Lemma above_noise_app skills more entity :
  above_noise skills entity = true ->
  above_noise (skills ++ more) entity = true.
Proof.
  unfold above_noise. rewrite existsb_app. intros ->. done.
Qed.

(** Adding skills to the catalog never makes the noise filter drop an
    entity it kept: what is valid for a catalog is valid, in the same
    order, for every catalog that extends it. *)
Theorem filter_valid_entities_monotone (entities : list str)
    (skills more : list Skill.t) :
  exists valid valid',
    filter_valid_entities entities skills = Some valid
    /\ filter_valid_entities entities (skills ++ more) = Some valid'
    /\ valid `sublist_of` valid'.
Proof.
  unfold filter_valid_entities. rewrite !filter_valid_loop_filter.
  do 2 eexists. split; [done|]. split; [done|]. cbn [app].
  apply filter_sublist_impl. intros e. apply above_noise_app.
Qed.

(** The noise filter is idempotent: filtering its result again changes
    nothing. *)
Theorem filter_valid_entities_idempotent (entities valid : list str)
    (skills : list Skill.t) :
  filter_valid_entities entities skills = Some valid ->
  filter_valid_entities valid skills = Some valid.
Proof.
  unfold filter_valid_entities. rewrite !filter_valid_loop_filter.
  intros [= <-]. cbn [app]. f_equal.
  induction entities as [|e entities IH]; [done|]. rewrite filter_cons.
  case_decide as He; [|done]. rewrite filter_cons, decide_True by done.
  by rewrite IH.
Qed.

(** For a list of distinct entities, as [main] passes, the Result Set has
    one entry per entity, in the order of the list; each entry holds
    [top_n] matches, or the whole catalog when it is shorter; for a
    negative [top_n] it holds the catalog but for the last [-top_n]. *)
Theorem search_skills_shape (entities : list str) (skills : list Skill.t)
    (top_n : Z) :
  NoDup entities ->
  Dict.keys (search_skills entities skills top_n) = entities
  /\ Forall (fun matches =>
               length matches
               = if (0 <=? top_n)%Z
                 then Nat.min (Z.to_nat top_n) (length skills)
                 else (length skills - Z.to_nat (- top_n))%nat)
            (Dict.values (search_skills entities skills top_n)).
Proof.
  intros Hnd. unfold search_skills.
  rewrite (fold_setitem_NoDup
             (fun e => slice_to top_n (sort_desc (score_all e skills))))
    by (done || intros k _; apply not_elem_of_nil).
  cbn [app]. unfold Dict.keys, Dict.values. rewrite !map_map. cbn [fst snd].
  split; [apply map_id|]. apply Forall_forall. intros matches Hm.
  apply elem_of_list_map in Hm as (e & -> & _).
  assert (length (sort_desc (score_all e skills)) = length skills) as Hlen.
  { rewrite (Permutation_length (sort_desc_Permutation _)).
    unfold score_all. by rewrite length_map. }
  unfold slice_to. destruct (0 <=? top_n)%Z; rewrite length_take, Hlen; lia.
Qed.

End FilterFacts.

Section BundleExpansion.

(** Without a match above the bundle trigger, and without bundles,
    nothing is recommended from the bundles. *)
Theorem no_extras_without_trigger (results : dict (list SearchResult.t))
    (bundles : dict Bundle.t) :
  bundles = []
  \/ Forall (fun scan => (SearchResult.score scan <= BUNDLE_TRIGGER)%Q)
            (all_scans results) ->
  find_bundled_skills results bundles = ∅.
Proof.
  intros Hnone. apply set_eq. intros x. rewrite find_bundled_skills_elem.
  split; [|by intros ?%not_elem_of_empty].
  intros (bundle & Hb & _ & _ & y & _ & Hy). exfalso.
  destruct Hnone as [->|Hlow]; [by apply elem_of_nil in Hb|].
  unfold found_names in Hy. apply elem_of_list_to_set in Hy.
  apply elem_of_list_map in Hy as (scan & _ & Hscan).
  apply list_elem_of_filter in Hscan as [Hhigh Hscan].
  apply ltb_lt in Hhigh.
  apply (proj1 (Forall_forall _ _) Hlow) in Hscan. lra.
Qed.

End BundleExpansion.

Section RelevanceOrder.
Context `{Fuzz}.
Local Open Scope Q_scope.

(** The score is monotone in the three similarities: a skill that is at
    least as similar to the query by name, by triggers and by full text
    does not score less. *)
Theorem calculate_relevance_monotone (query : str) (a b : Skill.t) :
  let q := default_process query in
  0 <= partial_ratio q (Skill.name a) <= partial_ratio q (Skill.name b) ->
  0 <= token_set_ratio q (Skill.triggers a)
    <= token_set_ratio q (Skill.triggers b) ->
  0 <= token_set_ratio q (Skill.full_text a)
    <= token_set_ratio q (Skill.full_text b) ->
  calculate_relevance query a <= calculate_relevance query b.
Proof.
  cbv zeta. intros Hn Ht Hx. rewrite !calculate_relevance_weighted.
  by apply weighted_mono.
Qed.

End RelevanceOrder.

(** ** The order of the report *)

Section OrderFacts.

Lemma leb_refl a : Str.leb a a = true.
Proof.
  induction a as [|x a IH]; [done|]. simpl.
  by rewrite N.eqb_refl, IH, orb_true_r.
Qed.

Lemma leb_cons x a y b :
  Str.leb (x :: a) (y :: b) = true
  <-> (x < y)%N \/ (x = y /\ Str.leb a b = true).
Proof.
  simpl. rewrite orb_true_iff, andb_true_iff, N.ltb_lt, N.eqb_eq. done.
Qed.

#[local] Instance Str_le_trans : Transitive Str.le.
Proof.
  unfold Str.le. intros a. induction a as [|x a IH]; intros b c; [done|].
  destruct b as [|y b]; [done|]. destruct c as [|z c]; [done|].
  rewrite !leb_cons. intros [Hxy|[-> Hab]] [Hyz|[-> Hbc]].
  - left. lia.
  - by left.
  - by left.
  - right. split; [done|]. by eapply IH.
Qed.

#[local] Instance Str_le_total : Total Str.le.
Proof.
  unfold Str.le. intros a. induction a as [|x a IH]; intros b; [by left|].
  destruct b as [|y b]; [by right|]. rewrite !leb_cons.
  destruct (N.lt_trichotomy x y) as [?|[->|?]]; [by left; left| |by right; left].
  destruct (IH b); [left|right]; by right.
Qed.

#[local] Instance Str_le_antisymm : AntiSymm (=) Str.le.
Proof.
  unfold Str.le. intros a. induction a as [|x a IH]; intros b.
  - by destruct b.
  - destruct b as [|y b]; [done|]. rewrite !leb_cons.
    intros [Hxy|[-> Hab]] [Hyx|[Heq Hba]]; try lia.
    f_equal. by apply IH.
Qed.

Lemma sorted_names_sorted `{SetOrder} (s : gset str) :
  StronglySorted Str.le (sorted_names s).
Proof. unfold sorted_names. apply StronglySorted_merge_sort; apply _. Qed.

Lemma sorted_names_NoDup `{SetOrder} (s : gset str) : NoDup (sorted_names s).
Proof.
  unfold sorted_names. rewrite merge_sort_Permutation. apply set_iter_NoDup.
Qed.

Lemma sorted_names_order (o1 o2 : SetOrder) (s : gset str) :
  @sorted_names o1 s = @sorted_names o2 s.
Proof.
  apply (StronglySorted_unique Str.le); try apply sorted_names_sorted.
  apply NoDup_Permutation; try apply sorted_names_NoDup.
  intros x. by rewrite !sorted_names_elem.
Qed.

(** The names of the install command are in increasing order without a
    repetition, they are the core matches and the extras, and neither
    they nor the lines under the core matches depend on the order in
    which the sets are iterated. *)
Theorem recommended_skills_sorted (o1 o2 : SetOrder)
    (results : dict (list SearchResult.t)) (extras : gset str)
    (all_skills : list Skill.t) :
  StronglySorted Str.le (@recommended_skills o1 results extras)
  /\ NoDup (@recommended_skills o1 results extras)
  /\ (forall name, name ∈ @recommended_skills o1 results extras
                   <-> name ∈ core_skills results \/ name ∈ extras)
  /\ @recommended_skills o1 results extras
     = @recommended_skills o2 results extras
  /\ @core_section o1 results all_skills = @core_section o2 results all_skills.
Proof.
  unfold recommended_skills, core_section.
  split; [apply sorted_names_sorted|]. split; [apply sorted_names_NoDup|].
  split; [intros name; by rewrite sorted_names_elem, elem_of_union|].
  split; [apply sorted_names_order|]. by rewrite (sorted_names_order o1 o2).
Qed.

End OrderFacts.

Section SkillMap.

Lemma skill_map_loop_last (all_skills : list Skill.t) (m : dict Skill.t) s :
  Skill.name s ∉ map Skill.name all_skills ->
  Dict.get (Skill.name s)
    (fold_left (fun m s => Dict.setitem (Skill.name s) s m) all_skills m)
  = Dict.get (Skill.name s) m.
Proof.
  revert m. induction all_skills as [|s0 l IH]; intros m; [done|].
  cbn [map fold_left]. intros [Hne Hl]%not_elem_of_cons.
  rewrite IH by done. rewrite get_setitem. by rewrite decide_False.
Qed.

(** When several catalog rows bear the same name, the report describes
    the last of them. *)
Theorem skill_map_last_wins (before after : list Skill.t) (s : Skill.t) :
  Skill.name s ∉ map Skill.name after ->
  Dict.get (Skill.name s) (skill_map_of (before ++ s :: after)) = Some s.
Proof.
  intros Hafter. unfold skill_map_of. rewrite fold_left_app. cbn [fold_left].
  rewrite skill_map_loop_last by done. rewrite get_setitem.
  by rewrite decide_True.
Qed.

End SkillMap.

(** ** The console summary *)

Section RoundTwice.
Import Float64.
Local Open Scope Q_scope.

Lemma rne_integer v m : v == inject_Z m -> rne v = m.
Proof.
  intros Hv. apply Z.le_antisymm.
  - apply rne_upper. rewrite Hv. apply Qle_refl.
  - apply rne_lower. rewrite Hv. apply Qle_refl.
Qed.

Lemma pow2_lt_succ k : 2 ^ k < 2 ^ (k + 1).
Proof.
  rewrite pow2_add. change (2 ^ 1) with 2. pose proof (pow2_pos k). lra.
Qed.

Lemma pow2_le_inv a b : 2 ^ a <= 2 ^ b -> (a <= b)%Z.
Proof.
  intros Hle. destruct (Z_le_gt_dec a b) as [|Hgt]; [done|]. exfalso.
  assert (2 ^ (b + 1) <= 2 ^ a) by (apply pow2_le; lia).
  pose proof (pow2_lt_succ b). lra.
Qed.

Lemma ulp_exp_floor x : (-1074 <= ulp_exp x)%Z.
Proof. unfold ulp_exp. lia. Qed.

Lemma pow2_unscale v e : v / 2 ^ e * 2 ^ e == v.
Proof. field. apply Qnot_eq_sym, Qlt_not_eq, pow2_pos. Qed.

(** A binary64 number is its own rounding. *)
Lemma round_pos_idemp x : 0 < x -> round64 (round_pos x) == round_pos x.
Proof.
  intros Hx. set (e := ulp_exp x). set (r := rne (x / 2 ^ e)).
  assert (Hy : round_pos x = inject_Z r * 2 ^ e) by done.
  pose proof (pow2_pos e) as Hpe.
  assert (Hr0 : (0 <= r)%Z).
  { apply rne_lower. apply Qle_shift_div_l; [done|].
    change (inject_Z 0) with 0. lra. }
  destruct (Z.eq_dec r 0%Z) as [Hz|Hnz].
  { rewrite Hy, Hz. change (inject_Z 0) with 0.
    rewrite round64_zero; [|apply Qmult_0_l]. by rewrite Qmult_0_l. }
  assert (Hrpos : 0 < inject_Z r).
  { change 0 with (inject_Z 0). rewrite <- Zlt_Qlt. lia. }
  assert (Hypos : 0 < round_pos x).
  { rewrite Hy. by apply Qmult_lt_0_compat. }
  rewrite round64_pos by done.
  destruct (ilog2_spec x Hx) as [_ Hx2].
  assert (Hr53 : (r <= 2 ^ 53)%Z).
  { apply rne_upper. rewrite <- pow2_Z by lia.
    apply Qle_shift_div_r; [done|]. rewrite <- pow2_add.
    apply Qlt_le_weak. eapply Qlt_le_trans; [apply Hx2|].
    apply pow2_le. unfold e, ulp_exp. lia. }
  assert (Hy53 : round_pos x <= 2 ^ (53 + e)).
  { rewrite Hy, pow2_add. apply Qmult_le_compat_r; [|lra].
    rewrite pow2_Z by lia. by rewrite <- Zle_Qle. }
  destruct (ilog2_spec _ Hypos) as [Hl1 _].
  assert (Hlog : (ilog2 (round_pos x) <= 53 + e)%Z).
  { apply pow2_le_inv. lra. }
  pose proof (ulp_exp_floor x) as Hfloor. fold e in Hfloor.
  set (e' := ulp_exp (round_pos x)).
  assert (He' : (e' <= e + 1)%Z) by (unfold e', ulp_exp; lia).
  assert (exists m, round_pos x / 2 ^ e' == inject_Z m) as [m Hm].
  { destruct (Z_le_gt_dec e' e) as [Hle|Hgt].
    - exists (r * 2 ^ (e - e'))%Z. rewrite Hy, inject_Z_mult.
      rewrite <- pow2_Z by lia. rewrite <- pow2_quot. field.
      apply Qnot_eq_sym, Qlt_not_eq, pow2_pos.
    - assert (e' = (e + 1)%Z) as He1 by lia.
      assert (ilog2 (round_pos x) = (53 + e)%Z) as Hl
        by (unfold e', ulp_exp in He1; lia).
      rewrite Hl in Hl1.
      assert (r = (2 ^ 53)%Z) as Hr.
      { apply Z.le_antisymm; [done|]. rewrite Zle_Qle.
        rewrite <- pow2_Z by lia.
        rewrite Hy, pow2_add in Hl1.
        apply Qmult_le_r in Hl1; done. }
      exists (2 ^ 52)%Z. rewrite Hy, Hr, He1.
      rewrite <- !pow2_Z by lia. rewrite <- pow2_add, pow2_quot.
      by replace (53 + e - (e + 1))%Z with 52%Z by lia. }
  unfold round_pos at 1. fold e'. rewrite (rne_integer _ m Hm).
  rewrite <- Hm. apply pow2_unscale.
Qed.

Lemma round64_idemp x : 0 <= x -> round64 (round64 x) == round64 x.
Proof.
  intros Hx. destruct (Qlt_le_dec 0 x) as [Hpos|Hle].
  - rewrite (round64_pos x) by done. by apply round_pos_idemp.
  - rewrite (round64_zero x) by lra. done.
Qed.

(** A binary64 number from which at most itself is taken off does not
    round above itself. *)
Lemma sub_le_float x c :
  0 <= c -> c <= round64 x -> 0 <= x -> sub (round64 x) c <= round64 x.
Proof.
  intros Hc Hcx Hx. unfold sub. rewrite <- (round64_idemp x) at 2 by done.
  apply round64_mono; lra.
Qed.

End RoundTwice.

Section ConsoleFacts.
Context `{Fuzz} `{SetOrder}.

#[local] Abbreviation u := Str.of_ascii.
Local Open Scope Q_scope.

Lemma ltb_false x y : Float64.ltb x y = false <-> y <= x.
Proof.
  unfold Float64.ltb. rewrite negb_false_iff. apply Qle_bool_iff.
Qed.

Lemma displayed_iff top_score m :
  displayed top_score m = true
  <-> NOISE_THRESHOLD <= SearchResult.score m
      /\ Float64.sub top_score 20 <= SearchResult.score m.
Proof.
  unfold displayed. rewrite negb_true_iff, orb_false_iff.
  by rewrite !ltb_false.
Qed.

(** On a list sorted by decreasing score, keeping the scores above a
    bound keeps a prefix. *)
Lemma filter_sorted_prefix (P : SearchResult.t -> Prop)
    `{forall m, Decision (P m)} (l : list SearchResult.t) :
  (forall a b, ranks_before a b -> P b -> P a) ->
  StronglySorted ranks_before l ->
  exists k, filter P l = take k l.
Proof.
  intros Hmono. induction 1 as [|x l Hl [k IH] Hx].
  - by exists 0%nat.
  - rewrite filter_cons. case_decide as HP.
    + exists (S k). simpl. by rewrite IH.
    + exists 0%nat. simpl. destruct (filter P l) as [|y l'] eqn:E; [done|].
      exfalso. assert (y ∈ filter P l) as [HPy Hy]%list_elem_of_filter
        by (rewrite E; by constructor).
      apply HP. eapply Hmono; [|done].
      by apply (proj1 (Forall_forall _ _) Hx).
Qed.

Lemma search_entry entities skills top_n entity matches :
  Dict.get entity (search_skills entities skills top_n) = Some matches ->
  StronglySorted ranks_before matches
  /\ forall m, m ∈ matches ->
       exists skill, skill ∈ skills
         /\ m = SearchResult.mk skill (calculate_relevance entity skill).
Proof.
  rewrite search_skills_get. case_decide; [|done]. intros [= <-].
  assert (exists k, slice_to top_n (sort_desc (score_all entity skills))
                    = take k (sort_desc (score_all entity skills))) as [k ->].
  { unfold slice_to. destruct (0 <=? top_n)%Z; eauto. }
  split; [apply StronglySorted_take, sort_desc_sorted|].
  intros m Hm. apply elem_of_take in Hm as (i & Hm & _).
  apply list_elem_of_lookup_2 in Hm. rewrite sort_desc_Permutation in Hm.
  unfold score_all in Hm. apply elem_of_list_map in Hm as (skill & -> & Hs).
  eauto.
Qed.

(** For every entry of the Result Set that [search_skills] builds, the
    matches the console summary prints are the first ones of its ranking,
    none left out in between, and each of them scores at least
    [NOISE_THRESHOLD]. *)
Theorem console_shows_ranking_prefix (entities : list str)
    (skills : list Skill.t) (top_n : Z) (entity : str)
    (matches : list SearchResult.t) :
  Dict.get entity (search_skills entities skills top_n) = Some matches ->
  (exists k, shown_matches matches = take k matches)
  /\ forall m, m ∈ shown_matches matches ->
       NOISE_THRESHOLD <= SearchResult.score m.
Proof.
  intros [Hsorted _]%search_entry. unfold shown_matches.
  destruct matches as [|top rest]; [split; [by exists 0%nat|by intros m Hm%elem_of_nil]|].
  destruct (Float64.ltb (SearchResult.score top) NOISE_THRESHOLD).
  { split; [by exists 0%nat|by intros m Hm%elem_of_nil]. }
  split.
  - apply filter_sorted_prefix; [|done]. intros a b Hab.
    rewrite !displayed_iff. unfold ranks_before in Hab. intros [? ?].
    split; lra.
  - intros m [Hm _]%list_elem_of_filter. by apply displayed_iff in Hm as [? _].
Qed.

Lemma round64_neg x : x < 0 -> Float64.round64 x <= 0.
Proof.
  intros Hx. destruct x as [[|n|n] d]; try done.
  change (Float64.round64 (Z.neg n # d))
    with (- Float64.round_pos (- (Z.neg n # d))).
  pose proof (round_pos_nonneg (- (Z.neg n # d))) as Hr.
  assert (0 <= - (Z.neg n # d)) as Hn by lra. apply Hr in Hn. lra.
Qed.

Lemma top_displayed entity skill :
  let top := SearchResult.mk skill (calculate_relevance entity skill) in
  NOISE_THRESHOLD <= SearchResult.score top ->
  displayed (SearchResult.score top) top = true.
Proof.
  cbv zeta. cbn [SearchResult.score]. intros Hnoise.
  apply displayed_iff. cbn [SearchResult.score]. split; [done|].
  unfold calculate_relevance in *. cbv zeta in *.
  unfold Float64.add at 1 in Hnoise. unfold Float64.add at 1 3.
  set (x := _ + _) in *. unfold NOISE_THRESHOLD in Hnoise.
  destruct (Qlt_le_dec x 0) as [Hneg|Hpos].
  { apply round64_neg in Hneg. lra. }
  apply sub_le_float; [done|lra|done].
Qed.

(** When the console summary prints the header of an entity of the Result
    Set, the first line under it is the top match of the entity: the
    condition of line 261 never drops the first match. *)
Theorem query_block_starts_with_top (entities : list str)
    (skills : list Skill.t) (top_n : Z) (entity : str)
    (top : SearchResult.t) (rest : list SearchResult.t) :
  Dict.get entity (search_skills entities skills top_n) = Some (top :: rest) ->
  NOISE_THRESHOLD <= SearchResult.score top ->
  entity_block (entity, top :: rest)
  = ([NEWLINE] ++ u "Query: '" ++ entity ++ u "'")
    :: match_line top
    :: map match_line
         (filter (fun m => displayed (SearchResult.score top) m = true) rest).
Proof.
  intros [_ Hfrom]%search_entry Hnoise.
  destruct (Hfrom top) as (skill & _ & Htop); [by constructor|].
  unfold entity_block, shown_matches. cbn [fst snd].
  assert (Float64.ltb (SearchResult.score top) NOISE_THRESHOLD = false) as ->
    by (by apply ltb_false).
  rewrite filter_cons, decide_True; [done|].
  rewrite Htop in Hnoise |- *. by apply top_displayed.
Qed.

Lemma sort_desc_head entity skills :
  skills <> [] ->
  exists top rest,
    sort_desc (score_all entity skills) = top :: rest
    /\ forall s, s ∈ skills ->
         calculate_relevance entity s <= SearchResult.score top.
Proof.
  intros Hne.
  pose proof (sort_desc_Permutation (score_all entity skills)) as Hperm.
  pose proof (sort_desc_sorted (score_all entity skills)) as Hsorted.
  destruct (sort_desc (score_all entity skills)) as [|top rest].
  { apply Permutation_nil_l in Hperm. unfold score_all in Hperm.
    by destruct skills. }
  exists top, rest. split; [done|]. intros s Hs.
  assert (SearchResult.mk s (calculate_relevance entity s) ∈ top :: rest)
    as Hin.
  { rewrite Hperm. unfold score_all. apply elem_of_list_map. eauto. }
  apply StronglySorted_inv in Hsorted as [_ Hall].
  apply elem_of_cons in Hin as [<-|Hin]; [cbn; lra|].
  apply (proj1 (Forall_forall _ _) Hall) in Hin. exact Hin.
Qed.

(** An entity the noise filter lets through has, for a [top_n] of at
    least 1, a non-empty entry in the Result Set, whose first match
    scores at least [NOISE_THRESHOLD] and at least as much as the entity
    scores against any skill of the catalog. *)
Theorem valid_entity_has_top_match (entities : list str)
    (skills : list Skill.t) (top_n : Z) (valid : list str) (entity : str) :
  filter_valid_entities entities skills = Some valid ->
  entity ∈ valid -> (1 <= top_n)%Z ->
  exists top rest,
    Dict.get entity (search_skills valid skills top_n) = Some (top :: rest)
    /\ NOISE_THRESHOLD <= SearchResult.score top
    /\ forall s, s ∈ skills ->
         calculate_relevance entity s <= SearchResult.score top.
Proof.
  unfold filter_valid_entities. rewrite filter_valid_loop_filter.
  intros [= <-] Hin Hn. pose proof Hin as [Habove _]%list_elem_of_filter.
  unfold above_noise in Habove. apply existsb_exists in Habove
    as (s0 & Hs0%list_elem_of_In & Hscore%leb_le).
  destruct (sort_desc_head entity skills) as (top & rest & Hsort & Hmax).
  { intros ->. by apply elem_of_nil in Hs0. }
  rewrite search_skills_get, decide_True by done.
  rewrite slice_to_take, Hsort by lia.
  destruct (Z.to_nat top_n) as [|n] eqn:En; [lia|].
  exists top, (take n rest). split; [done|]. split; [|done].
  specialize (Hmax s0 Hs0). lra.
Qed.

End ConsoleFacts.

(** ** The report of a search *)

Section ReportOfSearch.
Context `{Fuzz} `{SetOrder}.

#[local] Abbreviation u := Str.of_ascii.

Lemma skill_map_of_known all_skills name :
  name ∈ map Skill.name all_skills ->
  exists s, Dict.get name (skill_map_of all_skills) = Some s.
Proof.
  intros (s & -> & Hs)%elem_of_list_map.
  apply list_elem_of_split in Hs as (before & after & ->).
  revert before s. induction after as [|s' after IH] using rev_ind;
    intros before s.
  - exists s. unfold skill_map_of. rewrite fold_left_app. cbn [fold_left].
    rewrite get_setitem. by rewrite decide_True.
  - destruct (decide (Skill.name s = Skill.name s')) as [Heq|Hne].
    + exists s'. unfold skill_map_of.
      rewrite app_comm_cons, app_assoc, fold_left_app. cbn [fold_left].
      rewrite get_setitem. by rewrite decide_True.
    + destruct (IH before s) as [s0 Hs0]. exists s0. unfold skill_map_of in *.
      rewrite app_comm_cons, app_assoc, fold_left_app. cbn [fold_left].
      rewrite get_setitem. by rewrite decide_False.
Qed.

Lemma scan_of_search entities skills top_n scan :
  scan ∈ all_scans (search_skills entities skills top_n) ->
  SearchResult.skill scan ∈ skills.
Proof.
  unfold all_scans. intros (matches & Hm & Hscan)%elem_of_concat_list.
  apply values_get in Hm as [entity Hget]; [|apply search_skills_NoDup].
  apply search_entry in Hget as [_ Hfrom].
  destruct (Hfrom scan Hscan) as (skill & Hskill & ->). done.
Qed.

(** A core match of a search over the catalog is always listed under the
    core matches of the report written for the same catalog, with a skill
    of that name. *)
Theorem core_matches_listed (entities : list str) (skills : list Skill.t)
    (top_n : Z) (name : str) :
  name ∈ core_skills (search_skills entities skills top_n) ->
  exists s,
    (name, s) ∈ core_section (search_skills entities skills top_n) skills
    /\ Skill.name s = name /\ s ∈ skills.
Proof.
  intros Hcore. pose proof Hcore as Hname. unfold core_skills in Hname.
  apply elem_of_list_to_set, elem_of_list_map in Hname
    as (scan & -> & [_ Hscan]%list_elem_of_filter).
  apply scan_of_search in Hscan.
  destruct (skill_map_of_known skills (Skill.name (SearchResult.skill scan)))
    as [s Hs]; [apply elem_of_list_map; eauto|].
  exists s. pose proof (skill_map_of_get _ _ _ Hs) as [Hin Hn].
  split; [|done]. unfold core_section. apply listing_elem.
  split; [by apply sorted_names_elem|done].
Qed.

(** No name is listed both under the core matches and under the
    recommendations of a report written for the extras that
    [find_bundled_skills] computed from the same Result Set. *)
Theorem report_sections_disjoint (results : dict (list SearchResult.t))
    (bundles : dict Bundle.t) (all_skills : list Skill.t) (name : str)
    (s : Skill.t) :
  (name, s) ∈ core_section results all_skills ->
  forall s',
    (name, s') ∉ recommended_section (find_bundled_skills results bundles)
                                     all_skills.
Proof.
  unfold core_section, recommended_section.
  intros [Hcore _]%listing_elem s' [Hextra _]%listing_elem.
  apply sorted_names_elem, core_skills_found in Hcore.
  apply set_iter_elem, elem_of_elements, find_bundled_skills_elem in Hextra
    as (_ & _ & _ & Hnot & _).
  done.
Qed.

(** With [--top 0] every entry of the Result Set is empty: nothing is a
    core match, nothing is recommended from the bundles, and the console
    summary prints no entity. *)
Theorem top_zero_finds_nothing (entities : list str) (skills : list Skill.t)
    (bundles : dict Bundle.t) :
  let results := search_skills entities skills 0 in
  all_scans results = []
  /\ core_skills results = ∅
  /\ find_bundled_skills results bundles = ∅
  /\ flat_map entity_block results = [].
Proof.
  cbv zeta.
  assert (Forall (fun item => item.2 = [])
                 (search_skills entities skills 0)) as Hempty.
  { apply Forall_forall. intros [entity matches] Hin. cbn [snd].
    apply elem_get in Hin; [|apply search_skills_NoDup].
    rewrite search_skills_get in Hin. case_decide; [|done].
    injection Hin as <-. done. }
  assert (all_scans (search_skills entities skills 0) = []) as Hscans.
  { unfold all_scans, Dict.values.
    induction Hempty as [|[entity matches] results Hm _ IH]; [done|].
    cbn [map concat snd] in *. by rewrite Hm, IH. }
  split; [done|]. split.
  { unfold core_skills. by rewrite Hscans. }
  split.
  { apply set_eq. intros x. rewrite find_bundled_skills_elem.
    split; [|by intros ?%not_elem_of_empty].
    intros (_ & _ & _ & _ & y & _ & Hy). unfold found_names in Hy.
    rewrite Hscans in Hy. by apply not_elem_of_empty in Hy. }
  clear Hscans.
  induction Hempty as [|[entity matches] results Hm _ IH]; [done|].
  cbn [flat_map]. unfold entity_block at 1. cbn [snd] in *.
  by rewrite Hm, IH.
Qed.

End ReportOfSearch.

(** ** The whole run *)

Section MainFacts.
Context `{Fuzz} `{SetOrder}.

#[local] Abbreviation u := Str.of_ascii.
Local Open Scope Q_scope.

Lemma filter_valid_entities_Some entities skills :
  filter_valid_entities entities skills
  = Some (filter (fun e => above_noise skills e = true) entities).
Proof. unfold filter_valid_entities. by rewrite filter_valid_loop_filter. Qed.

(** The steps of [main] that cannot fail, made explicit. *)
Lemma main_unfold w a :
  main w (Parsed a) =
  match catalog_file w with
  | Missing =>
      Build_run [u "Error: Catalog not found at " ++ catalog_path w] None
                (Exits 1)
  | Unreadable => Build_run [] None Raises
  | Lines lines =>
      let skills := parse_catalog lines in
      match load_skill_bundles (bundles_file w) with
      | None => Build_run [] None Raises
      | Some bundles =>
          match get_clean_input_text (fs w) (input_source a) with
          | None => Build_run [] None Raises
          | Some raw_text =>
              match filter (fun e => above_noise skills e = true)
                           (extract_search_entities raw_text) with
              | [] =>
                  Build_run [u "No valid technical terms found in input."]
                            None Returns
              | valid_entities =>
                  let out :=
                    [u "Analyzing " ++ u (pretty (length valid_entities))
                     ++ u " valid entities..."] in
                  let results :=
                    search_skills valid_entities skills (top a) in
                  let extras := find_bundled_skills results bundles in
                  let out := out ++ print_console_summary results extras in
                  if report a then
                    if report_writable w then
                      Build_run
                        (out ++ [[NEWLINE]
                                 ++ u "[SUCCESS] Report generated: "
                                 ++ report_abspath w])
                        (Some (generate_report_content results extras skills))
                        Returns
                    else Build_run out None Raises
                  else Build_run out None Returns
              end
          end
      end
  end.
Proof.
  unfold main, main_parsed, load_catalog_skills.
  destruct (catalog_file w); [done|done|].
  cbv zeta. destruct (load_skill_bundles _); [|done].
  destruct (get_clean_input_text _ _); [|done].
  rewrite filter_valid_entities_Some. by destruct (filter _ _).
Qed.

Lemma load_skill_bundles_None file :
  load_skill_bundles file = None <-> file = Unreadable.
Proof.
  split; [|by intros ->]. destruct file as [| |lines]; [done|done|].
  cbn [load_skill_bundles].
  destruct (bundle_loop_total lines ([], None)) as [state ->]. done.
Qed.

Lemma get_clean_input_text_None fs source :
  get_clean_input_text fs source = None
  <-> looks_like_path source = true /\ fs source = RaisesOther.
Proof.
  unfold get_clean_input_text. destruct (looks_like_path source).
  - destruct (fs source); cbn [mbind option_bind]; split;
      (done || by intros [_ ?]).
  - cbn [mbind option_bind]. split; [done|by intros [? _]].
Qed.

Lemma valid_nonempty skills entities :
  filter (fun e => above_noise skills e = true) entities <> []
  <-> exists entity, entity ∈ entities /\ above_noise skills entity = true.
Proof.
  split.
  - destruct (filter _ entities) as [|entity valid] eqn:E; [done|]. intros _.
    assert (entity ∈ filter (fun e => above_noise skills e = true) entities)
      as [Habove Hin]%list_elem_of_filter by (rewrite E; by constructor).
    by exists entity.
  - intros (entity & Hin & Habove) E.
    assert (entity ∈ filter (fun e => above_noise skills e = true) entities)
      as Hf by (by apply list_elem_of_filter).
    rewrite E in Hf. by apply elem_of_nil in Hf.
Qed.

(** [main] ends in an uncaught exception exactly in these cases, all with
    the arguments parsed: the catalog cannot be read; or it is read and
    the bundle file cannot be read; or both are read and the input source
    is read as a file and the read raises something else than an
    [OSError]; or the input is read, some entity is above the noise
    threshold, the report is asked for, and it cannot be written.
    Neither [max] nor the index of line 105 can raise. *)
Theorem main_raises_only_outside (w : world) (cmdline : parse_result) :
  ending (main w cmdline) = Raises
  <-> exists a,
        cmdline = Parsed a
        /\ (catalog_file w = Unreadable
            \/ exists lines,
                 catalog_file w = Lines lines
                 /\ (bundles_file w = Unreadable
                     \/ (bundles_file w <> Unreadable
                         /\ ((looks_like_path (input_source a) = true
                              /\ fs w (input_source a) = RaisesOther)
                             \/ exists raw_text,
                                  get_clean_input_text (fs w) (input_source a)
                                  = Some raw_text
                                  /\ (exists entity,
                                        entity ∈ extract_search_entities raw_text
                                        /\ above_noise (parse_catalog lines)
                                                       entity = true)
                                  /\ report a = true
                                  /\ report_writable w = false)))).
Proof.
  destruct cmdline as [a|help|]; cycle 1.
  { split; [done|]. by intros (a & ? & _). }
  { split; [done|]. by intros (a & ? & _). }
  rewrite main_unfold. split.
  - intros Hraises. exists a. split; [done|].
    destruct (catalog_file w) as [| |lines]; [done|by left|]. right.
    exists lines. split; [done|]. cbv zeta in Hraises.
    destruct (load_skill_bundles (bundles_file w)) as [bundles|] eqn:Hb.
    2:{ left. by apply load_skill_bundles_None. }
    right. split.
    { intros Hu. apply load_skill_bundles_None in Hu. congruence. }
    destruct (get_clean_input_text (fs w) (input_source a)) as [raw_text|]
      eqn:Hread.
    2:{ left. by apply get_clean_input_text_None. }
    right. exists raw_text. split; [done|].
    destruct (filter _ _) as [|entity valid] eqn:Hvalid; [done|].
    split.
    { apply (valid_nonempty (parse_catalog lines)). by rewrite Hvalid. }
    destruct (report a); [|done]. by destruct (report_writable w).
  - intros (a' & [= <-] & Hcase).
    destruct Hcase as [->|(lines & -> & Hcase)]; [done|]. cbv zeta.
    destruct Hcase as [Hu|[Hb Hcase]].
    { apply load_skill_bundles_None in Hu. by rewrite Hu. }
    destruct (load_skill_bundles (bundles_file w)) as [bundles|] eqn:Hload;
      [|done].
    destruct Hcase as [Hread|(raw_text & -> & Hvalid & -> & ->)].
    { apply get_clean_input_text_None in Hread. by rewrite Hread. }
    apply (valid_nonempty (parse_catalog lines)) in Hvalid.
    by destruct (filter _ _).
Qed.

(** The report file is written only when the arguments are parsed,
    [--report] is given and some entity of the cleaned input scores at
    least [NOISE_THRESHOLD] against some skill of the catalog; the run
    then returns normally and its last line of output names the file. *)
Theorem report_written_only_on_match (w : world) (cmdline : parse_result)
    (content : str) :
  written (main w cmdline) = Some content ->
  exists a,
    cmdline = Parsed a
    /\ report a = true
    /\ ending (main w cmdline) = Returns
    /\ last (stdout (main w cmdline))
       = Some ([NEWLINE] ++ u "[SUCCESS] Report generated: "
               ++ report_abspath w)
    /\ exists lines raw_text entity skill,
         catalog_file w = Lines lines
         /\ get_clean_input_text (fs w) (input_source a) = Some raw_text
         /\ entity ∈ extract_search_entities raw_text
         /\ skill ∈ parse_catalog lines
         /\ NOISE_THRESHOLD <= calculate_relevance entity skill.
Proof.
  destruct cmdline as [a|help|]; [|done|done]. intros Hwritten.
  exists a. split; [done|]. revert Hwritten.
  rewrite main_unfold. destruct (catalog_file w) as [| |lines]; [done|done|].
  cbv zeta. destruct (load_skill_bundles _) as [bundles|]; [|done].
  destruct (get_clean_input_text _ _) as [raw_text|]; [|done].
  destruct (filter _ _) as [|entity valid] eqn:Hvalid; [done|].
  destruct (report a); [|done]. destruct (report_writable w); [|done].
  intros _. split; [done|]. split; [done|]. split.
  { cbn [stdout]. by rewrite last_snoc. }
  assert (entity ∈ filter (fun e => above_noise (parse_catalog lines) e = true)
                     (extract_search_entities raw_text)) as Hin
    by (rewrite Hvalid; by constructor).
  apply list_elem_of_filter in Hin as [Habove Hin].
  unfold above_noise in Habove. apply existsb_exists in Habove
    as (skill & Hskill%list_elem_of_In & Hscore%leb_le).
  exists lines, raw_text, entity, skill. done.
Qed.

(** [main] ends in [sys.exit] exactly in three cases: the parser prints
    the help (status 0), the parser refuses the command line (status 2),
    or the arguments are parsed and the catalog is missing (status 1). *)
Theorem main_exit_statuses (w : world) (cmdline : parse_result) (code : Z) :
  ending (main w cmdline) = Exits code
  <-> (exists help, cmdline = HelpExit help /\ code = 0%Z)
      \/ (cmdline = UsageExit /\ code = 2%Z)
      \/ (exists a, cmdline = Parsed a /\ catalog_file w = Missing
                    /\ code = 1%Z).
Proof.
  destruct cmdline as [a|help|].
  - rewrite main_unfold. split.
    + intros Hexit. right. right. exists a. split; [done|].
      destruct (catalog_file w) as [| |lines].
      * by injection Hexit as <-.
      * done.
      * cbv zeta in Hexit. destruct (load_skill_bundles _); [|done].
        destruct (get_clean_input_text _ _); [|done].
        destruct (filter _ _); [done|].
        destruct (report a); [|done]. by destruct (report_writable w).
    + intros [(help & ? & _)|[[? _]|(a' & _ & -> & ->)]]; done.
  - cbn [main ending]. split.
    + intros [= <-]. left. by exists help.
    + intros [(help' & _ & ->)|[[? _]|(a' & ? & _)]]; done.
  - cbn [main ending]. split.
    + intros [= <-]. right. by left.
    + intros [(help' & ? & _)|[[_ ->]|(a' & ? & _)]]; done.
Qed.

End MainFacts.

(** ** The script on concrete inputs *)

Section Examples.
#[local] Existing Instance rapidfuzz.
#[local] Existing Instance first_seen.
#[local] Abbreviation u := Str.of_ascii.

(** C7 (the slip): a bullet glyph in the text is no delimiter.  For the
    text "docker", bullet glyph, "redis" the script returns the whole line
    as one entity in every iteration order, where the specification's
    wording gives the two entities "docker" and "redis"; what the script
    does split at is the three-character string of line 136. *)
Theorem bullet_glyph_not_split :
  (forall order : SetOrder,
     @extract_search_entities order bullet_text = [bullet_text])
  /\ extract_search_entities_spec bullet_text = {[ u "docker"; u "redis" ]}
  /\ (forall order : SetOrder,
        list_to_set (@extract_search_entities order mojibake_text)
        = ({[ u "docker"; u "redis" ]} : gset str)).
Proof.
  split; [|split].
  - intros order. unfold extract_search_entities.
    change (entity_lines (normalize_delimiters bullet_text))
      with [bullet_text]. apply set_iter_singleton.
  - by vm_compute.
  - intros order. apply set_eq. intros e.
    rewrite elem_of_list_to_set, extract_search_entities_elem.
    change (entity_lines (normalize_delimiters mojibake_text))
      with [u "docker"; u "redis"].
    rewrite elem_of_union, !elem_of_singleton, elem_of_cons,
      list_elem_of_singleton. done.
Qed.

(** The order of the extracted entities depends on the iteration order;
    the entities do not. *)
Example extraction_order_varies :
  @extract_search_entities first_seen (u "redis, docker-compose")
  = [u "redis"; u "docker"; u "compose"]
  /\ @extract_search_entities last_seen (u "redis, docker-compose")
     = [u "compose"; u "docker"; u "redis"].
Proof. by vm_compute. Qed.

(** C2 (counterexample): for the skill [docker-compose] and its own name
    as the query, the name is compared as stored, hyphen included: the
    name similarity is below the one of the normalized name, the score is
    below 78, and it would be 100 with both sides normalized. *)
Lemma normalization_not_applied_to_skill :
  let query := u "docker-compose" in
  let q := default_process query in
  (partial_ratio q (Skill.name docker_compose)
   < partial_ratio q (default_process (Skill.name docker_compose)))%Q
  /\ (calculate_relevance query docker_compose < 78)%Q
  /\ (calculate_relevance_spec query docker_compose == 100)%Q
  /\ ~ (calculate_relevance query docker_compose
        == calculate_relevance_spec query docker_compose)%Q.
Proof. vm_compute. repeat split; congruence. Qed.

(** C3 (counterexample): the skill [redis], whose only trigger is
    "cache", scores 68 against its own name. *)
Lemma exact_name_below_high_confidence :
  (calculate_relevance (Skill.name redis) redis == 68)%Q
  /\ ~ (HIGH_CONFIDENCE < calculate_relevance (Skill.name redis) redis)%Q.
Proof. vm_compute. split; [reflexivity|]. intros Hlt. discriminate Hlt. Qed.

(** The catalog and the bundle map of the examples. *)
Definition example_catalog : list Skill.t := [docker_compose; redis; docker].

Definition example_bundles : dict Bundle.t :=
  [(u "Containers", containers_bundle)].

Lemma calculate_relevance_weighted_range_witness :
  (0 <= calculate_relevance (u "I need docker and containers") docker_compose
   <= 100)%Q.
Proof.
  refine (proj2 (proj2 (calculate_relevance_weighted_range
                          (u "I need docker and containers") docker_compose
                          _ _ _)));
    vm_compute; split; congruence.
Defined.

Lemma normalization_query_only_witness :
  calculate_relevance (u "Docker") docker
  = calculate_relevance_spec (u "Docker") docker.
Proof.
  refine (proj2 (proj2 (proj2 (proj2 (proj2
            (normalization_query_only RapidFuzz.default_process (u "Docker")
                                      docker)))))
            _ RapidFuzz.partial_ratio RapidFuzz.token_set_ratio).
  vm_compute. repeat split.
Defined.

Lemma reflexive_match_needs_triggers_witness :
  (HIGH_CONFIDENCE
   < calculate_relevance (Skill.name docker_compose) docker_compose)%Q
  /\ (calculate_relevance (Skill.name redis) redis < HIGH_CONFIDENCE)%Q
  /\ (calculate_relevance (Skill.name redis) redis <= HIGH_CONFIDENCE)%Q
  /\ (HIGH_CONFIDENCE < calculate_relevance (Skill.name docker) docker)%Q.
Proof.
  split; [|split; [|split]].
  - refine (proj1 (proj2 (reflexive_match_needs_triggers docker_compose
                                                         _ _ _)) _);
      vm_compute; repeat split; congruence.
  - refine (proj1 (proj2 (proj2 (reflexive_match_needs_triggers redis
                                                                _ _ _))) _);
      vm_compute; repeat split; congruence.
  - refine (proj1 (proj2 (proj2 (proj2 (proj2 (proj2
              (reflexive_match_needs_triggers redis _ _ _)))) _ _ _)) _);
      vm_compute; repeat split; congruence.
  - refine (proj2 (proj2 (proj2 (proj2 (proj2 (proj2
              (reflexive_match_needs_triggers docker _ _ _)))) _ _ _)) _);
      vm_compute; repeat split; congruence.
Defined.

Lemma search_skills_ranking_witness :
  let scored :=
    map (fun skill =>
           SearchResult.mk skill (calculate_relevance (u "docker") skill))
        example_catalog in
  exists ranked kept,
    Dict.get (u "docker")
             (search_skills [u "redis"; u "docker"] example_catalog 2)
    = Some kept
    /\ ranked ≡ₚ scored
    /\ length ranked = length example_catalog
    /\ (forall skill,
          skill ∈ example_catalog ->
          SearchResult.mk skill (calculate_relevance (u "docker") skill)
          ∈ ranked)
    /\ StronglySorted ranks_before ranked
    /\ (forall v, with_score v ranked = with_score v scored)
    /\ (forall other,
          StronglySorted ranks_before other ->
          (forall v, with_score v other = with_score v scored) ->
          other = ranked)
    /\ kept = take 2 ranked
    /\ StronglySorted ranks_before kept
    /\ (Z.of_nat (length kept) <= 2)%Z
    /\ (forall m,
          m ∈ kept ->
          SearchResult.skill m ∈ example_catalog
          /\ SearchResult.score m
             = calculate_relevance (u "docker") (SearchResult.skill m)).
Proof.
  apply (search_skills_ranking [u "redis"; u "docker"] example_catalog 2
                               (u "docker")).
  - apply list_elem_of_further, list_elem_of_here.
  - lia.
Defined.

Lemma report_omits_unknown_names_witness :
  let results := search_skills [u "docker"] example_catalog 5 in
  let extras := find_bundled_skills results example_bundles in
  let name := u "kubernetes-basics" in
  name ∈ extras
  /\ (forall s, (name, s) ∉ recommended_section extras example_catalog)
  /\ (exists before after,
        install_command (recommended_skills results extras)
        = before ++ install_line name ++ after)
  /\ exists before after,
       generate_report_content results extras example_catalog
       = before
         ++ u "Copy-Item -Recurse -Force '.agent/skills/skills/kubernetes-basics' .agent/skills/skills/"
         ++ [NEWLINE] ++ after.
Proof.
  intros results extras name.
  assert (Hextra : name ∈ extras) by (by vm_compute).
  assert (Hunknown : name ∉ map Skill.name example_catalog).
  { rewrite list_elem_of_In. vm_compute. intuition discriminate. }
  destruct (report_omits_unknown_names results extras example_catalog name
              Hunknown) as (_ & Hrec & _ & _ & Hcmd & _ & _ & Hreport).
  split; [done|]. split; [done|]. split.
  { apply Hcmd. apply elem_of_union. by right. }
  destruct Hreport as (before & after & Hreport).
  { apply elem_of_union. by right. }
  exists before, after. rewrite Hreport.
  change (u "Copy-Item -Recurse -Force '.agent/skills/skills/kubernetes-basics' .agent/skills/skills/")
    with (u "Copy-Item -Recurse -Force '.agent/skills/skills/" ++ name
          ++ u "' .agent/skills/skills/").
  by rewrite <- !app_assoc.
Defined.

(** A catalog file, a bundle file and a requirement text. *)
Definition example_catalog_file : list str :=
  [ u "# Catalog" ++ [NEWLINE];
    u "| Skill | Description | Tags | Triggers |" ++ [NEWLINE];
    u "| --- | --- | --- | --- |" ++ [NEWLINE];
    catalog_row (u "docker-compose") (u "Define multi-container apps")
                (u "devops") (u "docker, containers, compose");
    catalog_row (u "redis") (u "In-memory data store") (u "database")
                (u "cache");
    catalog_row (u "docker") (u "build and run containers") (u "devops")
                (u "docker containers") ].

Definition containers_block : block :=
  {| block_name := u "Containers";
     block_text := [u "Everything to ship containers."];
     block_skills := [u "docker"; u "kubernetes-basics"] |}.

Definition example_world : world :=
  {| catalog_path := u "/skills/CATALOG.md";
     catalog_file := Lines example_catalog_file;
     bundles_file := Lines (block_lines containers_block);
     fs := fun _ => NotAFile;
     report_writable := true;
     report_abspath := u "/work/SKILLS_REQUIRED.md" |}.

Definition example_args : args :=
  {| input_source := u "docker, redis"; top := 5; report := true |}.

Lemma example_catalog_parsed : parse_catalog example_catalog_file = example_catalog.
Proof. by vm_compute. Qed.

Lemma loaded_skills_wellformed_witness :
  (exists line, line ∈ example_catalog_file
                /\ parse_catalog_line line = Some redis)
  /\ Forall row_field
       [Skill.name redis; Skill.description redis; Skill.tags redis;
        Skill.triggers redis]
  /\ (BACKTICK ∉ Skill.name redis)
  /\ Skill.name redis <> u "Skill"
  /\ Str.contains (u "---") (Skill.name redis) = false
  /\ Skill.full_text redis
     = Skill.name redis ++ [SPACE] ++ Skill.description redis ++ [SPACE]
       ++ Skill.tags redis ++ [SPACE] ++ Skill.triggers redis.
Proof.
  apply (loaded_skills_wellformed example_catalog_file redis).
  rewrite example_catalog_parsed. apply list_elem_of_further, list_elem_of_here.
Defined.

Lemma short_row_skipped_witness :
  parse_catalog_line (u "| docker | build and run containers |") = None.
Proof.
  apply (short_row_skipped (u "| docker | build and run containers |")).
  vm_compute. lia.
Defined.

Lemma catalog_row_round_trip_witness :
  parse_catalog_line
    (catalog_row (u "redis") (u "In-memory data store") (u "database")
                 (u "cache"))
  = Some redis.
Proof.
  apply (catalog_row_round_trip (u "redis") (u "In-memory data store")
                                (u "database") (u "cache")).
  - repeat constructor; try (by vm_compute);
      rewrite list_elem_of_In; vm_compute; intuition discriminate.
  - rewrite list_elem_of_In. vm_compute. intuition discriminate.
  - by vm_compute.
  - by vm_compute.
Defined.

Lemma loaded_bundles_keyed_witness :
  NoDup (Dict.keys [(u "Containers", block_bundle containers_block)])
  /\ forall key bundle,
       Dict.get key [(u "Containers", block_bundle containers_block)]
       = Some bundle ->
       Bundle.name bundle = key.
Proof.
  apply (loaded_bundles_keyed (Lines (block_lines containers_block))).
  by vm_compute.
Defined.

Lemma lines_before_first_header_ignored_witness :
  load_skill_bundles
    (Lines ([u "# Bundles"; u "- `stray`"; u "Pick a bundle."]
            ++ block_lines containers_block))
  = load_skill_bundles (Lines (block_lines containers_block)).
Proof.
  apply (lines_before_first_header_ignored
           [u "# Bundles"; u "- `stray`"; u "Pick a bundle."]
           (block_lines containers_block)).
  repeat constructor.
Defined.

Lemma wellformed_containers_block : wellformed_block containers_block.
Proof.
  split; [by vm_compute|]. split.
  - repeat constructor; by vm_compute.
  - repeat constructor; rewrite list_elem_of_In; vm_compute;
      intuition discriminate.
Qed.

Lemma bundle_blocks_round_trip_witness :
  load_skill_bundles (Lines (flat_map block_lines [containers_block]))
  = Some [(u "Containers", block_bundle containers_block)].
Proof.
  apply (bundle_blocks_round_trip [containers_block]).
  - apply Forall_cons_2; [apply wellformed_containers_block|constructor].
  - apply NoDup_singleton.
Defined.

Lemma repeated_character_never_read_witness :
  get_clean_input_text (fun _ => Content (u "redis"))
                       (u "requirements.txt")
  = Some (strip_links (u "requirements.txt")).
Proof.
  apply (repeated_character_never_read (fun _ => Content (u "redis"))
                                       (u "requirements.txt")).
  left. intros Hnd. vm_compute in Hnd.
  apply NoDup_cons in Hnd as [Hr _]. apply Hr.
  apply list_elem_of_further, list_elem_of_further, list_elem_of_further,
    list_elem_of_further, list_elem_of_here.
Defined.

Lemma path_like_source_read_witness :
  get_clean_input_text (fun _ => Content (u "[docker](x), redis"))
                       (u "spec.md")
  = Some (strip_links (u "[docker](x), redis")).
Proof.
  apply (path_like_source_read (fun _ => Content (u "[docker](x), redis"))
                               (u "spec.md")).
  - apply (bool_decide_eq_true_1 _). by vm_compute.
  - intros c Hc. rewrite list_elem_of_In in *. vm_compute in *.
    intuition (subst; discriminate).
Defined.

Lemma link_replaced_by_label_witness :
  strip_links (u "see " ++ markdown_link (u "the docs") (u "http://x.y")
               ++ u " and [redis](r)")
  = u "see " ++ u "the docs" ++ strip_links (u " and [redis](r)").
Proof.
  apply (link_replaced_by_label (u "see ") (u "the docs") (u "http://x.y")
                                (u " and [redis](r)"));
    try (by vm_compute);
    rewrite list_elem_of_In; vm_compute; intuition discriminate.
Defined.

Lemma text_without_link_unchanged_witness :
  strip_links (u "docker [beta], redis") = u "docker [beta], redis".
Proof.
  apply (text_without_link_unchanged (u "docker [beta], redis")).
  right. right. left. rewrite list_elem_of_In. vm_compute. intuition discriminate.
Defined.

Definition example_results : dict (list SearchResult.t) :=
  search_skills [u "docker"; u "redis"] example_catalog 5.

Lemma console_shows_ranking_prefix_witness :
  (exists k,
     shown_matches (slice_to 5 (sort_desc (score_all (u "docker")
                                                     example_catalog)))
     = take k (slice_to 5 (sort_desc (score_all (u "docker")
                                                example_catalog))))
  /\ forall m,
       m ∈ shown_matches (slice_to 5 (sort_desc (score_all (u "docker")
                                                           example_catalog))) ->
       (NOISE_THRESHOLD <= SearchResult.score m)%Q.
Proof.
  apply (console_shows_ranking_prefix [u "docker"; u "redis"] example_catalog
                                      5 (u "docker")).
  by vm_compute.
Defined.

Lemma query_block_starts_with_top_witness :
  let top := SearchResult.mk redis (calculate_relevance (u "redis") redis) in
  let rest :=
    [SearchResult.mk docker (calculate_relevance (u "redis") docker);
     SearchResult.mk docker_compose
                     (calculate_relevance (u "redis") docker_compose)] in
  entity_block (u "redis", top :: rest)
  = ([NEWLINE] ++ u "Query: '" ++ u "redis" ++ u "'")
    :: match_line top
    :: map match_line
         (filter (fun m => displayed (SearchResult.score top) m = true) rest).
Proof.
  intros top rest.
  apply (query_block_starts_with_top [u "docker"; u "redis"] example_catalog
                                     5 (u "redis") top rest).
  - by vm_compute.
  - vm_compute. congruence.
Defined.

Lemma valid_entity_has_top_match_witness :
  exists top rest,
    Dict.get (u "redis")
             (search_skills [u "docker"; u "redis"] example_catalog 1)
    = Some (top :: rest)
    /\ (NOISE_THRESHOLD <= SearchResult.score top)%Q
    /\ forall s, s ∈ example_catalog ->
         (calculate_relevance (u "redis") s <= SearchResult.score top)%Q.
Proof.
  apply (valid_entity_has_top_match
           [u "docker"; u "the"; u "redis"] example_catalog 1
           [u "docker"; u "redis"] (u "redis")).
  - by vm_compute.
  - apply list_elem_of_further, list_elem_of_here.
  - lia.
Defined.

(** A world in which the bundle file is missing and reading the input
    source fails on its encoding, and one in which the catalog is there
    and cannot be decoded. *)
Definition undecodable_world : world :=
  {| catalog_path := u "/skills/CATALOG.md";
     catalog_file := Lines example_catalog_file;
     bundles_file := Missing;
     fs := fun _ => RaisesOther;
     report_writable := true;
     report_abspath := u "/work/SKILLS_REQUIRED.md" |}.

Definition undecodable_catalog_world : world :=
  {| catalog_path := u "/skills/CATALOG.md";
     catalog_file := Unreadable;
     bundles_file := Lines (block_lines containers_block);
     fs := fun _ => NotAFile;
     report_writable := true;
     report_abspath := u "/work/SKILLS_REQUIRED.md" |}.

Definition file_args : args :=
  {| input_source := u "spec.md"; top := 5; report := false |}.

Lemma main_raises_only_outside_witness :
  ending (main undecodable_catalog_world (Parsed example_args)) = Raises
  /\ ending (main undecodable_world (Parsed file_args)) = Raises.
Proof.
  split.
  - apply (main_raises_only_outside undecodable_catalog_world
                                    (Parsed example_args)).
    exists example_args. split; [reflexivity|]. left. reflexivity.
  - apply (main_raises_only_outside undecodable_world (Parsed file_args)).
    exists file_args. split; [reflexivity|]. right.
    exists example_catalog_file. split; [reflexivity|]. right.
    split; [discriminate|]. left. by vm_compute.
Defined.

Lemma report_written_only_on_match_witness :
  exists a,
    Parsed example_args = Parsed a
    /\ report a = true
    /\ ending (main example_world (Parsed example_args)) = Returns
    /\ last (stdout (main example_world (Parsed example_args)))
       = Some ([NEWLINE] ++ u "[SUCCESS] Report generated: "
               ++ report_abspath example_world)
    /\ exists lines raw_text entity skill,
         catalog_file example_world = Lines lines
         /\ get_clean_input_text (fs example_world) (input_source a)
            = Some raw_text
         /\ entity ∈ extract_search_entities raw_text
         /\ skill ∈ parse_catalog lines
         /\ (NOISE_THRESHOLD <= calculate_relevance entity skill)%Q.
Proof.
  apply (report_written_only_on_match example_world (Parsed example_args)
           (generate_report_content
              example_results
              (find_bundled_skills
                 example_results
                 [(u "Containers", block_bundle containers_block)])
              example_catalog)).
  by vm_compute.
Defined.

Lemma filter_valid_entities_idempotent_witness :
  filter_valid_entities [u "docker"; u "redis"] example_catalog
  = Some [u "docker"; u "redis"].
Proof.
  apply (filter_valid_entities_idempotent
           [u "docker"; u "the"; u "redis"] [u "docker"; u "redis"]
           example_catalog).
  by vm_compute.
Defined.

Lemma search_skills_shape_witness :
  Dict.keys (search_skills [u "docker"; u "redis"] example_catalog 2)
  = [u "docker"; u "redis"]
  /\ Forall (fun matches =>
               length matches
               = if (0 <=? 2)%Z
                 then Nat.min (Z.to_nat 2) (length example_catalog)
                 else (length example_catalog - Z.to_nat (- 2))%nat)
            (Dict.values
               (search_skills [u "docker"; u "redis"] example_catalog 2)).
Proof.
  apply (search_skills_shape [u "docker"; u "redis"] example_catalog 2).
  apply (bool_decide_eq_true_1 _). by vm_compute.
Defined.

Lemma no_extras_without_trigger_witness :
  find_bundled_skills (search_skills [u "the"] example_catalog 5)
                      example_bundles = ∅.
Proof.
  apply (no_extras_without_trigger
           (search_skills [u "the"] example_catalog 5) example_bundles).
  right. vm_compute. repeat constructor; congruence.
Defined.

Lemma skill_map_last_wins_witness :
  let renamed :=
    catalog_skill (u "redis") (u "Key-value cache") (u "database")
                  (u "cache") in
  Dict.get (u "redis") (skill_map_of ([docker; redis] ++ renamed :: [docker]))
  = Some renamed.
Proof.
  intros renamed.
  apply (skill_map_last_wins [docker; redis] [docker] renamed).
  rewrite list_elem_of_In. vm_compute. intuition discriminate.
Defined.

Lemma calculate_relevance_monotone_witness :
  (calculate_relevance (u "redis") docker
   <= calculate_relevance (u "redis") redis)%Q.
Proof.
  apply (calculate_relevance_monotone (u "redis") docker redis);
    vm_compute; split; congruence.
Defined.

Lemma core_matches_listed_witness :
  exists s,
    (u "docker", s)
    ∈ core_section (search_skills [u "docker"; u "redis"] example_catalog 5)
                   example_catalog
    /\ Skill.name s = u "docker" /\ s ∈ example_catalog.
Proof.
  apply (core_matches_listed [u "docker"; u "redis"] example_catalog 5
                             (u "docker")).
  by vm_compute.
Defined.

Lemma report_sections_disjoint_witness :
  (u "docker", docker)
  ∉ recommended_section
      (find_bundled_skills example_results example_bundles) example_catalog.
Proof.
  refine (report_sections_disjoint example_results example_bundles
                                   example_catalog (u "docker") docker _
                                   docker).
  vm_compute. apply list_elem_of_here.
Defined.

End Examples.
